(** * quantdsl: dependency graphs, execution order and contract valuation

    A shallow embedding of
    - [quantdsl/domain/services/dependency_graphs.py]
      ([generate_dependency_graph], [get_dependency_values],
      [generate_execution_order]) and
    - [quantdsl/application/base.py] ([generate_contract_valuation]),
    with the properties of the scheduler (Kahn's algorithm), of the graph
    assembler and of the evaluator loop. *)

From stdpp Require Import gmap strings list fin_maps fin_sets relations.
From Stdlib Require Import ZArith.

Set Default Proof Using "Type".

(** ** Identifiers, exceptions, repositories *)

(** Call ids, contract-specification ids and link ids are Python strings. *)
Abbreviation call_id := string.

(** The exceptions that the modelled code can raise. [KeyError] is what a
    repository's [__getitem__] raises for an absent id; [DuplicateId] is the
    failure of a write-once registration; [IndexError] is what indexing an
    empty list raises; [DslError] stands for the failures of the DSL
    collaborators (parser, reduction, numeric evaluation). *)
Inductive error : Type :=
  | KeyError (key : call_id)
  | DuplicateId (key : call_id)
  | IndexError
  | DslError (msg : string).

Inductive result (A : Type) : Type :=
  | Ok (a : A)
  | Raise (e : error).
Arguments Ok {A} a.
Arguments Raise {A} e.

#[global] Instance error_eq_dec : EqDecision error.
Proof. solve_decision. Defined.

(** [repo[k]]: the entity registered under [k], or [KeyError]. *)
Definition repo_get {V : Type} (repo : gmap call_id V) (k : call_id) : result V :=
  match repo !! k with
  | Some v => Ok v
  | None => Raise (KeyError k)
  end.

(** A [for] loop whose body may raise: the first exception ends the loop. *)
Fixpoint for_each {A B : Type} (body : A → B → result A) (a : A) (l : list B)
    : result A :=
  match l with
  | [] => Ok a
  | x :: l' =>
      match body a x with
      | Ok a' => for_each body a' l'
      | Raise e => Raise e
      end
  end.

(** ** The execution-order scheduler ([generate_execution_order]) *)

(** The local variables of the generator, together with the ids it has
    yielded so far (oldest first). *)
Record kahn_state : Type := KahnState {
  st_S : gset call_id;
  st_removed_edges : gmap call_id (gset call_id);
  st_yielded : list call_id
}.

(** [S.pop()] removes and returns an arbitrary element of a non-empty set.
    Which one may depend on everything that happened to the set before, so
    the choice is a function of the ids yielded so far and of the set. *)
Class SetPop : Type := {
  pop : list call_id → gset call_id → call_id;
  pop_elem : ∀ h s, s ≠ ∅ → pop h s ∈ s
}.

(** A strategy for running the model: take the first of [elements]. *)
Definition pop_head (h : list call_id) (s : gset call_id) : call_id :=
  default EmptyString (head (elements s)).

Lemma pop_head_elem h s : s ≠ ∅ → pop_head h s ∈ s.
Proof.
  intros Hs. unfold pop_head.
  destruct (elements s) as [|x l] eqn:E.
  - apply elements_empty_inv in E. by apply leibniz_equiv in E.
  - simpl. apply elem_of_elements. rewrite E. left.
Qed.

Definition first_pop : SetPop := {| pop := pop_head; pop_elem := pop_head_elem |}.

(** The three ways a run of the generator can look after a bounded number of
    loop iterations: exhausted (the [while] loop ended), an exception left
    it, or it can still go on. In each case the ids yielded are recorded. *)
Inductive generated : Type :=
  | Finished (order : list call_id)
  | Raised (order : list call_id) (e : error)
  | Running (order : list call_id).

Definition yields (g : generated) : list call_id :=
  match g with
  | Finished order => order
  | Raised order _ => order
  | Running order => order
  end.

Section scheduler.
Context {set_pop : SetPop}.
Variable call_dependents_repo : gmap call_id (list call_id).
Variable call_dependencies_repo : gmap call_id (list call_id).

(** [S = set(leaf_call_ids); removed_edges = defaultdict(set)] *)
Definition initial_state (leaf_call_ids : list call_id) : kahn_state :=
  {| st_S := list_to_set leaf_call_ids; st_removed_edges := ∅; st_yielded := [] |}.

(** The loop test and [n = S.pop(); yield n]. [None]: the loop is over. *)
Definition pop_next (st : kahn_state) : option (call_id * kahn_state) :=
  if decide (st_S st = ∅) then None
  else
    let n := pop (st_yielded st) (st_S st) in
    Some (n, {| st_S := st_S st ∖ {[n]};
                st_removed_edges := st_removed_edges st;
                st_yielded := st_yielded st ++ [n] |}).

(** The body of [for m in dependents]: add [n] to [removed_edges[m]]; the
    inner [for ... else] frees [m] when no dependency of [m] is outside
    [removed_edges[m]]. [call_dependencies_repo[m]] raises for an
    unregistered [m]. *)
Definition visit (n : call_id) (st : kahn_state) (m : call_id) : result kahn_state :=
  let edges_m := {[n]} ∪ default ∅ (st_removed_edges st !! m) in
  match call_dependencies_repo !! m with
  | None => Raise (KeyError m)
  | Some ds =>
      if forallb (λ d, bool_decide (d ∈ edges_m)) ds
      then Ok {| st_S := {[m]} ∪ st_S st;
                 st_removed_edges := delete m (st_removed_edges st);
                 st_yielded := st_yielded st |}
      else Ok {| st_S := st_S st;
                 st_removed_edges := <[m := edges_m]> (st_removed_edges st);
                 st_yielded := st_yielded st |}
  end.

(** What follows the [yield]: look the dependents of [n] up ([KeyError]
    means none were registered: [continue]) and visit each. *)
Definition propagate (n : call_id) (st : kahn_state) : result kahn_state :=
  match call_dependents_repo !! n with
  | None => Ok st
  | Some dependents => for_each (visit n) st dependents
  end.

Fixpoint execution_order_from (fuel : nat) (st : kahn_state) : generated :=
  match fuel with
  | 0 => Running (st_yielded st)
  | S fuel' =>
      match pop_next st with
      | None => Finished (st_yielded st)
      | Some (n, st1) =>
          match propagate n st1 with
          | Ok st2 => execution_order_from fuel' st2
          | Raise e => Raised (st_yielded st1) e
          end
      end
  end.

Definition generate_execution_order (fuel : nat) (leaf_call_ids : list call_id)
    : generated :=
  execution_order_from fuel (initial_state leaf_call_ids).

End scheduler.

(** ** Stateful code: repositories that are written to *)

(** A computation over a store [Σ] that returns or raises. An exception
    leaves the store as it was when it was raised: what had been registered
    stays registered. *)
Definition M (Σ A : Type) : Type := Σ → result A * Σ.

#[global] Instance M_ret {Σ : Type} : MRet (M Σ) := λ A a σ, (Ok a, σ).

#[global] Instance M_bind {Σ : Type} : MBind (M Σ) := λ A B k c σ,
  match c σ with
  | (Ok a, σ') => k a σ'
  | (Raise e, σ') => (Raise e, σ')
  end.

(** A computation that only reads the store and may raise. *)
Definition reading {Σ A : Type} (f : Σ → result A) : M Σ A := λ σ, (f σ, σ).

(** A write that may be refused. *)
Definition writing {Σ : Type} (f : Σ → result Σ) : M Σ unit :=
  λ σ, match f σ with
       | Ok σ' => (Ok tt, σ')
       | Raise e => (Raise e, σ)
       end.

(** [for x in l: body x] in the monad. *)
Fixpoint for_eachM {Σ B : Type} (body : B → M Σ unit) (l : list B) : M Σ unit :=
  match l with
  | [] => mret tt
  | x :: l' => body x ;; for_eachM body l'
  end.

(** Modelled from the spec: the write operation of a repository, whose code
    is not part of the two source files. "[put(id, value)] fails if [id]
    exists with a different value"; writes are at most once per key, "a
    second write to the same id with the same content is a no-op". *)
Definition repo_put {V : Type} `{EqDecision V} (k : call_id) (v : V)
    (repo : gmap call_id V) : result (gmap call_id V) :=
  match repo !! k with
  | None => Ok (<[k := v]> repo)
  | Some v' => if decide (v' = v) then Ok repo else Raise (DuplicateId k)
  end.

(** ** The graph assembler ([generate_dependency_graph]) *)

(** Times are [datetime] objects, here their POSIX timestamp. *)
Record datetime : Type := Datetime { timestamp : Z }.

#[global] Instance datetime_eq_dec : EqDecision datetime.
Proof. solve_decision. Defined.

Record CallRequirement : Type := mkCallRequirement {
  cr_dsl_source : string;
  cr_effective_present_time : option datetime
}.

#[global] Instance CallRequirement_eq_dec : EqDecision CallRequirement.
Proof. solve_decision. Defined.

Record StubbedCall : Type := mkStubbedCall {
  call_id_of : call_id;
  dsl_source : string;
  effective_present_time : option datetime;
  dependencies : list call_id
}.

(** The repositories that hold a dependency graph. *)
Record graph_store : Type := GraphStore {
  call_requirements : gmap call_id CallRequirement;
  call_dependencies : gmap call_id (list call_id);
  call_dependents : gmap call_id (list call_id);
  call_links : gmap call_id call_id
}.

Definition empty_graph_store : graph_store :=
  {| call_requirements := ∅; call_dependencies := ∅;
     call_dependents := ∅; call_links := ∅ |}.

Definition register_call_requirement (id : call_id) (source : string)
    (present_time : option datetime) : M graph_store unit :=
  writing (λ σ,
    match repo_put id (mkCallRequirement source present_time) (call_requirements σ) with
    | Ok r => Ok {| call_requirements := r;
                    call_dependencies := call_dependencies σ;
                    call_dependents := call_dependents σ;
                    call_links := call_links σ |}
    | Raise e => Raise e
    end).

Definition register_call_dependencies (id : call_id) (deps : list call_id)
    : M graph_store unit :=
  writing (λ σ,
    match repo_put id deps (call_dependencies σ) with
    | Ok r => Ok {| call_requirements := call_requirements σ;
                    call_dependencies := r;
                    call_dependents := call_dependents σ;
                    call_links := call_links σ |}
    | Raise e => Raise e
    end).

Definition register_call_dependents (id : call_id) (dependents : list call_id)
    : M graph_store unit :=
  writing (λ σ,
    match repo_put id dependents (call_dependents σ) with
    | Ok r => Ok {| call_requirements := call_requirements σ;
                    call_dependencies := call_dependencies σ;
                    call_dependents := r;
                    call_links := call_links σ |}
    | Raise e => Raise e
    end).

Definition register_call_link (link_id id : call_id) : M graph_store unit :=
  writing (λ σ,
    match repo_put link_id id (call_links σ) with
    | Ok r => Ok {| call_requirements := call_requirements σ;
                    call_dependencies := call_dependencies σ;
                    call_dependents := call_dependents σ;
                    call_links := r |}
    | Raise e => Raise e
    end).

(** [all_dependents[dependency_call_id].append(call_id)] on a
    [defaultdict(list)]. *)
Definition append_dependent (id : call_id) (all_dependents : gmap call_id (list call_id))
    (dependency_call_id : call_id) : gmap call_id (list call_id) :=
  <[dependency_call_id := default [] (all_dependents !! dependency_call_id) ++ [id]]>
    all_dependents.

(** "Keep track of the leaves and the dependents." *)
Definition track (stub : StubbedCall)
    (acc : list call_id * gmap call_id (list call_id))
    : list call_id * gmap call_id (list call_id) :=
  if decide (length (dependencies stub) = 0)
  then (acc.1 ++ [call_id_of stub], acc.2)
  else (acc.1, foldl (append_dependent (call_id_of stub)) acc.2 (dependencies stub)).

(** The loop over the stubbed calls: each is registered and tracked. *)
Fixpoint register_stubs (stubs : list StubbedCall)
    (acc : list call_id * gmap call_id (list call_id))
    : M graph_store (list call_id * gmap call_id (list call_id)) :=
  match stubs with
  | [] => mret acc
  | stub :: stubs' =>
      register_call_requirement (call_id_of stub) (dsl_source stub)
        (effective_present_time stub) ;;
      register_call_dependencies (call_id_of stub) (dependencies stub) ;;
      register_stubs stubs' (track stub acc)
  end.

(** Everything up to "Generate and register the call order": the calls and
    their dependencies are registered, then the dependents (in the order of
    the dictionary's items), then the empty dependents of the root. The
    leaf call ids are handed on. *)
Definition assemble (contract_specification_id : call_id)
    (stubs : list StubbedCall) : M graph_store (list call_id) :=
  acc ← register_stubs stubs ([], ∅);
  for_eachM (λ kv, register_call_dependents kv.1 kv.2) (map_to_list acc.2) ;;
  register_call_dependents contract_specification_id [] ;;
  mret acc.1.

Section link_loop.
Context {set_pop : SetPop}.

(** The loop over the generator. The generator is resumed lazily: the
    link of a yielded id is registered before the dependents of that id
    are visited. Both registries it reads are those of the store, which
    the loop body does not write to. [None]: out of fuel. *)
Fixpoint register_call_links (fuel : nat) (st : kahn_state) (link_id : call_id)
    (σ : graph_store) : option (result unit * graph_store) :=
  match fuel with
  | 0 => None
  | S fuel' =>
      match pop_next st with
      | None => Some (Ok tt, σ)
      | Some (n, st1) =>
          match register_call_link link_id n σ with
          | (Raise e, σ') => Some (Raise e, σ')
          | (Ok _, σ') =>
              match propagate (call_dependents σ') (call_dependencies σ') n st1 with
              | Raise e => Some (Raise e, σ')
              | Ok st2 => register_call_links fuel' st2 n σ'
              end
          end
      end
  end.

Definition generate_dependency_graph (fuel : nat)
    (contract_specification_id : call_id) (stubs : list StubbedCall)
    (σ : graph_store) : option (result unit * graph_store) :=
  match assemble contract_specification_id stubs σ with
  | (Raise e, σ') => Some (Raise e, σ')
  | (Ok leaf_call_ids, σ') =>
      register_call_links fuel (initial_state leaf_call_ids)
        contract_specification_id σ'
  end.
End link_loop.

(** Reading a chain of links: the [k] ids found by following the links
    from [link_id], as far as they go. *)
Fixpoint follow_links (links : gmap call_id call_id) (link_id : call_id) (k : nat)
    : list call_id :=
  match k with
  | 0 => []
  | S k' =>
      match links !! link_id with
      | None => []
      | Some id => id :: follow_links links id k'
      end
  end.

(** ** The evaluator ([get_dependency_values], [generate_contract_valuation]) *)

(** [get_dependency_values]: the dictionary of the results of the
    dependencies of a call. A result repository is taken to hold the
    [result_value] of each [CallResult]. The [KeyError] of either repository
    is raised again as it is. *)
Definition get_dependency_values {V : Type} (id : call_id)
    (dependencies_repo : gmap call_id (list call_id))
    (result_repo : gmap call_id V) : result (gmap call_id V) :=
  match repo_get dependencies_repo id with
  | Raise e => Raise e
  | Ok stub_dependencies =>
      for_each (λ dependency_values stub_id,
                  match repo_get result_repo stub_id with
                  | Raise e => Raise e
                  | Ok stub_result => Ok (<[stub_id := stub_result]> dependency_values)
                  end)
        ∅ stub_dependencies
  end.

(** [l[i]] on a Python list. *)
Definition py_index {A : Type} (l : list A) (i : nat) : result A :=
  match l !! i with
  | Some x => Ok x
  | None => Raise IndexError
  end.

(** The truth value of a list: empty lists are false. *)
Definition truthy_list {A : Type} (l : list A) : bool :=
  match l with
  | [] => false
  | _ :: _ => true
  end.

(** The truth value of a [datetime] object: it defines neither [__bool__]
    nor [__len__], so it is always true. *)
Definition truthy_datetime (t : datetime) : bool := true.

(** [x or y], for [x] that is [None] or a [datetime]. *)
Definition py_or (x : option datetime) (y : datetime) : datetime :=
  match x with
  | Some t => if truthy_datetime t then t else y
  | None => y
  end.

(** Modelled from the spec: [regenerate_execution_order], which is imported
    by [base.py] and whose code is not part of the two source files. The
    chain of links "starts at the contract-specification/root identifier and
    each successive link is keyed by the previously yielded call id"; the
    order ends with ("culminating in") the root, whose id is the identifier
    the chain starts from. A missing link is the repository's [KeyError]. *)
Fixpoint regenerate_execution_order_from (fuel : nat) (links : gmap call_id call_id)
    (graph_id link_id : call_id) (yielded : list call_id) : generated :=
  match fuel with
  | 0 => Running yielded
  | S fuel' =>
      match repo_get links link_id with
      | Raise e => Raised yielded e
      | Ok id =>
          if decide (id = graph_id) then Finished (yielded ++ [id])
          else regenerate_execution_order_from fuel' links graph_id id (yielded ++ [id])
      end
  end.

Definition regenerate_execution_order (fuel : nat) (graph_id : call_id)
    (links : gmap call_id call_id) : generated :=
  regenerate_execution_order_from fuel links graph_id graph_id [].

Section evaluator.
(** Numbers (result values are scalars or vectors of per-path values, the
    interest rate is a scalar) and the objects of the DSL are opaque. *)
Context {value rate dsl_module dsl_expression price_repo : Type}.
Context `{!EqDecision value}.

Record MarketSimulation : Type := mkMarketSimulation {
  simulation_id : string;
  market_calibration_id : string;
  market_names : list string;
  fixing_dates : list datetime;
  observation_date : datetime;
  path_count : nat;
  interest_rate : rate
}.

(** The keyword arguments of [dsl_expr.evaluate]. *)
Record evaluation_kwds : Type := mkEvaluationKwds {
  kw_simulated_price_repo : price_repo;
  kw_simulation_id : string;
  kw_interest_rate : rate;
  kw_present_time : datetime;
  kw_first_market_name : option string
}.

(** What a valuation writes: the results, the registered valuations, and
    (for stating what is passed on) each call of [dsl_expr.evaluate] made,
    with the call id it was made for. *)
Record valuation_store : Type := ValuationStore {
  call_results : gmap call_id value;
  contract_valuations : list call_id;
  evaluations : list (call_id * evaluation_kwds)
}.

(** The DSL collaborators: [dsl_parse], [stubbed_module.body[0].reduce]
    with the dependency values as locals and no globals, and
    [dsl_expr.evaluate]. *)
Variable dsl_parse : string → result dsl_module.
Variable reduce : dsl_module → gmap call_id value → result dsl_expression.
Variable evaluate : dsl_expression → evaluation_kwds → result value.

(** The repositories of the application that a valuation reads. *)
Variable simulated_price_repo : price_repo.
Variable graph : graph_store.

(** Modelled from the spec: [register_contract_valuation], whose code is
    not part of the two source files; a valuation refers to "a dependency
    graph id" and is registered once per run. *)
Definition register_contract_valuation (graph_id : call_id) : M valuation_store unit :=
  λ σ, (Ok tt, {| call_results := call_results σ;
                  contract_valuations := contract_valuations σ ++ [graph_id];
                  evaluations := evaluations σ |}).

Definition register_call_result (id : call_id) (result_value : value)
    : M valuation_store unit :=
  writing (λ σ,
    match repo_put id result_value (call_results σ) with
    | Ok r => Ok {| call_results := r;
                    contract_valuations := contract_valuations σ;
                    evaluations := evaluations σ |}
    | Raise e => Raise e
    end).

(** The call of [dsl_expr.evaluate] with the keyword arguments, recorded. *)
Definition call_evaluate (id : call_id) (dsl_expr : dsl_expression)
    (kwds : evaluation_kwds) : M valuation_store value :=
  λ σ, (evaluate dsl_expr kwds,
        {| call_results := call_results σ;
           contract_valuations := contract_valuations σ;
           evaluations := evaluations σ ++ [(id, kwds)] |}).

(** [market_simulation.market_names[0] if market_simulation.market_names
    else None] *)
Definition first_market_name_of (market_simulation : MarketSimulation)
    : result (option string) :=
  if truthy_list (market_names market_simulation)
  then match py_index (market_names market_simulation) 0 with
       | Ok name => Ok (Some name)
       | Raise e => Raise e
       end
  else Ok None.

(** The dictionary [evaluation_kwds] built for a call. *)
Definition make_evaluation_kwds (call : CallRequirement)
    (market_simulation : MarketSimulation) (first_market_name : option string)
    : evaluation_kwds :=
  {| kw_simulated_price_repo := simulated_price_repo;
     kw_simulation_id := simulation_id market_simulation;
     kw_interest_rate := interest_rate market_simulation;
     kw_present_time :=
       py_or (cr_effective_present_time call) (observation_date market_simulation);
     kw_first_market_name := first_market_name |}.

(** The body of the loop of [generate_contract_valuation]. *)
Definition evaluate_call (market_simulation : MarketSimulation) (id : call_id)
    : M valuation_store unit :=
  call ← reading (λ _, repo_get (call_requirements graph) id);
  dependency_values ←
    reading (λ σ, get_dependency_values id (call_dependencies graph) (call_results σ));
  stubbed_module ← reading (λ _, dsl_parse (cr_dsl_source call));
  dsl_expr ← reading (λ _, reduce stubbed_module dependency_values);
  first_market_name ← reading (λ _, first_market_name_of market_simulation);
  result_value ←
    call_evaluate id dsl_expr
      (make_evaluation_kwds call market_simulation first_market_name);
  register_call_result id result_value.

(** The loop over [regenerate_execution_order], resumed lazily: each id
    is evaluated before the next link is read. [None]: out of fuel. *)
Fixpoint valuation_loop (fuel : nat) (market_simulation : MarketSimulation)
    (graph_id link_id : call_id) (σ : valuation_store)
    : option (result unit * valuation_store) :=
  match fuel with
  | 0 => None
  | S fuel' =>
      match repo_get (call_links graph) link_id with
      | Raise e => Some (Raise e, σ)
      | Ok id =>
          match evaluate_call market_simulation id σ with
          | (Raise e, σ') => Some (Raise e, σ')
          | (Ok _, σ') =>
              if decide (id = graph_id) then Some (Ok tt, σ')
              else valuation_loop fuel' market_simulation graph_id id σ'
          end
      end
  end.

Definition generate_contract_valuation (fuel : nat) (dependency_graph_id : call_id)
    (market_simulation : MarketSimulation) (σ : valuation_store)
    : option (result unit * valuation_store) :=
  match register_contract_valuation dependency_graph_id σ with
  | (Raise e, σ') => Some (Raise e, σ')
  | (Ok _, σ') =>
      valuation_loop fuel market_simulation dependency_graph_id dependency_graph_id σ'
  end.
End evaluator.

(** ** Dependency graphs as the registries record them *)

(** The dependencies recorded for a call, and the dependents recorded for
    it; nothing recorded means none. *)
Definition dependencies_of (dependencies_repo : gmap call_id (list call_id))
    (c : call_id) : list call_id :=
  default [] (dependencies_repo !! c).

Definition dependents_of (dependents_repo : gmap call_id (list call_id))
    (d : call_id) : list call_id :=
  default [] (dependents_repo !! d).

(** The ids handed to the scheduler as leaves have no dependencies. *)
Definition leaves_have_no_dependencies (dependencies_repo : gmap call_id (list call_id))
    (leaf_call_ids : list call_id) : Prop :=
  Forall (λ l, dependencies_of dependencies_repo l = []) leaf_call_ids.

(** Every id listed as a dependent of [n] has [n] among its dependencies. *)
Definition dependents_sound (dependents_repo dependencies_repo : gmap call_id (list call_id))
    : Prop :=
  map_Forall (λ n ms, Forall (λ m, n ∈ dependencies_of dependencies_repo m) ms)
    dependents_repo.

(** Every call is listed as a dependent of each of its dependencies. *)
Definition dependents_complete (dependents_repo dependencies_repo : gmap call_id (list call_id))
    : Prop :=
  map_Forall (λ c ds, Forall (λ d, c ∈ dependents_of dependents_repo d) ds)
    dependencies_repo.

(** Every dependency is itself a registered call. *)
Definition dependencies_closed (dependencies_repo : gmap call_id (list call_id)) : Prop :=
  map_Forall (λ c ds, Forall (λ d, d ∈ dom dependencies_repo) ds) dependencies_repo.

(** The leaves of a graph: the registered calls with an empty dependency set. *)
Definition leaves_of (dependencies_repo : gmap call_id (list call_id)) : gset call_id :=
  dom (filter (λ kv, kv.2 = []) dependencies_repo).

(** [c] depends on [d]: the edge [d → c]. *)
Definition depends_on (dependencies_repo : gmap call_id (list call_id))
    (c d : call_id) : Prop :=
  d ∈ dependencies_of dependencies_repo c.

(** No call depends, directly or through other calls, on itself. *)
Definition acyclic (dependencies_repo : gmap call_id (list call_id)) : Prop :=
  ∀ x, ¬ tc (depends_on dependencies_repo) x x.

(** A well-formed dependency graph with its leaves as the initial frontier. *)
Record dependency_graph (leaf_call_ids : list call_id)
    (dependents_repo dependencies_repo : gmap call_id (list call_id)) : Prop := {
  graph_leaves : list_to_set leaf_call_ids = leaves_of dependencies_repo;
  graph_sound : dependents_sound dependents_repo dependencies_repo;
  graph_complete : dependents_complete dependents_repo dependencies_repo;
  graph_closed : dependencies_closed dependencies_repo
}.

(** [d] comes strictly before [c] in [l]: wherever [c] stands, [d] stands
    at a smaller index. *)
Definition strictly_before (l : list call_id) (d c : call_id) : Prop :=
  ∀ j, l !! j = Some c → ∃ i, i < j ∧ l !! i = Some d.

(** * Properties *)

(** ** Helper lemmas: loops and repositories *)

Lemma forallb_bool_decide {A : Type} (P : A → Prop) `{!∀ x, Decision (P x)} (l : list A) :
  forallb (λ x, bool_decide (P x)) l = true ↔ ∀ x, x ∈ l → P x.
Proof.
  induction l as [|a l IH]; simpl.
  - split; [intros _ x Hx; inversion Hx | done].
  - rewrite andb_true_iff, bool_decide_eq_true, IH. split.
    + intros [Ha Hl] x Hx. apply elem_of_cons in Hx as [->|Hx]; auto.
    + intros Hall. split; [apply Hall; left | intros x Hx; apply Hall; by right].
Qed.

Lemma for_each_invariant {A B : Type} (body : A → B → result A) (P : A → Prop)
    (l : list B) :
  (∀ a x a', x ∈ l → P a → body a x = Ok a' → P a') →
  ∀ a a', P a → for_each body a l = Ok a' → P a'.
Proof.
  induction l as [|x l IH]; simpl; intros Hstep a a' Ha Hrun.
  - by inversion Hrun; subst.
  - destruct (body a x) as [a1|e] eqn:Hb; [|done].
    apply (IH (λ a0 y a0' Hy, Hstep a0 y a0' (proj2 (elem_of_cons l y x) (or_intror Hy)))
             a1 a'); [|done].
    apply (Hstep a x a1); [left | done | done].
Qed.

Lemma repo_get_Ok {V : Type} (repo : gmap call_id V) k v :
  repo_get repo k = Ok v ↔ repo !! k = Some v.
Proof. unfold repo_get. destruct (repo !! k); naive_solver. Qed.

Lemma repo_get_Raise {V : Type} (repo : gmap call_id V) k e :
  repo_get repo k = Raise e ↔ repo !! k = None ∧ e = KeyError k.
Proof. unfold repo_get. destruct (repo !! k); naive_solver. Qed.

(** A successful write leaves the written value under its key, and every
    entry that was there stays as it was. *)
Lemma repo_put_Ok {V : Type} `{EqDecision V} k (v : V) repo repo' :
  repo_put k v repo = Ok repo' →
  repo' !! k = Some v ∧ repo ⊆ repo' ∧ (∀ k', k' ≠ k → repo' !! k' = repo !! k').
Proof.
  unfold repo_put. destruct (repo !! k) as [v'|] eqn:Hk.
  - case_decide; [|done]. intros [= <-]. subst. done.
  - intros [= <-]. rewrite lookup_insert_eq. split_and!; [done| |].
    + by apply insert_subseteq.
    + intros k' Hk'. by rewrite lookup_insert_ne.
Qed.

Lemma repo_put_Raise {V : Type} `{EqDecision V} k (v : V) repo e :
  repo_put k v repo = Raise e →
  e = DuplicateId k ∧ ∃ v', repo !! k = Some v' ∧ v' ≠ v.
Proof.
  unfold repo_put. destruct (repo !! k) as [v'|] eqn:Hk; [|done].
  case_decide; [done|]. intros [= <-]. eauto.
Qed.

(** ** The scheduler: what holds of every state of the loop *)

Section scheduler_properties.
Context {set_pop : SetPop}.
Variable call_dependents_repo : gmap call_id (list call_id).
Variable call_dependencies_repo : gmap call_id (list call_id).

Local Abbreviation deps := (dependencies_of call_dependencies_repo).
Local Abbreviation visit := (visit call_dependencies_repo).
Local Abbreviation propagate := (propagate call_dependents_repo call_dependencies_repo).
Local Abbreviation execution_order_from :=
  (execution_order_from call_dependents_repo call_dependencies_repo).

Lemma pop_next_Some st n st1 :
  pop_next st = Some (n, st1) →
  n ∈ st_S st ∧ st_S st1 = st_S st ∖ {[n]} ∧
  st_removed_edges st1 = st_removed_edges st ∧
  st_yielded st1 = st_yielded st ++ [n].
Proof.
  unfold pop_next. case_decide as HS; [done|]. intros [= <- <-]. simpl.
  split; [by apply pop_elem | done].
Qed.

Lemma pop_next_None st : pop_next st = None → st_S st = ∅.
Proof. unfold pop_next. by case_decide. Qed.

Lemma visit_yielded n st m st' : visit n st m = Ok st' → st_yielded st' = st_yielded st.
Proof.
  unfold visit. destruct (call_dependencies_repo !! m); [|done].
  case_match; by intros [= <-].
Qed.

Lemma propagate_yielded n st st' :
  propagate n st = Ok st' → st_yielded st' = st_yielded st.
Proof.
  unfold propagate. destruct (call_dependents_repo !! n) as [ms|]; [|by intros [= <-]].
  apply (for_each_invariant (visit n) (λ s, st_yielded s = st_yielded st)); [|done].
  intros a x a' _ Ha Hv. by rewrite (visit_yielded _ _ _ _ Hv).
Qed.

(** A generic induction over the loop: a property of the state at the
    loop head, carried over the [yield] and over the visit of the
    dependents, holds of whatever state the yields are read from. *)
Lemma execution_order_from_invariant (P : kahn_state → Prop)
    (Q : call_id → kahn_state → Prop) :
  (∀ st n st1, P st → pop_next st = Some (n, st1) → Q n st1) →
  (∀ n st1 st2, Q n st1 → propagate n st1 = Ok st2 → P st2) →
  ∀ fuel st, P st →
    ∃ st', (P st' ∨ ∃ n, Q n st') ∧ yields (execution_order_from fuel st) = st_yielded st'.
Proof.
  intros Hpop Hprop fuel. induction fuel as [|fuel IH]; intros st HP; simpl.
  - exists st. auto.
  - destruct (pop_next st) as [[n st1]|] eqn:Hnext; [|exists st; auto].
    destruct (propagate n st1) as [st2|e] eqn:Hp.
    + apply IH. eapply Hprop; [|done]. by eapply Hpop.
    + exists st1. split; [right; exists n; by eapply Hpop | done].
Qed.

(** *** Dependencies come first *)

Record scheduled (st : kahn_state) : Prop := {
  scheduled_S : ∀ m d, m ∈ st_S st → d ∈ deps m → d ∈ st_yielded st;
  scheduled_edges : ∀ m es d,
    st_removed_edges st !! m = Some es → d ∈ es → d ∈ st_yielded st;
  scheduled_before : ∀ c d, d ∈ deps c → strictly_before (st_yielded st) d c
}.

Lemma scheduled_initial leaf_call_ids :
  leaves_have_no_dependencies call_dependencies_repo leaf_call_ids →
  scheduled (initial_state leaf_call_ids).
Proof.
  intros Hleaves. split; simpl.
  - intros m d Hm Hd. apply elem_of_list_to_set in Hm.
    rewrite (proj1 (Forall_forall _ _) Hleaves m Hm) in Hd. by inversion Hd.
  - intros m es d Hm. by rewrite lookup_empty in Hm.
  - intros c d _ j Hj. by rewrite lookup_nil in Hj.
Qed.

Lemma scheduled_pop st n st1 :
  scheduled st → pop_next st = Some (n, st1) → scheduled st1.
Proof.
  intros [HS HE HB] (Hn & HS1 & HE1 & HY1)%pop_next_Some.
  split; rewrite ?HS1, ?HE1, ?HY1.
  - intros m d Hm Hd. apply elem_of_app. left. apply (HS m); [set_solver | done].
  - intros m es d Hm Hd. apply elem_of_app. left. by apply (HE m es).
  - intros c d Hd j Hj. apply lookup_snoc_Some in Hj as [[Hlt Hj] | [-> <-]].
    + destruct (HB c d Hd j Hj) as (i & Hi & Hid). exists i. split; [done|].
      by apply lookup_app_l_Some.
    + apply (HS n d Hn), list_elem_of_lookup in Hd as [i Hi].
      exists i. split; [by eapply lookup_lt_Some | by apply lookup_app_l_Some].
Qed.

Lemma scheduled_visit n st m st' :
  n ∈ st_yielded st → scheduled st → visit n st m = Ok st' → scheduled st'.
Proof.
  intros Hn [HS HE HB]. unfold visit.
  destruct (call_dependencies_repo !! m) as [ds|] eqn:Hm; [|done].
  assert (∀ d, d ∈ {[n]} ∪ default ∅ (st_removed_edges st !! m) → d ∈ st_yielded st)
    as Hedges.
  { intros d [Hd%elem_of_singleton|Hd]%elem_of_union; [by subst d|].
    destruct (st_removed_edges st !! m) as [es|] eqn:Hes; simpl in Hd.
    - by apply (HE m es).
    - by apply not_elem_of_empty in Hd. }
  destruct (forallb _ ds) eqn:Hall; intros [= <-]; split; simpl; try done.
  - intros m' d [Hm'%elem_of_singleton|Hm']%elem_of_union Hd; [|by apply (HS m')].
    subst m'. unfold dependencies_of in Hd. rewrite Hm in Hd. simpl in Hd.
    apply Hedges. by apply (proj1 (forallb_bool_decide _ _) Hall).
  - intros m' es d [_ Hm']%lookup_delete_Some. by apply (HE m' es).
  - intros m' es d [[<- <-]|[_ Hm']]%lookup_insert_Some;
      [apply Hedges | by apply (HE m' es)].
Qed.

Lemma scheduled_propagate n st st' :
  n ∈ st_yielded st → scheduled st → propagate n st = Ok st' → scheduled st'.
Proof.
  intros Hn Hst. unfold propagate.
  destruct (call_dependents_repo !! n) as [ms|]; [|by intros [= <-]].
  intros Hrun.
  apply (for_each_invariant (visit n) (λ s, n ∈ st_yielded s ∧ scheduled s) ms)
    in Hrun as [_ ?]; [done| |done].
  intros a m a' _ [Ha1 Ha2] Hv. split.
  - by rewrite (visit_yielded _ _ _ _ Hv).
  - by eapply scheduled_visit.
Qed.

Lemma scheduled_yields fuel leaf_call_ids :
  leaves_have_no_dependencies call_dependencies_repo leaf_call_ids →
  ∃ st, scheduled st ∧
    yields (execution_order_from fuel (initial_state leaf_call_ids)) = st_yielded st.
Proof.
  intros Hleaves.
  destruct (execution_order_from_invariant scheduled
              (λ n st, n ∈ st_yielded st ∧ scheduled st)) with
    (fuel := fuel) (st := initial_state leaf_call_ids) as (st & Hst & Hy).
  - intros st n st1 Hst Hnext. split; [|by eapply scheduled_pop].
    apply pop_next_Some in Hnext as (_ & _ & _ & ->). set_solver.
  - intros n st1 st2 [Hn Hst]. by apply scheduled_propagate.
  - by apply scheduled_initial.
  - exists st. split; [|done]. destruct Hst as [?|(n & _ & ?)]; done.
Qed.
End scheduler_properties.

Lemma for_each_total {A B : Type} (body : A → B → result A) (P : A → Prop) (l : list B) :
  (∀ a x, x ∈ l → P a → ∃ a', body a x = Ok a' ∧ P a') →
  ∀ a, P a → ∃ a', for_each body a l = Ok a' ∧ P a'.
Proof.
  induction l as [|x l IH]; simpl; intros Hstep a Ha; [by exists a|].
  destruct (Hstep a x) as (a1 & -> & Ha1); [left | done |].
  apply IH; [|done]. intros a0 y Hy. apply Hstep. by right.
Qed.

Lemma for_each_visited {A B : Type} (body : A → B → result A) (P : A → Prop)
    (V : B → A → Prop) (l : list B) :
  (∀ a x a', P a → body a x = Ok a' → P a' ∧ V x a') →
  (∀ a x y a', P a → V y a → body a x = Ok a' → V y a') →
  ∀ a a', P a → for_each body a l = Ok a' → P a' ∧ ∀ x, x ∈ l → V x a'.
Proof.
  intros Hstep Hkeep. induction l as [|x l IH] using rev_ind; intros a a' Ha Hrun.
  - simpl in Hrun. injection Hrun as <-. split; [done|]. intros x Hx. by inversion Hx.
  - assert (∃ a1, for_each body a l = Ok a1 ∧ body a1 x = Ok a') as (a1 & Hl & Hx).
    { clear IH Ha. revert a Hrun. induction l as [|y l IHl]; simpl; intros a Hrun.
      - exists a. split; [done|]. by destruct (body a x).
      - destruct (body a y); [by apply IHl | done]. }
    destruct (IH a a1 Ha Hl) as [Ha1 HV]. destruct (Hstep a1 x a' Ha1 Hx) as [Ha' HVx].
    split; [done|]. intros y [Hy| ->%list_elem_of_singleton]%elem_of_app; [|done].
    eapply Hkeep; [exact Ha1 | by apply HV | exact Hx].
Qed.

Lemma forallb_false_exists {A : Type} (f : A → bool) (l : list A) :
  forallb f l = false → ∃ x, x ∈ l ∧ f x = false.
Proof.
  induction l as [|a l IH]; simpl; [done|].
  destruct (f a) eqn:Ha; simpl.
  - intros (x & Hx & Hfx)%IH. exists x. split; [by right | done].
  - intros _. exists a. split; [left | done].
Qed.

Lemma NoDup_length_le_size (l : list call_id) (U : gset call_id) :
  NoDup l → (∀ x, x ∈ l → x ∈ U) → length l ≤ size U.
Proof.
  intros Hnd Hsub. rewrite <-(size_list_to_set (C := gset call_id) l Hnd).
  apply subseteq_size. intros x Hx. apply Hsub. by apply elem_of_list_to_set in Hx.
Qed.

Section scheduler_termination.
Context {set_pop : SetPop}.
Variable call_dependents_repo : gmap call_id (list call_id).
Variable call_dependencies_repo : gmap call_id (list call_id).
Variable leaf_call_ids : list call_id.

Local Abbreviation deps := (dependencies_of call_dependencies_repo).
Local Abbreviation visit := (visit call_dependencies_repo).
Local Abbreviation propagate := (propagate call_dependents_repo call_dependencies_repo).
Local Abbreviation execution_order_from :=
  (execution_order_from call_dependents_repo call_dependencies_repo).
Local Abbreviation scheduled := (scheduled call_dependencies_repo).

(** Every id the scheduler can ever hold. *)
Definition universe : gset call_id :=
  list_to_set leaf_call_ids ∪ dom call_dependencies_repo.

(** A loop that cannot raise and whose yields stay below a bound ends
    within that many iterations. *)
Lemma execution_order_from_finishes (P : kahn_state → Prop)
    (Q : call_id → kahn_state → Prop) (bound : nat) :
  (∀ st n st1, P st → pop_next st = Some (n, st1) → Q n st1) →
  (∀ n st1 st2, Q n st1 → propagate n st1 = Ok st2 → P st2) →
  (∀ n st1, Q n st1 → ∃ st2, propagate n st1 = Ok st2) →
  (∀ st, P st → length (st_yielded st) ≤ bound) →
  ∀ fuel st, P st → bound < fuel + length (st_yielded st) →
    ∃ st', P st' ∧ st_S st' = ∅ ∧ execution_order_from fuel st = Finished (st_yielded st').
Proof.
  intros Hpop Hprop Hok Hbound fuel.
  induction fuel as [|fuel IH]; intros st HP Hfuel; simpl.
  - specialize (Hbound st HP). lia.
  - destruct (pop_next st) as [[n st1]|] eqn:Hnext.
    + pose proof (Hpop _ _ _ HP Hnext) as HQ.
      destruct (Hok _ _ HQ) as [st2 Hp]. rewrite Hp.
      apply IH; [by eapply Hprop|].
      rewrite (propagate_yielded _ _ _ _ _ Hp).
      apply pop_next_Some in Hnext as (_ & _ & _ & ->). rewrite length_app. simpl. lia.
    + exists st. split_and!; [done | by apply pop_next_None | done].
Qed.

(** *** At most once *)

Record once (st : kahn_state) : Prop := {
  once_NoDup : NoDup (st_yielded st);
  once_S : ∀ m, m ∈ st_S st → m ∉ st_yielded st;
  once_universe : ∀ y, y ∈ st_S st ∨ y ∈ st_yielded st → y ∈ universe
}.

Lemma once_initial : once (initial_state leaf_call_ids).
Proof.
  split; simpl.
  - constructor.
  - intros m _ Hm. by inversion Hm.
  - intros y [Hy|Hy]; [unfold universe; set_solver | by inversion Hy].
Qed.

Lemma once_pop st n st1 :
  once st → pop_next st = Some (n, st1) →
  once st1 ∧ last (st_yielded st1) = Some n.
Proof.
  intros [HN HS HU] (Hn & HS1 & HE1 & HY1)%pop_next_Some.
  split; [split|]; rewrite ?HS1, ?HY1.
  - apply NoDup_app. split_and!; [done| |apply NoDup_singleton].
    intros x Hx ->%list_elem_of_singleton. by apply (HS n).
  - intros m [Hm Hmn]%elem_of_difference [?| ->%list_elem_of_singleton]%elem_of_app.
    + by apply (HS m).
    + apply Hmn. by apply elem_of_singleton.
  - intros y [[Hy _]%elem_of_difference|[Hy| ->%list_elem_of_singleton]%elem_of_app];
      apply HU; auto.
  - apply last_snoc.
Qed.

(** A dependent of the id just yielded has not been yielded itself. *)
Lemma dependent_not_yielded st n m :
  scheduled st → NoDup (st_yielded st) → last (st_yielded st) = Some n →
  n ∈ deps m → m ∉ st_yielded st.
Proof.
  intros Hst Hnd Hlast Hnm [j Hj]%list_elem_of_lookup.
  destruct (scheduled_before _ _ Hst m n Hnm j Hj) as (i & Hij & Hi).
  rewrite last_lookup in Hlast.
  pose proof (NoDup_lookup _ _ _ _ Hnd Hi Hlast) as ->.
  apply lookup_lt_Some in Hj. lia.
Qed.

Lemma once_visit n st m st' :
  n ∈ deps m → last (st_yielded st) = Some n → scheduled st → once st →
  visit n st m = Ok st' → once st'.
Proof.
  intros Hnm Hlast Hst [HN HS HU]. unfold visit.
  destruct (call_dependencies_repo !! m) as [ds|] eqn:Hm; [|done].
  destruct (forallb _ ds); intros [= <-]; split; simpl; try done.
  - intros m' [Hm'%elem_of_singleton|Hm']%elem_of_union; [|by apply HS].
    subst m'. by eapply dependent_not_yielded.
  - intros y [[Hy%elem_of_singleton|Hy]%elem_of_union|Hy]; [|by apply HU; auto..].
    subst y. apply elem_of_union. right. by apply elem_of_dom.
Qed.

Hypothesis leaves : leaves_have_no_dependencies call_dependencies_repo leaf_call_ids.
Hypothesis sound : dependents_sound call_dependents_repo call_dependencies_repo.

Lemma sound_dependent n ms m :
  call_dependents_repo !! n = Some ms → m ∈ ms → n ∈ deps m.
Proof using sound.
  intros Hn Hm. apply (proj1 (Forall_forall _ _) (sound n ms Hn) m Hm).
Qed.

Lemma visit_Ok n st m : n ∈ deps m → ∃ st', visit n st m = Ok st'.
Proof.
  unfold dependencies_of, visit.
  destruct (call_dependencies_repo !! m); simpl; [|by intros ?%elem_of_nil].
  intros _. destruct (forallb _ _); eauto.
Qed.

(** The state after the [yield] of [n]. *)
Definition yielding (n : call_id) (st : kahn_state) : Prop :=
  last (st_yielded st) = Some n ∧ scheduled st ∧ once st.

Lemma yielding_pop st n st1 :
  scheduled st ∧ once st → pop_next st = Some (n, st1) → yielding n st1.
Proof.
  intros [Hst Honce] Hnext. destruct (once_pop _ _ _ Honce Hnext) as [? ?].
  split_and!; [done | by eapply scheduled_pop | done].
Qed.

Lemma yielding_visit n st m st' :
  n ∈ deps m → yielding n st → visit n st m = Ok st' → yielding n st'.
Proof.
  intros Hnm (Hlast & Hst & Honce) Hv. split_and!.
  - by rewrite (visit_yielded _ _ _ _ _ Hv).
  - eapply scheduled_visit; [|done..]. by apply last_Some_elem_of.
  - by eapply once_visit.
Qed.

Lemma yielding_propagate n st1 st2 :
  yielding n st1 → propagate n st1 = Ok st2 → scheduled st2 ∧ once st2.
Proof using sound.
  intros HQ. unfold propagate.
  destruct (call_dependents_repo !! n) as [ms|] eqn:Hms.
  - intros Hrun.
    apply (for_each_invariant (visit n) (yielding n) ms) in Hrun as (_ & ? & ?);
      [done| |done].
    intros a m a' Hm. apply yielding_visit. by eapply sound_dependent.
  - intros [= <-]. by destruct HQ as (_ & ? & ?).
Qed.

Lemma yielding_propagate_Ok n st1 :
  yielding n st1 → ∃ st2, propagate n st1 = Ok st2.
Proof using sound.
  intros HQ. unfold propagate.
  destruct (call_dependents_repo !! n) as [ms|] eqn:Hms; [|eauto].
  destruct (for_each_total (visit n) (yielding n) ms) with (a := st1)
    as (st2 & ? & _); [|done|eauto].
  intros a m Hm Ha. destruct (visit_Ok n a m) as [a' Ha']; [by eapply sound_dependent|].
  exists a'. split; [done|]. eapply yielding_visit; [by eapply sound_dependent|done..].
Qed.

Lemma once_length st : once st → length (st_yielded st) ≤ size universe.
Proof.
  intros [HN _ HU]. apply NoDup_length_le_size; [done|]. intros x Hx. apply HU. by right.
Qed.

(** With sound registries, whatever has been yielded after any number of
    iterations is the trace of a state in which nothing is repeated. *)
Lemma once_yields fuel :
  ∃ st, scheduled st ∧ once st ∧
    yields (execution_order_from fuel (initial_state leaf_call_ids)) = st_yielded st.
Proof using leaves sound.
  destruct (execution_order_from_invariant call_dependents_repo call_dependencies_repo
              (λ st, scheduled st ∧ once st) yielding) with
    (fuel := fuel) (st := initial_state leaf_call_ids) as (st & Hst & Hy).
  - apply yielding_pop.
  - apply yielding_propagate.
  - split; [by apply scheduled_initial | apply once_initial].
  - exists st. destruct Hst as [[? ?]|(n & _ & ? & ?)]; done.
Qed.

(** With sound registries the loop ends, without an exception, within
    as many iterations as there are ids. *)
Lemma sound_finishes fuel :
  size universe < fuel →
  ∃ st, scheduled st ∧ once st ∧ st_S st = ∅ ∧
    execution_order_from fuel (initial_state leaf_call_ids) = Finished (st_yielded st).
Proof using leaves sound.
  intros Hfuel.
  destruct (execution_order_from_finishes (λ st, scheduled st ∧ once st) yielding
              (size universe)) with
    (fuel := fuel) (st := initial_state leaf_call_ids) as (st & [? ?] & ? & ?).
  - apply yielding_pop.
  - apply yielding_propagate.
  - apply yielding_propagate_Ok.
  - intros st [_ ?]. by apply once_length.
  - split; [by apply scheduled_initial | apply once_initial].
  - simpl. lia.
  - by exists st.
Qed.
End scheduler_termination.

(** ** Example graphs *)

(** A diamond on top of one leaf: [b] and [c] need [a], the root needs
    both. The dependents of [a] list [b] twice. *)
Definition diamond_dependencies : gmap call_id (list call_id) :=
  {[ "a" := []; "b" := ["a"]; "c" := ["a"; "b"]; "root" := ["c"; "b"] ]}.

Definition diamond_dependents : gmap call_id (list call_id) :=
  {[ "a" := ["b"; "c"; "b"]; "b" := ["c"; "root"]; "c" := ["root"]; "root" := [] ]}.

Example diamond_order :
  generate_execution_order (set_pop := first_pop) diamond_dependents
    diamond_dependencies 10 ["a"; "a"]
  = Finished ["a"; "b"; "c"; "root"].
Proof. vm_compute. reflexivity. Qed.

(** Registries that contradict each other: [a] is handed over as a leaf and
    is also listed as a dependent of [x]. It is yielded twice. *)
Example unsound_registries_repeat :
  generate_execution_order (set_pop := first_pop) {[ "x" := ["a"] ]}
    {[ "a" := []; "x" := [] ]} 10 ["a"; "x"]
  = Finished ["a"; "x"; "a"].
Proof. vm_compute. reflexivity. Qed.

(** ** Each id at most once *)

Lemma diamond_sound : dependents_sound diamond_dependents diamond_dependencies.
Proof. apply (bool_decide_unpack _). vm_compute. exact I. Qed.

(** C10: [generate_execution_order] yields each call id at most once, also
    when the list of leaf ids has duplicates and when a dependents list
    names the same dependent more than once. Leaves are ids without
    dependencies, and a dependent of [n] is a call that has [n] among its
    dependencies. *)
Theorem each_id_is_yielded_at_most_once {set_pop : SetPop}
    (call_dependents_repo call_dependencies_repo : gmap call_id (list call_id))
    (leaf_call_ids : list call_id) (fuel : nat) :
  leaves_have_no_dependencies call_dependencies_repo leaf_call_ids →
  dependents_sound call_dependents_repo call_dependencies_repo →
  NoDup (yields (generate_execution_order call_dependents_repo call_dependencies_repo
                   fuel leaf_call_ids)).
Proof.
  intros Hleaves Hsound.
  destruct (once_yields call_dependents_repo call_dependencies_repo leaf_call_ids
              Hleaves Hsound fuel) as (st & _ & Honce & Hy).
  unfold generate_execution_order. rewrite Hy. apply (once_NoDup _ _ _ Honce).
Qed.

Lemma each_id_is_yielded_at_most_once_witness :
  leaves_have_no_dependencies diamond_dependencies ["a"; "a"] ∧
  dependents_sound diamond_dependents diamond_dependencies ∧
  NoDup (yields (generate_execution_order (set_pop := first_pop) diamond_dependents
                   diamond_dependencies 10 ["a"; "a"])).
Proof.
  assert (leaves_have_no_dependencies diamond_dependencies ["a"; "a"]) as H1
    by (repeat constructor).
  assert (dependents_sound diamond_dependents diamond_dependencies) as H2
    by (apply (bool_decide_unpack _); vm_compute; exact I).
  split_and!; [exact H1 | exact H2 |].
  exact (each_id_is_yielded_at_most_once diamond_dependents diamond_dependencies
           ["a"; "a"] 10 H1 H2).
Defined.

(** ** Every call of an acyclic graph is yielded *)

Section scheduler_completeness.
Context {set_pop : SetPop}.
Variable call_dependents_repo : gmap call_id (list call_id).
Variable call_dependencies_repo : gmap call_id (list call_id).
Variable leaf_call_ids : list call_id.

Local Abbreviation deps := (dependencies_of call_dependencies_repo).
Local Abbreviation visit := (visit call_dependencies_repo).
Local Abbreviation propagate := (propagate call_dependents_repo call_dependencies_repo).
Local Abbreviation scheduled := (scheduled call_dependencies_repo).
Local Abbreviation once := (once call_dependencies_repo leaf_call_ids).
Local Abbreviation yielding := (yielding call_dependencies_repo leaf_call_ids).

(** [removed_edges[x]], read without creating the entry. *)
Definition removed (st : kahn_state) (x : call_id) : gset call_id :=
  default ∅ (st_removed_edges st !! x).

(** The calls that are neither in [S] nor yielded yet: [removed_edges]
    holds each of their dependencies whose dependents have been visited
    ([cur] is the id whose dependents are being visited, if any), and
    some dependency is still missing from it. *)
Record waiting (cur : option call_id) (st : kahn_state) : Prop := {
  waiting_edges : ∀ x d,
    x ∉ st_S st → x ∉ st_yielded st → d ∈ deps x → d ∈ st_yielded st →
    Some d ≠ cur → d ∈ removed st x;
  waiting_open : ∀ x,
    x ∉ st_S st → x ∉ st_yielded st → deps x ≠ [] → ∃ d, d ∈ deps x ∧ d ∉ removed st x;
  waiting_leaves : ∀ l, l ∈ leaf_call_ids → l ∈ st_S st ∨ l ∈ st_yielded st
}.

Lemma waiting_initial : waiting None (initial_state leaf_call_ids).
Proof.
  split; simpl.
  - intros x d _ _ _ Hd. by inversion Hd.
  - intros x _ _ Hx. destruct (deps x) as [|d ds] eqn:Hds; [done|].
    exists d. split; [left|]. unfold removed. simpl. rewrite lookup_empty. simpl.
    apply not_elem_of_empty.
  - intros l Hl. left. by apply elem_of_list_to_set.
Qed.

Lemma waiting_pop st n st1 :
  waiting None st → pop_next st = Some (n, st1) → waiting (Some n) st1.
Proof.
  intros [HK HL HF] (Hn & HS1 & HE1 & HY1)%pop_next_Some.
  assert (∀ x, x ∉ st_S st1 → x ∉ st_yielded st1 →
               x ∉ st_S st ∧ x ∉ st_yielded st ∧ x ≠ n) as Hout.
  { intros x. rewrite HS1, HY1. intros Hx1 Hx2.
    apply not_elem_of_app in Hx2 as [Hx2 Hx3].
    rewrite list_elem_of_singleton in Hx3. split_and!; [|done..].
    intros Hx. apply Hx1. apply elem_of_difference. split; [done|].
    by rewrite elem_of_singleton. }
  unfold removed in *. split; unfold removed; rewrite ?HE1.
  - intros x d Hx1 Hx2 Hd Hy Hcur. destruct (Hout x Hx1 Hx2) as (? & ? & ?).
    apply HK; [done..| |done]. rewrite HY1 in Hy.
    apply elem_of_app in Hy as [Hy|Hy%list_elem_of_singleton]; [done|].
    by subst d.
  - intros x Hx1 Hx2 Hd. destruct (Hout x Hx1 Hx2) as (? & ? & ?). by apply HL.
  - intros l Hl. rewrite HS1, HY1. destruct (decide (l = n)) as [->|Hln].
    + right. apply elem_of_app. right. by left.
    + destruct (HF l Hl) as [?|?].
      * left. apply elem_of_difference. split; [done|]. by rewrite elem_of_singleton.
      * right. apply elem_of_app. by left.
Qed.

(** A visited dependent of [n] is freed or has [n] in its removed edges,
    and stays so while the other dependents are visited. *)
Definition noted (n : call_id) (x : call_id) (st : kahn_state) : Prop :=
  x ∈ st_S st ∨ n ∈ removed st x.

Lemma visit_cases n st m st' :
  visit n st m = Ok st' →
  st_yielded st' = st_yielded st ∧
  ((st_S st' = {[m]} ∪ st_S st ∧
    st_removed_edges st' = delete m (st_removed_edges st)) ∨
   (st_S st' = st_S st ∧
    st_removed_edges st' = <[m := {[n]} ∪ removed st m]> (st_removed_edges st) ∧
    ∃ d, d ∈ deps m ∧ d ∉ {[n]} ∪ removed st m)).
Proof.
  unfold visit, removed, dependencies_of.
  destruct (call_dependencies_repo !! m) as [ds|] eqn:Hm; [|done].
  destruct (forallb _ ds) eqn:Hall; intros [= <-]; simpl; (split; [done|]).
  - by left.
  - right. split_and!; [done..|].
    apply forallb_false_exists in Hall as (d & Hd & Hdec).
    exists d. split; [done|]. by apply bool_decide_eq_false in Hdec.
Qed.

Lemma removed_visit_other n st m st' x :
  visit n st m = Ok st' → x ≠ m → removed st' x = removed st x.
Proof.
  intros (_ & [[_ HE]|(_ & HE & _)])%visit_cases Hx; unfold removed; rewrite HE.
  - by rewrite lookup_delete_ne.
  - by rewrite lookup_insert_ne.
Qed.

Lemma waiting_visit n st m st' :
  waiting (Some n) st → visit n st m = Ok st' →
  waiting (Some n) st' ∧ noted n m st'.
Proof.
  intros [HK HL HF] Hv.
  pose proof (λ x, removed_visit_other _ _ _ _ x Hv) as Hother.
  destruct (visit_cases _ _ _ _ Hv) as (HY & [[HS HE]|(HS & HE & d0 & Hd0 & Hd0')]).
  - split; [split|]; rewrite ?HS, ?HY.
    + intros x d Hx1 Hx2 Hd Hy Hcur. apply not_elem_of_union in Hx1 as [Hxm Hx1].
      rewrite elem_of_singleton in Hxm. rewrite Hother by (intros ->; done).
      by apply HK.
    + intros x Hx1 Hx2 Hd. apply not_elem_of_union in Hx1 as [Hxm Hx1].
      rewrite elem_of_singleton in Hxm. rewrite Hother by (intros ->; done).
      by apply HL.
    + intros l Hl. destruct (HF l Hl); [left; set_solver | by right].
    + left. rewrite HS. set_solver.
  - assert (removed st' m = {[n]} ∪ removed st m) as Hm.
    { unfold removed at 1. by rewrite HE, lookup_insert_eq. }
    split; [split|]; rewrite ?HS, ?HY.
    + intros x d Hx1 Hx2 Hd Hy Hcur. destruct (decide (x = m)) as [->|Hxm].
      * rewrite Hm. apply elem_of_union. right. by apply HK.
      * rewrite Hother by done. by apply HK.
    + intros x Hx1 Hx2 Hd. destruct (decide (x = m)) as [->|Hxm].
      * exists d0. by rewrite Hm.
      * rewrite Hother by done. by apply HL.
    + done.
    + right. rewrite Hm. set_solver.
Qed.

Lemma noted_visit n st m st' x :
  noted n x st → visit n st m = Ok st' → noted n x st'.
Proof.
  intros Hx Hv. pose proof (removed_visit_other _ _ _ _ x Hv) as Hother.
  destruct (visit_cases _ _ _ _ Hv) as (HY & [[HS HE]|(HS & HE & _)]);
    unfold noted in *; rewrite HS.
  - destruct Hx as [?|Hx]; [left; set_solver|].
    destruct (decide (x = m)) as [->|Hxm]; [left; set_solver|].
    right. by rewrite Hother.
  - destruct Hx as [?|Hx]; [by left|]. right.
    destruct (decide (x = m)) as [->|Hxm]; [|by rewrite Hother].
    unfold removed at 1. rewrite HE, lookup_insert_eq. simpl. set_solver.
Qed.

Hypothesis graph : dependency_graph leaf_call_ids call_dependents_repo call_dependencies_repo.

Lemma graph_leaves_have_no_dependencies :
  leaves_have_no_dependencies call_dependencies_repo leaf_call_ids.
Proof using graph.
  apply Forall_forall. intros l Hl.
  apply (elem_of_list_to_set (C := gset call_id)) in Hl.
  rewrite (graph_leaves _ _ _ graph) in Hl. unfold leaves_of in Hl.
  apply elem_of_dom in Hl as [v Hv]. apply map_lookup_filter_Some in Hv as [Hv Hnil].
  simpl in Hnil. unfold dependencies_of. by rewrite Hv, Hnil.
Qed.

Lemma graph_leaf l : call_dependencies_repo !! l = Some [] → l ∈ leaf_call_ids.
Proof using graph.
  intros Hl. apply (elem_of_list_to_set (C := gset call_id)).
  rewrite (graph_leaves _ _ _ graph). unfold leaves_of.
  apply elem_of_dom. exists []. by apply map_lookup_filter_Some.
Qed.

Lemma graph_dependent x n : n ∈ deps x → x ∈ dependents_of call_dependents_repo n.
Proof using graph.
  unfold dependencies_of. destruct (call_dependencies_repo !! x) as [ds|] eqn:Hx;
    simpl; [|by intros ?%elem_of_nil].
  intros Hn. apply (proj1 (Forall_forall _ _) (graph_complete _ _ _ graph x ds Hx) n Hn).
Qed.

Lemma graph_dependency x d : d ∈ deps x → d ∈ dom call_dependencies_repo.
Proof using graph.
  unfold dependencies_of. destruct (call_dependencies_repo !! x) as [ds|] eqn:Hx;
    simpl; [|by intros ?%elem_of_nil].
  intros Hd. apply (proj1 (Forall_forall _ _) (graph_closed _ _ _ graph x ds Hx) d Hd).
Qed.

Lemma graph_universe : universe call_dependencies_repo leaf_call_ids = dom call_dependencies_repo.
Proof using graph.
  unfold universe. rewrite (graph_leaves _ _ _ graph). unfold leaves_of.
  pose proof (dom_filter_subseteq (λ kv : call_id * list call_id, kv.2 = [])
                call_dependencies_repo (D := gset call_id)).
  set_solver.
Qed.

Lemma waiting_propagate n st1 st2 :
  waiting (Some n) st1 → propagate n st1 = Ok st2 → waiting None st2.
Proof using graph.
  intros Hw Hp.
  assert (waiting (Some n) st2 ∧
          ∀ x, x ∈ dependents_of call_dependents_repo n → noted n x st2) as [[HK HL HF] HN].
  { revert Hp. unfold propagate, dependents_of.
    destruct (call_dependents_repo !! n) as [ms|]; simpl.
    - apply for_each_visited; [| |exact Hw].
      + intros a x a'. apply waiting_visit.
      + intros a x y a' _. apply noted_visit.
    - intros [= <-]. split; [done|]. by intros x ?%elem_of_nil. }
  split; [|done..].
  intros x d Hx1 Hx2 Hd Hy _. destruct (decide (d = n)) as [->|Hdn].
  - destruct (HN x (graph_dependent _ _ Hd)) as [?|?]; done.
  - apply HK; [done..|]. by intros [= ?].
Qed.

Hypothesis no_cycle : acyclic call_dependencies_repo.

(** Acyclic and finite: the dependency relation is well founded. *)
Lemma depends_on_sn x : sn (depends_on call_dependencies_repo) x.
Proof using graph no_cycle.
  apply tc_finite_sn.
  - intros y Hy. by apply (no_cycle y).
  - exists (elements (dom call_dependencies_repo)). intros y Hy.
    apply elem_of_elements. induction Hy as [a b Hab|a b c Hab _ IH]; [|done].
    by apply (graph_dependency a).
Qed.

(** When the loop is over, every registered call has been yielded. *)
Lemma all_yielded st x :
  waiting None st → st_S st = ∅ → x ∈ dom call_dependencies_repo → x ∈ st_yielded st.
Proof using graph no_cycle.
  intros [HK HL HF] HS. induction (depends_on_sn x) as [x _ IH]. intros Hx.
  destruct (decide (x ∈ st_yielded st)) as [|Hny]; [done|]. exfalso.
  assert (x ∉ st_S st) as HxS by (rewrite HS; apply not_elem_of_empty).
  apply elem_of_dom in Hx as [ds Hds].
  destruct ds as [|d0 ds].
  - destruct (HF x (graph_leaf x Hds)) as [?|?]; done.
  - destruct (HL x HxS Hny) as (d & Hd & Hd').
    { unfold dependencies_of. by rewrite Hds. }
    apply Hd', HK; [done..| |done].
    apply (IH d); [exact Hd | by apply (graph_dependency x)].
Qed.

Lemma graph_finishes fuel :
  size (dom call_dependencies_repo) < fuel →
  ∃ order,
    generate_execution_order call_dependents_repo call_dependencies_repo fuel leaf_call_ids
      = Finished order ∧
    NoDup order ∧ ∀ c, c ∈ order ↔ c ∈ dom call_dependencies_repo.
Proof using graph no_cycle.
  intros Hfuel. pose proof graph_leaves_have_no_dependencies as Hleaves.
  pose proof (graph_sound _ _ _ graph) as Hsound.
  destruct (execution_order_from_finishes call_dependents_repo call_dependencies_repo
              (λ st, (scheduled st ∧ once st) ∧ waiting None st)
              (λ n st, yielding n st ∧ waiting (Some n) st)
              (size (dom call_dependencies_repo))) with
    (fuel := fuel) (st := initial_state leaf_call_ids)
    as (st & [[Hst Honce] Hw] & HS & Hrun).
  - intros st n st1 [? ?] Hnext. split; [by eapply yielding_pop | by eapply waiting_pop].
  - intros n st1 st2 [? ?] Hp.
    split; [by eapply yielding_propagate | by eapply waiting_propagate].
  - intros n st1 [? _]. by eapply yielding_propagate_Ok.
  - intros st [[_ Honce] _]. rewrite <-graph_universe. by apply once_length.
  - split; [split|]; [by apply scheduled_initial | apply once_initial | apply waiting_initial].
  - simpl. lia.
  - exists (st_yielded st). split_and!; [done | apply (once_NoDup _ _ _ Honce) |].
    intros c. split.
    + intros Hc. rewrite <-graph_universe. apply (once_universe _ _ _ Honce). by right.
    + by apply all_yielded.
Qed.
End scheduler_completeness.

(** A rank that grows along every edge rules cycles out. *)
Lemma ranked_acyclic (dependencies_repo : gmap call_id (list call_id))
    (rank : call_id → nat) :
  map_Forall (λ c ds, Forall (λ d, rank d < rank c) ds) dependencies_repo →
  acyclic dependencies_repo.
Proof.
  intros Hrank.
  assert (∀ c d, tc (depends_on dependencies_repo) c d → rank d < rank c) as Htc.
  { intros c d Hcd. induction Hcd as [c d Hcd|c e d Hce _ IH].
    - unfold depends_on, dependencies_of in Hcd.
      destruct (dependencies_repo !! c) as [ds|] eqn:Hc; simpl in Hcd;
        [|by apply elem_of_nil in Hcd].
      apply (proj1 (Forall_forall _ _) (Hrank c ds Hc) d Hcd).
    - assert (rank e < rank c); [|lia].
      unfold depends_on, dependencies_of in Hce.
      destruct (dependencies_repo !! c) as [ds|] eqn:Hc; simpl in Hce;
        [|by apply elem_of_nil in Hce].
      apply (proj1 (Forall_forall _ _) (Hrank c ds Hc) e Hce). }
  intros x Hx. apply Htc in Hx. lia.
Qed.

Definition diamond_rank (c : call_id) : nat :=
  default 0 (({[ "a" := 0; "b" := 1; "c" := 2; "root" := 3 ]} : gmap call_id nat) !! c).

Lemma diamond_graph : dependency_graph ["a"] diamond_dependents diamond_dependencies.
Proof. split; apply (bool_decide_unpack _); vm_compute; exact I. Qed.

Lemma diamond_acyclic : acyclic diamond_dependencies.
Proof.
  apply (ranked_acyclic _ diamond_rank). apply (bool_decide_unpack _). vm_compute. exact I.
Qed.

(** ** Topological validity *)

(** C1: for every dependency graph (well formed and without cycle) and
    every edge [d → c] recorded in the dependencies registry,
    [generate_execution_order], started from the leaf call ids of the graph,
    is exhausted having yielded both [d] and [c], with [d] at a smaller index
    than [c]; wherever [c] stands in the sequence, [d] stands before it, and
    so it is of the ids yielded after any number of iterations, whatever
    [S.pop()] picks. *)
Theorem dependencies_are_yielded_first {set_pop : SetPop}
    (call_dependents_repo call_dependencies_repo : gmap call_id (list call_id))
    (leaf_call_ids : list call_id) (fuel : nat) (c d : call_id) (ds : list call_id) :
  dependency_graph leaf_call_ids call_dependents_repo call_dependencies_repo →
  acyclic call_dependencies_repo →
  size (dom call_dependencies_repo) < fuel →
  call_dependencies_repo !! c = Some ds →
  d ∈ ds →
  ∃ order i j,
    generate_execution_order call_dependents_repo call_dependencies_repo fuel
      leaf_call_ids = Finished order ∧
    order !! i = Some d ∧ order !! j = Some c ∧ i < j ∧
    strictly_before order d c ∧
    ∀ fuel',
      strictly_before
        (yields (generate_execution_order call_dependents_repo call_dependencies_repo
                   fuel' leaf_call_ids)) d c.
Proof.
  intros Hgraph Hacyclic Hfuel Hc Hd.
  pose proof (graph_leaves_have_no_dependencies _ _ _ Hgraph) as Hleaves.
  assert (∀ fuel',
            strictly_before
              (yields (generate_execution_order call_dependents_repo
                         call_dependencies_repo fuel' leaf_call_ids)) d c) as Hbefore.
  { intros fuel'.
    destruct (scheduled_yields call_dependents_repo call_dependencies_repo fuel'
                leaf_call_ids Hleaves) as (st & Hst & Hy).
    unfold generate_execution_order. rewrite Hy.
    apply (scheduled_before _ _ Hst). unfold dependencies_of. by rewrite Hc. }
  destruct (graph_finishes call_dependents_repo call_dependencies_repo leaf_call_ids
              Hgraph Hacyclic fuel Hfuel) as (order & Hrun & Hnd & Hall).
  assert (c ∈ order) as [j Hj]%list_elem_of_lookup.
  { apply Hall, elem_of_dom. by eexists. }
  pose proof (Hbefore fuel) as Hb. rewrite Hrun in Hb. simpl in Hb.
  destruct (Hb j Hj) as (i & Hij & Hi).
  exists order, i, j. split_and!; done.
Qed.

Lemma dependencies_are_yielded_first_witness :
  dependency_graph ["a"] diamond_dependents diamond_dependencies ∧
  acyclic diamond_dependencies ∧
  size (dom diamond_dependencies) < 5 ∧
  diamond_dependencies !! "root" = Some ["c"; "b"] ∧
  "b" ∈ ["c"; "b"] ∧
  ∃ order i j,
    generate_execution_order (set_pop := first_pop) diamond_dependents
      diamond_dependencies 5 ["a"] = Finished order ∧
    order !! i = Some "b" ∧ order !! j = Some "root" ∧ i < j ∧
    strictly_before order "b" "root" ∧
    ∀ fuel',
      strictly_before
        (yields (generate_execution_order (set_pop := first_pop) diamond_dependents
                   diamond_dependencies fuel' ["a"])) "b" "root".
Proof.
  assert (size (dom diamond_dependencies) < 5) as H3 by (vm_compute; lia).
  assert (diamond_dependencies !! "root" = Some ["c"; "b"]) as H4
    by (vm_compute; reflexivity).
  assert ("b" ∈ ["c"; "b"]) as H5 by (right; left).
  split_and!; [exact diamond_graph | exact diamond_acyclic | exact H3 | exact H4
              | exact H5 |].
  exact (dependencies_are_yielded_first diamond_dependents diamond_dependencies
           ["a"] 5 "root" "b" ["c"; "b"] diamond_graph diamond_acyclic H3 H4 H5).
Defined.

(** C2: for a finite acyclic dependency graph whose initial frontier is
    its leaf call ids, [generate_execution_order] terminates, whatever
    [S.pop()] picks, within as many iterations as there are calls plus the
    last test of the loop, and yields every call id of the graph exactly
    once. *)
Theorem acyclic_graph_is_yielded_exactly_once {set_pop : SetPop}
    (call_dependents_repo call_dependencies_repo : gmap call_id (list call_id))
    (leaf_call_ids : list call_id) (fuel : nat) :
  dependency_graph leaf_call_ids call_dependents_repo call_dependencies_repo →
  acyclic call_dependencies_repo →
  size (dom call_dependencies_repo) < fuel →
  ∃ order,
    generate_execution_order call_dependents_repo call_dependencies_repo fuel leaf_call_ids
      = Finished order ∧
    NoDup order ∧
    (∀ c, c ∈ order ↔ is_Some (call_dependencies_repo !! c)) ∧
    order ≡ₚ elements (dom call_dependencies_repo).
Proof.
  intros Hgraph Hacyclic Hfuel.
  destruct (graph_finishes call_dependents_repo call_dependencies_repo leaf_call_ids
              Hgraph Hacyclic fuel Hfuel) as (order & Hrun & Hnd & Hall).
  exists order. split_and!; [done..| |].
  - intros c. by rewrite Hall, elem_of_dom.
  - apply NoDup_Permutation; [done | apply NoDup_elements |].
    intros c. by rewrite Hall, elem_of_elements.
Qed.

Lemma acyclic_graph_is_yielded_exactly_once_witness :
  ∃ order,
    generate_execution_order (set_pop := first_pop) diamond_dependents
      diamond_dependencies 5 ["a"] = Finished order ∧
    NoDup order ∧
    (∀ c, c ∈ order ↔ is_Some (diamond_dependencies !! c)) ∧
    order ≡ₚ elements (dom diamond_dependencies).
Proof.
  assert (size (dom diamond_dependencies) < 5) as Hfuel by (vm_compute; lia).
  exact (acyclic_graph_is_yielded_exactly_once diamond_dependents diamond_dependencies
           ["a"] 5 diamond_graph diamond_acyclic Hfuel).
Defined.

(** ** Graphs with a cycle *)

Section cycles.
Variable call_dependencies_repo : gmap call_id (list call_id).

Lemma strictly_before_trans l d e c :
  strictly_before l e c → strictly_before l d e → strictly_before l d c.
Proof.
  intros Hec Hde j Hj. destruct (Hec j Hj) as (i & Hij & Hi).
  destruct (Hde i Hi) as (k & Hki & Hk). exists k. split; [lia | done].
Qed.

Lemma scheduled_before_tc st c d :
  scheduled call_dependencies_repo st →
  tc (depends_on call_dependencies_repo) c d →
  strictly_before (st_yielded st) d c.
Proof.
  intros Hst Hcd. induction Hcd as [c d Hcd|c e d Hce _ IH].
  - by apply (scheduled_before _ _ Hst).
  - eapply strictly_before_trans; [|exact IH]. by apply (scheduled_before _ _ Hst).
Qed.

Lemma strictly_before_irrefl l x : strictly_before l x x → x ∉ l.
Proof.
  intros Hxx [j Hj]%list_elem_of_lookup. revert Hj.
  induction (lt_wf j) as [j _ IH]. intros Hj.
  destruct (Hxx j Hj) as (i & Hij & Hi). by apply (IH i).
Qed.

(** A call on a cycle is never yielded. *)
Lemma cycle_not_yielded st x :
  scheduled call_dependencies_repo st →
  tc (depends_on call_dependencies_repo) x x →
  x ∉ st_yielded st.
Proof.
  intros Hst Hxx. apply strictly_before_irrefl. by apply scheduled_before_tc.
Qed.

Lemma cycle_registered x :
  tc (depends_on call_dependencies_repo) x x → x ∈ dom call_dependencies_repo.
Proof.
  intros Hxx. apply elem_of_dom.
  assert (∃ y, depends_on call_dependencies_repo x y) as [y Hy].
  { inversion Hxx; eauto. }
  unfold depends_on, dependencies_of in Hy.
  destruct (call_dependencies_repo !! x); [done|]. by apply elem_of_nil in Hy.
Qed.
End cycles.

(** ** The chain of links *)

(** [order] is chained from [link_id]: the link keyed by [link_id] maps to
    the first id, and the link keyed by each id maps to the next one. *)
Fixpoint chained (links : gmap call_id call_id) (link_id : call_id)
    (order : list call_id) : Prop :=
  match order with
  | [] => True
  | id :: order' => links !! link_id = Some id ∧ chained links id order'
  end.

Lemma chained_weaken links links' link_id order :
  links ⊆ links' → chained links link_id order → chained links' link_id order.
Proof.
  intros Hsub. revert link_id. induction order as [|id order IH]; simpl; [done|].
  intros link_id [Hl Hc]. split; [by eapply lookup_weaken | by apply IH].
Qed.

Lemma follow_links_chained links link_id order :
  chained links link_id order → follow_links links link_id (length order) = order.
Proof.
  revert link_id. induction order as [|id order IH]; simpl; [done|].
  intros link_id [-> Hc]. by rewrite IH.
Qed.

Lemma chained_head links link_id order first :
  chained links link_id order → head order = Some first → links !! link_id = Some first.
Proof. destruct order; simpl; [done|]. by intros [? _] [= <-]. Qed.

Lemma chained_successor links link_id order i a b :
  chained links link_id order →
  order !! i = Some a → order !! (S i) = Some b → links !! a = Some b.
Proof.
  revert link_id i. induction order as [|id order IH]; simpl; [done|].
  intros link_id [|i] [_ Hc]; simpl.
  - intros [= ->] Hb. destruct order; simpl in *; [done|]. destruct Hc as [? _]. congruence.
  - apply (IH id i Hc).
Qed.

Lemma writing_Ok {Σ : Type} (f : Σ → result Σ) σ σ' :
  writing f σ = (Ok tt, σ') ↔ f σ = Ok σ'.
Proof. unfold writing. destruct (f σ); naive_solver. Qed.

Lemma writing_Raise {Σ : Type} (f : Σ → result Σ) σ e σ' :
  writing f σ = (Raise e, σ') ↔ f σ = Raise e ∧ σ' = σ.
Proof. unfold writing. destruct (f σ); naive_solver. Qed.

Lemma register_call_link_Ok link_id id σ u σ' :
  register_call_link link_id id σ = (Ok u, σ') →
  call_links σ' !! link_id = Some id ∧ call_links σ ⊆ call_links σ' ∧
  call_requirements σ' = call_requirements σ ∧
  call_dependencies σ' = call_dependencies σ ∧
  call_dependents σ' = call_dependents σ.
Proof.
  destruct u. unfold register_call_link. rewrite writing_Ok.
  destruct (repo_put link_id id (call_links σ)) as [r|] eqn:Hput; [|done].
  intros [= <-]. simpl. apply repo_put_Ok in Hput as (? & ? & _). done.
Qed.

Lemma register_call_link_Raise link_id id σ e σ' :
  register_call_link link_id id σ = (Raise e, σ') → σ' = σ ∧ e = DuplicateId link_id.
Proof.
  unfold register_call_link. rewrite writing_Raise.
  destruct (repo_put link_id id (call_links σ)) as [r|] eqn:Hput; [by intros [? _]|].
  intros [[= <-] ->]. by apply repo_put_Raise in Hput as [-> _].
Qed.

Section link_loop_properties.
Context {set_pop : SetPop}.

(** The loop over the generator changes nothing but the links, and adds
    to them. *)
Lemma register_call_links_frame fuel st link_id σ out σ' :
  register_call_links fuel st link_id σ = Some (out, σ') →
  call_links σ ⊆ call_links σ' ∧
  call_requirements σ' = call_requirements σ ∧
  call_dependencies σ' = call_dependencies σ ∧
  call_dependents σ' = call_dependents σ.
Proof.
  revert st link_id σ. induction fuel as [|fuel IH]; simpl; [done|].
  intros st link_id σ.
  destruct (pop_next st) as [[n st1]|]; [|by intros [= _ <-]].
  destruct (register_call_link link_id n σ) as [[u|e] σ1] eqn:Hreg.
  - apply register_call_link_Ok in Hreg as (_ & Hsub & Hr & Hd & Hds).
    destruct (propagate _ _ n st1) as [st2|e].
    + intros (Hsub' & -> & -> & ->)%IH. split; [by etrans|done].
    + by intros [= _ <-].
  - apply register_call_link_Raise in Hreg as [-> _]. by intros [= _ <-].
Qed.

(** When the loop returns, the generator has finished, and what it has
    yielded since is chained from the link id the loop began with. *)
Lemma register_call_links_Ok fuel st link_id σ u σ' :
  register_call_links fuel st link_id σ = Some (Ok u, σ') →
  ∃ new,
    execution_order_from (call_dependents σ) (call_dependencies σ) fuel st
      = Finished (st_yielded st ++ new) ∧
    chained (call_links σ') link_id new.
Proof.
  revert st link_id σ. induction fuel as [|fuel IH]; simpl; [done|].
  intros st link_id σ.
  destruct (pop_next st) as [[n st1]|] eqn:Hnext.
  - destruct (register_call_link link_id n σ) as [[v|e] σ1] eqn:Hreg; [|done].
    apply register_call_link_Ok in Hreg as (Hl & _ & _ & Hd & Hds). rewrite Hd, Hds.
    destruct (propagate _ _ n st1) as [st2|e] eqn:Hp; [|done].
    intros Hrun. destruct (register_call_links_frame _ _ _ _ _ _ Hrun) as (Hsub & _).
    apply IH in Hrun as (new & Hrun & Hc). rewrite Hd, Hds in Hrun. rewrite Hrun.
    exists (n :: new). split.
    + rewrite (propagate_yielded _ _ _ _ _ Hp).
      apply pop_next_Some in Hnext as (_ & _ & _ & ->). by rewrite <-app_assoc.
    + simpl. split; [by eapply lookup_weaken | done].
  - intros [= _ <-]. exists []. by rewrite app_nil_r.
Qed.
End link_loop_properties.

(** ** The graph assembler *)

Lemma bind_Ok {Σ A B : Type} (c : M Σ A) (k : A → M Σ B) σ b σ' :
  (c ≫= k) σ = (Ok b, σ') ↔ ∃ a σ1, c σ = (Ok a, σ1) ∧ k a σ1 = (Ok b, σ').
Proof.
  unfold mbind, M_bind. destruct (c σ) as [[a|e] σ1]; [|naive_solver].
  split; [eauto|]. by intros (? & ? & [= <- <-] & ?).
Qed.

Lemma bind_Raise {Σ A B : Type} (c : M Σ A) (k : A → M Σ B) σ e σ' :
  (c ≫= k) σ = (Raise e, σ') ↔
  c σ = (Raise e, σ') ∨ ∃ a σ1, c σ = (Ok a, σ1) ∧ k a σ1 = (Raise e, σ').
Proof.
  unfold mbind, M_bind. destruct (c σ) as [[a|e1] σ1]; [|naive_solver].
  split; [eauto|]. intros [[=]|(? & ? & [= <- <-] & ?)]. done.
Qed.

Lemma register_call_requirement_Ok id source present_time σ u σ' :
  register_call_requirement id source present_time σ = (Ok u, σ') →
  call_requirements σ' !! id = Some (mkCallRequirement source present_time) ∧
  call_requirements σ ⊆ call_requirements σ' ∧
  call_dependencies σ' = call_dependencies σ ∧
  call_dependents σ' = call_dependents σ ∧
  call_links σ' = call_links σ.
Proof.
  destruct u. unfold register_call_requirement. rewrite writing_Ok.
  destruct (repo_put id _ (call_requirements σ)) as [r|] eqn:Hput; [|done].
  intros [= <-]. simpl. apply repo_put_Ok in Hput as (? & ? & _). done.
Qed.

Lemma register_call_dependencies_Ok id deps σ u σ' :
  register_call_dependencies id deps σ = (Ok u, σ') →
  call_dependencies σ' !! id = Some deps ∧
  call_dependencies σ ⊆ call_dependencies σ' ∧
  (∀ k, k ≠ id → call_dependencies σ' !! k = call_dependencies σ !! k) ∧
  call_requirements σ' = call_requirements σ ∧
  call_dependents σ' = call_dependents σ ∧
  call_links σ' = call_links σ.
Proof.
  destruct u. unfold register_call_dependencies. rewrite writing_Ok.
  destruct (repo_put id _ (call_dependencies σ)) as [r|] eqn:Hput; [|done].
  intros [= <-]. simpl. apply repo_put_Ok in Hput as (? & ? & ?). done.
Qed.

Lemma register_call_dependents_Ok id dependents σ u σ' :
  register_call_dependents id dependents σ = (Ok u, σ') →
  call_dependents σ' !! id = Some dependents ∧
  call_dependents σ ⊆ call_dependents σ' ∧
  (∀ k, k ≠ id → call_dependents σ' !! k = call_dependents σ !! k) ∧
  call_requirements σ' = call_requirements σ ∧
  call_dependencies σ' = call_dependencies σ ∧
  call_links σ' = call_links σ.
Proof.
  destruct u. unfold register_call_dependents. rewrite writing_Ok.
  destruct (repo_put id _ (call_dependents σ)) as [r|] eqn:Hput; [|done].
  intros [= <-]. simpl. apply repo_put_Ok in Hput as (? & ? & ?). done.
Qed.

(** *** What the loop keeps track of *)

Lemma append_dependent_dependents id all_dependents d' d m :
  m ∈ dependents_of (append_dependent id all_dependents d') d ↔
  m ∈ dependents_of all_dependents d ∨ (m = id ∧ d = d').
Proof.
  unfold dependents_of, append_dependent. destruct (decide (d = d')) as [->|Hd].
  - rewrite lookup_insert_eq. simpl. rewrite elem_of_app, list_elem_of_singleton.
    naive_solver.
  - rewrite lookup_insert_ne by done. naive_solver.
Qed.

Lemma append_dependent_is_Some id all_dependents d' d :
  is_Some (append_dependent id all_dependents d' !! d) ↔
  is_Some (all_dependents !! d) ∨ d = d'.
Proof.
  unfold append_dependent. destruct (decide (d = d')) as [->|Hd].
  - rewrite lookup_insert_eq. split; [by right | by eauto].
  - rewrite lookup_insert_ne by done. naive_solver.
Qed.

Lemma foldl_append_dependent id ds all_dependents :
  (∀ d m, m ∈ dependents_of (foldl (append_dependent id) all_dependents ds) d ↔
          m ∈ dependents_of all_dependents d ∨ (m = id ∧ d ∈ ds)) ∧
  (∀ d, is_Some (foldl (append_dependent id) all_dependents ds !! d) ↔
        is_Some (all_dependents !! d) ∨ d ∈ ds).
Proof.
  revert all_dependents. induction ds as [|d' ds IH]; intros all_dependents; simpl.
  - split; intros d; [intros m|]; rewrite ?elem_of_nil; naive_solver.
  - destruct (IH (append_dependent id all_dependents d')) as [IH1 IH2].
    split; intros d; [intros m; rewrite IH1, append_dependent_dependents
                     |rewrite IH2, append_dependent_is_Some];
      rewrite elem_of_cons; naive_solver.
Qed.

(** What has been tracked once the stubs [seen] have gone by. *)
Record tracked (seen : list StubbedCall)
    (acc : list call_id * gmap call_id (list call_id)) : Prop := {
  tracked_dependents : ∀ d m,
    m ∈ dependents_of acc.2 d ↔
    ∃ stub, stub ∈ seen ∧ call_id_of stub = m ∧ d ∈ dependencies stub;
  tracked_keys : ∀ d,
    is_Some (acc.2 !! d) ↔ ∃ stub, stub ∈ seen ∧ d ∈ dependencies stub;
  tracked_leaves : ∀ l,
    l ∈ acc.1 ↔ ∃ stub, stub ∈ seen ∧ call_id_of stub = l ∧ dependencies stub = []
}.

Lemma tracked_nil : tracked [] ([], ∅).
Proof.
  split; simpl.
  - intros d m. unfold dependents_of. rewrite lookup_empty. simpl.
    rewrite elem_of_nil. split; [done|]. by intros (? & ?%elem_of_nil & _).
  - intros d. rewrite lookup_empty. split; [by intros [? ?]|].
    by intros (? & ?%elem_of_nil & _).
  - intros l. rewrite elem_of_nil. split; [done|]. by intros (? & ?%elem_of_nil & _).
Qed.

Lemma tracked_track seen stub acc :
  tracked seen acc → tracked (seen ++ [stub]) (track stub acc).
Proof.
  intros [HD HK HL]. destruct (foldl_append_dependent (call_id_of stub)
                                 (dependencies stub) acc.2) as [HF1 HF2].
  unfold track. case_decide as Hlen.
  - apply length_zero_iff_nil in Hlen. rewrite Hlen in HF1, HF2. simpl in *.
    split; simpl.
    + intros d m. rewrite HD. setoid_rewrite elem_of_app.
      setoid_rewrite list_elem_of_singleton. split; [naive_solver|].
      intros (s & [?| ->] & ? & Hd); [eauto|]. rewrite Hlen in Hd.
      by apply elem_of_nil in Hd.
    + intros d. rewrite HK. setoid_rewrite elem_of_app.
      setoid_rewrite list_elem_of_singleton. split; [naive_solver|].
      intros (s & [?| ->] & Hd); [eauto|]. rewrite Hlen in Hd.
      by apply elem_of_nil in Hd.
    + intros l. rewrite elem_of_app, list_elem_of_singleton, HL.
      setoid_rewrite elem_of_app. setoid_rewrite list_elem_of_singleton.
      naive_solver.
  - assert (dependencies stub ≠ []) as Hne.
    { intros Hnil. apply Hlen. by rewrite Hnil. }
    split; simpl.
    + intros d m. rewrite HF1, HD. setoid_rewrite elem_of_app.
      setoid_rewrite list_elem_of_singleton. naive_solver.
    + intros d. rewrite HF2, HK. setoid_rewrite elem_of_app.
      setoid_rewrite list_elem_of_singleton. naive_solver.
    + intros l. rewrite HL. setoid_rewrite elem_of_app.
      setoid_rewrite list_elem_of_singleton. naive_solver.
Qed.

Lemma tracked_foldl seen stubs acc :
  tracked seen acc → tracked (seen ++ stubs) (foldl (λ a stub, track stub a) acc stubs).
Proof.
  revert seen acc. induction stubs as [|stub stubs IH]; intros seen acc Hacc; simpl.
  - by rewrite app_nil_r.
  - rewrite cons_middle, app_assoc. apply IH. by apply tracked_track.
Qed.

Lemma register_stubs_Ok stubs acc σ acc' σ' :
  register_stubs stubs acc σ = (Ok acc', σ') →
  acc' = foldl (λ a stub, track stub a) acc stubs ∧
  call_dependents σ' = call_dependents σ ∧
  call_links σ' = call_links σ ∧
  call_dependencies σ ⊆ call_dependencies σ' ∧
  (∀ stub, stub ∈ stubs →
     call_dependencies σ' !! call_id_of stub = Some (dependencies stub)) ∧
  (∀ k, (∀ stub, stub ∈ stubs → call_id_of stub ≠ k) →
     call_dependencies σ' !! k = call_dependencies σ !! k).
Proof.
  revert acc σ. induction stubs as [|stub stubs IH]; intros acc σ; simpl.
  - intros [= <- <-]. split_and!; try done. by intros stub ?%elem_of_nil.
  - intros (u1 & σ1 & Hreq & (u2 & σ2 & Hdeps & Hrest)%bind_Ok)%bind_Ok.
    apply register_call_requirement_Ok in Hreq as (_ & _ & Hd1 & Hds1 & Hl1).
    apply register_call_dependencies_Ok in Hdeps as (Hid & Hsub & Hother & _ & Hds2 & Hl2).
    apply IH in Hrest as (-> & Hds3 & Hl3 & Hsub3 & Hin & Hout).
    rewrite Hd1 in Hsub, Hother.
    split_and!; [done | congruence | congruence | by etrans | |].
    + intros s [->|Hs]%elem_of_cons; [|by apply Hin].
      eapply lookup_weaken; [exact Hid | exact Hsub3].
    + intros k Hk. rewrite Hout, Hother; [done| |].
      * intros ->. by apply (Hk stub); [left|].
      * intros s Hs. apply Hk. by right.
Qed.

Lemma register_dependents_Ok (l : list (call_id * list call_id)) σ u σ' :
  for_eachM (λ kv, register_call_dependents kv.1 kv.2) l σ = (Ok u, σ') →
  call_dependents σ ⊆ call_dependents σ' ∧
  (∀ k v, (k, v) ∈ l → call_dependents σ' !! k = Some v) ∧
  (∀ k, (∀ v, (k, v) ∉ l) → call_dependents σ' !! k = call_dependents σ !! k) ∧
  call_dependencies σ' = call_dependencies σ ∧
  call_links σ' = call_links σ.
Proof.
  revert σ. induction l as [|[k0 v0] l IH]; intros σ; simpl.
  - intros [= _ <-]. split_and!; try done. by intros k v ?%elem_of_nil.
  - intros (u1 & σ1 & Hreg & Hrest)%bind_Ok. simpl in Hreg.
    apply register_call_dependents_Ok in Hreg as (Hk0 & Hsub & Hother & _ & Hd & Hl).
    apply IH in Hrest as (Hsub' & Hin & Hout & Hd' & Hl').
    split_and!; [by etrans | | |congruence..].
    + intros k v [[= -> ->]|Hkv]%elem_of_cons; [|by apply Hin].
      by eapply lookup_weaken.
    + intros k Hk. rewrite Hout, Hother; [done| |].
      * intros ->. apply (Hk v0). left.
      * intros v Hv. apply (Hk v). by right.
Qed.

(** What [assemble] leaves in the store when it returns. *)
Lemma assemble_Ok contract_specification_id stubs σ leaf_call_ids σ' :
  assemble contract_specification_id stubs σ = (Ok leaf_call_ids, σ') →
  ∃ acc, tracked stubs acc ∧ leaf_call_ids = acc.1 ∧
    (∀ k v, acc.2 !! k = Some v → call_dependents σ' !! k = Some v) ∧
    (∀ k, acc.2 !! k = None → k ≠ contract_specification_id →
          call_dependents σ' !! k = call_dependents σ !! k) ∧
    call_dependents σ' !! contract_specification_id = Some [] ∧
    call_links σ' = call_links σ ∧
    call_dependencies σ ⊆ call_dependencies σ' ∧
    (∀ stub, stub ∈ stubs →
       call_dependencies σ' !! call_id_of stub = Some (dependencies stub)) ∧
    (∀ k, (∀ stub, stub ∈ stubs → call_id_of stub ≠ k) →
       call_dependencies σ' !! k = call_dependencies σ !! k).
Proof.
  unfold assemble.
  intros (acc & σ1 & Hstubs & (u2 & σ2 & Hall & (u3 & σ3 & Hroot & Hret)%bind_Ok)%bind_Ok)%bind_Ok.
  injection Hret as <- <-.
  apply register_stubs_Ok in Hstubs as (Hacc & Hds1 & Hl1 & Hsub1 & Hin1 & Hout1).
  apply register_dependents_Ok in Hall as (Hsub2 & Hin2 & Hout2 & Hd2 & Hl2).
  apply register_call_dependents_Ok in Hroot as (Hspec & Hsub3 & Hother3 & _ & Hd3 & Hl3).
  exists acc. split_and!.
  - rewrite Hacc. apply (tracked_foldl [] stubs), tracked_nil.
  - done.
  - intros k v Hkv. eapply lookup_weaken; [|exact Hsub3].
    apply Hin2. by apply elem_of_map_to_list.
  - intros k Hk Hne. rewrite Hother3, Hout2, Hds1; [done| |done].
    intros v Hv%elem_of_map_to_list. congruence.
  - done.
  - congruence.
  - by rewrite Hd3, Hd2.
  - intros stub Hstub. rewrite Hd3, Hd2. by apply Hin1.
  - intros k Hk. rewrite Hd3, Hd2. by apply Hout1.
Qed.

Section assembled_graph.
Context {set_pop : SetPop}.

(** The link loop does not touch the dependents. *)
Lemma generate_dependency_graph_assembled fuel contract_specification_id stubs σ
    leaf_call_ids σ1 out σ' :
  assemble contract_specification_id stubs σ = (Ok leaf_call_ids, σ1) →
  generate_dependency_graph fuel contract_specification_id stubs σ = Some (out, σ') →
  register_call_links fuel (initial_state leaf_call_ids) contract_specification_id σ1
    = Some (out, σ') ∧
  call_dependents σ' = call_dependents σ1 ∧
  call_dependencies σ' = call_dependencies σ1.
Proof.
  unfold generate_dependency_graph. intros -> Hrun. split; [done|].
  by apply register_call_links_frame in Hrun as (_ & _ & ? & ?).
Qed.

Lemma generate_dependency_graph_Ok fuel contract_specification_id stubs σ u σ' :
  generate_dependency_graph fuel contract_specification_id stubs σ = Some (Ok u, σ') →
  ∃ leaf_call_ids σ1,
    assemble contract_specification_id stubs σ = (Ok leaf_call_ids, σ1).
Proof.
  unfold generate_dependency_graph.
  destruct (assemble _ _ σ) as [[leaf_call_ids|e] σ1]; [eauto|done].
Qed.
End assembled_graph.

(** The stubbed calls of the diamond, the root last; the id of the root
    call is the id of the contract specification. *)
Definition diamond_stubs : list StubbedCall :=
  [ mkStubbedCall "a" "1" None [];
    mkStubbedCall "b" "a + 1" (Some (Datetime 86400)) ["a"];
    mkStubbedCall "c" "a + b" None ["a"; "b"];
    mkStubbedCall "root" "c + b" None ["c"; "b"] ].

Example diamond_links :
  (λ run, (run.1, call_links run.2)) <$>
    generate_dependency_graph (set_pop := first_pop) 10 "root" diamond_stubs
      empty_graph_store
  = Some (Ok tt, {[ "root" := "a"; "a" := "b"; "b" := "c"; "c" := "root" ]}).
Proof. vm_compute. reflexivity. Qed.

(** C7: once [generate_dependency_graph] has consumed the stubbed calls and
    registered the dependents, and whatever becomes of the link loop after
    that: for every stubbed call [c] and every [d] in its dependencies, [c]
    is among the dependents registered for [d]; for an id that no stubbed
    call lists as a dependency and that is not the id of the contract
    specification, no dependents are registered (its entry is what it was
    before); the id of the contract specification has the empty list. *)
Theorem dependents_invert_dependencies {set_pop : SetPop} (fuel : nat)
    (contract_specification_id : call_id) (stubs : list StubbedCall)
    (σ σ1 σ' : graph_store) (leaf_call_ids : list call_id) (out : result unit) :
  assemble contract_specification_id stubs σ = (Ok leaf_call_ids, σ1) →
  generate_dependency_graph fuel contract_specification_id stubs σ = Some (out, σ') →
  (∀ stub d, stub ∈ stubs → d ∈ dependencies stub →
     ∃ dependents, call_dependents σ' !! d = Some dependents ∧
                   call_id_of stub ∈ dependents) ∧
  (∀ x, (∀ stub, stub ∈ stubs → x ∉ dependencies stub) →
        x ≠ contract_specification_id →
        call_dependents σ' !! x = call_dependents σ !! x) ∧
  call_dependents σ' !! contract_specification_id = Some [].
Proof.
  intros Hasm Hrun.
  destruct (generate_dependency_graph_assembled _ _ _ _ _ _ _ _ Hasm Hrun) as (_ & -> & _).
  apply assemble_Ok in Hasm
    as (acc & [HD HK HL] & _ & Hin & Hout & Hspec & _).
  split_and!; [| |done].
  - intros stub d Hstub Hd.
    assert (call_id_of stub ∈ dependents_of acc.2 d) as Hc by (apply HD; eauto).
    unfold dependents_of in Hc. destruct (acc.2 !! d) as [dependents|] eqn:Hacc;
      simpl in Hc; [|by apply elem_of_nil in Hc].
    exists dependents. split; [by apply Hin | done].
  - intros x Hx Hne. apply Hout; [|done].
    destruct (acc.2 !! x) as [v|] eqn:Hacc; [|done].
    destruct (proj1 (HK x)) as (stub & Hstub & Hd); [by eauto|]. by destruct (Hx stub).
Qed.

Lemma dependents_invert_dependencies_witness :
  ∃ σ1 σ' leaf_call_ids out,
    assemble "root" diamond_stubs empty_graph_store = (Ok leaf_call_ids, σ1) ∧
    generate_dependency_graph (set_pop := first_pop) 10 "root" diamond_stubs
      empty_graph_store = Some (out, σ') ∧
    (∀ stub d, stub ∈ diamond_stubs → d ∈ dependencies stub →
       ∃ dependents, call_dependents σ' !! d = Some dependents ∧
                     call_id_of stub ∈ dependents) ∧
    (∀ x, (∀ stub, stub ∈ diamond_stubs → x ∉ dependencies stub) → x ≠ "root" →
          call_dependents σ' !! x = call_dependents empty_graph_store !! x) ∧
    call_dependents σ' !! "root" = Some [].
Proof.
  eexists _, _, _, _.
  assert (assemble "root" diamond_stubs empty_graph_store = _) as H1
    by (vm_compute; reflexivity).
  assert (generate_dependency_graph (set_pop := first_pop) 10 "root" diamond_stubs
            empty_graph_store = _) as H2 by (vm_compute; reflexivity).
  split; [exact H1|]. split; [exact H2|].
  exact (dependents_invert_dependencies 10 "root" diamond_stubs empty_graph_store
           _ _ _ _ H1 H2).
Defined.

(** C8: when [generate_dependency_graph] returns, the links it has
    persisted chain the ids yielded by the scheduler: the link keyed by the
    id of the contract specification maps to the first id yielded, the link
    keyed by each yielded id maps to the id yielded next, and following the
    links from the id of the contract specification reads the execution
    order back. *)
Theorem links_chain_the_execution_order {set_pop : SetPop} (fuel : nat)
    (contract_specification_id : call_id) (stubs : list StubbedCall)
    (σ σ' : graph_store) :
  generate_dependency_graph fuel contract_specification_id stubs σ = Some (Ok tt, σ') →
  ∃ leaf_call_ids order,
    (assemble contract_specification_id stubs σ).1 = Ok leaf_call_ids ∧
    generate_execution_order (call_dependents σ') (call_dependencies σ') fuel
      leaf_call_ids = Finished order ∧
    (∀ first, head order = Some first →
              call_links σ' !! contract_specification_id = Some first) ∧
    (∀ i a b, order !! i = Some a → order !! S i = Some b →
              call_links σ' !! a = Some b) ∧
    follow_links (call_links σ') contract_specification_id (length order) = order.
Proof.
  intros Hrun.
  destruct (generate_dependency_graph_Ok _ _ _ _ _ _ Hrun) as (leaf_call_ids & σ1 & Hasm).
  destruct (generate_dependency_graph_assembled _ _ _ _ _ _ _ _ Hasm Hrun)
    as (Hloop & Hds & Hd).
  apply register_call_links_Ok in Hloop as (order & Hgen & Hchain). simpl in Hgen.
  exists leaf_call_ids, order. rewrite Hasm, Hds, Hd. split_and!; [done..| | |].
  - intros first. apply (chained_head _ _ _ _ Hchain).
  - intros i a b. apply (chained_successor _ _ _ _ _ _ Hchain).
  - by apply follow_links_chained.
Qed.

Lemma links_chain_the_execution_order_witness :
  ∃ σ' leaf_call_ids order,
    generate_dependency_graph (set_pop := first_pop) 10 "root" diamond_stubs
      empty_graph_store = Some (Ok tt, σ') ∧
    (assemble "root" diamond_stubs empty_graph_store).1 = Ok leaf_call_ids ∧
    generate_execution_order (set_pop := first_pop) (call_dependents σ')
      (call_dependencies σ') 10 leaf_call_ids = Finished order ∧
    (∀ first, head order = Some first → call_links σ' !! "root" = Some first) ∧
    (∀ i a b, order !! i = Some a → order !! S i = Some b →
              call_links σ' !! a = Some b) ∧
    follow_links (call_links σ') "root" (length order) = order.
Proof.
  eexists _.
  assert (generate_dependency_graph (set_pop := first_pop) 10 "root" diamond_stubs
            empty_graph_store = Some (Ok tt, _)) as H1 by (vm_compute; reflexivity).
  destruct (links_chain_the_execution_order 10 "root" diamond_stubs empty_graph_store
              _ H1) as (leaf_call_ids & order & H2).
  exists leaf_call_ids, order. split; [exact H1 | exact H2].
Defined.

(** ** What the assembler hands to the scheduler *)

Lemma dependencies_of_weaken (repo repo' : gmap call_id (list call_id)) m n :
  repo ⊆ repo' → n ∈ dependencies_of repo m → n ∈ dependencies_of repo' m.
Proof.
  unfold dependencies_of. intros Hsub.
  destruct (repo !! m) as [ds|] eqn:Hm; simpl; [|by intros ?%elem_of_nil].
  by rewrite (lookup_weaken _ _ _ _ Hm Hsub).
Qed.

(** The leaf ids are registered calls without dependencies, and, if the
    registries were sound before, they are sound after. *)
Lemma assemble_sound contract_specification_id stubs σ leaf_call_ids σ' :
  dependents_sound (call_dependents σ) (call_dependencies σ) →
  assemble contract_specification_id stubs σ = (Ok leaf_call_ids, σ') →
  Forall (λ l, call_dependencies σ' !! l = Some []) leaf_call_ids ∧
  dependents_sound (call_dependents σ') (call_dependencies σ').
Proof.
  intros Hsound (acc & [HD HK HL] & -> & Hin & Hout & Hspec & _ & Hsub & Hstubs & _)%assemble_Ok.
  split.
  - apply Forall_forall. intros l (stub & Hstub & <- & Hnil)%HL.
    rewrite <-Hnil. by apply Hstubs.
  - intros n ms Hn. apply Forall_forall. intros m Hm.
    destruct (acc.2 !! n) as [v|] eqn:Hacc.
    + rewrite (Hin n v Hacc) in Hn. injection Hn as <-.
      destruct (proj1 (HD n m)) as (stub & Hstub & <- & Hdep).
      { unfold dependents_of. by rewrite Hacc. }
      unfold dependencies_of. by rewrite (Hstubs stub Hstub).
    + destruct (decide (n = contract_specification_id)) as [->|Hne].
      * rewrite Hspec in Hn. injection Hn as <-. by apply elem_of_nil in Hm.
      * rewrite (Hout n Hacc Hne) in Hn.
        apply (dependencies_of_weaken (call_dependencies σ)); [done|].
        apply (proj1 (Forall_forall _ _) (Hsound n ms Hn) m Hm).
Qed.

Lemma registered_leaves_have_no_dependencies
    (dependencies_repo : gmap call_id (list call_id)) leaf_call_ids :
  Forall (λ l, dependencies_repo !! l = Some []) leaf_call_ids →
  leaves_have_no_dependencies dependencies_repo leaf_call_ids ∧
  universe dependencies_repo leaf_call_ids = dom dependencies_repo.
Proof.
  intros Hleaves. split.
  - eapply Forall_impl; [exact Hleaves|]. intros l Hl. unfold dependencies_of. by rewrite Hl.
  - unfold universe. apply set_eq. intros y. rewrite elem_of_union, elem_of_list_to_set.
    split; [|by right]. intros [Hy|Hy]; [|done].
    apply elem_of_dom. exists []. apply (proj1 (Forall_forall _ _) Hleaves y Hy).
Qed.

Section link_loop_termination.
Context {set_pop : SetPop}.
Variable call_dependents_repo : gmap call_id (list call_id).
Variable call_dependencies_repo : gmap call_id (list call_id).

(** The link loop ends when the generator does: with the same premises as
    for [execution_order_from_finishes], it returns, and the only exception
    it can return with is a refused link. *)
Lemma register_call_links_finishes (P : kahn_state → Prop)
    (Q : call_id → kahn_state → Prop) (bound : nat) :
  (∀ st n st1, P st → pop_next st = Some (n, st1) → Q n st1) →
  (∀ n st1 st2, Q n st1 →
     propagate call_dependents_repo call_dependencies_repo n st1 = Ok st2 → P st2) →
  (∀ n st1, Q n st1 →
     ∃ st2, propagate call_dependents_repo call_dependencies_repo n st1 = Ok st2) →
  (∀ st, P st → length (st_yielded st) ≤ bound) →
  ∀ fuel st link_id σ,
    call_dependents σ = call_dependents_repo →
    call_dependencies σ = call_dependencies_repo →
    P st → bound < fuel + length (st_yielded st) →
    ∃ out σ', register_call_links fuel st link_id σ = Some (out, σ') ∧
              (out = Ok tt ∨ ∃ k, out = Raise (DuplicateId k)).
Proof.
  intros Hpop Hprop Hok Hbound fuel.
  induction fuel as [|fuel IH]; intros st link_id σ Hds Hd HP Hfuel; simpl.
  - specialize (Hbound st HP). lia.
  - destruct (pop_next st) as [[n st1]|] eqn:Hnext;
      [|eexists _, _; split; [done | by left]].
    pose proof (Hpop _ _ _ HP Hnext) as HQ.
    destruct (register_call_link link_id n σ) as [[[]|e] σ1] eqn:Hreg.
    + apply register_call_link_Ok in Hreg as (_ & _ & _ & Hd1 & Hds1).
      rewrite Hd1, Hds1, Hd, Hds. destruct (Hok _ _ HQ) as [st2 Hp]. rewrite Hp.
      apply IH; [congruence | congruence | by eapply Hprop |].
      rewrite (propagate_yielded _ _ _ _ _ Hp).
      apply pop_next_Some in Hnext as (_ & _ & _ & ->). rewrite length_app. simpl. lia.
    + apply register_call_link_Raise in Hreg as [-> ->].
      eexists _, _. split; [done|]. right. by eexists.
Qed.
End link_loop_termination.

(** ** A graph with a cycle is truncated, and nothing says so *)

(** Two calls that need each other, beside a leaf; the root needs the leaf
    and one of the two. *)
Definition cyclic_stubs : list StubbedCall :=
  [ mkStubbedCall "a" "1" None [];
    mkStubbedCall "b" "c + 1" None ["c"];
    mkStubbedCall "c" "b + 1" None ["b"];
    mkStubbedCall "root" "a + b" None ["a"; "b"] ].

Definition cyclic_dependencies : gmap call_id (list call_id) :=
  {[ "a" := []; "b" := ["c"]; "c" := ["b"]; "root" := ["a"; "b"] ]}.

Lemma cyclic_dependencies_cycle : tc (depends_on cyclic_dependencies) "b" "b".
Proof.
  apply (tc_l _ _ "c"); [|apply tc_once]; unfold depends_on; vm_compute; left.
Qed.

(** The claim C3 fails on the code: for the stubbed calls above, whose
    dependencies have a cycle, [generate_dependency_graph] returns normally
    (no exception of any kind), and what it has persisted is the chain of
    the truncated order, the single link from the root id to [a]. *)
Lemma cyclic_graph_is_persisted_silently :
  tc (depends_on cyclic_dependencies) "b" "b" ∧
  (λ run, (run.1, call_dependencies run.2, call_links run.2)) <$>
    generate_dependency_graph (set_pop := first_pop) 10 "root" cyclic_stubs
      empty_graph_store
  = Some (Ok tt, cyclic_dependencies, {[ "root" := "a" ]}).
Proof. split; [apply cyclic_dependencies_cycle | vm_compute; reflexivity]. Qed.

(** C3, amended: if the dependencies that [generate_dependency_graph] has
    registered contain a cycle, then (the registries having been sound
    before) [generate_execution_order] terminates, whatever [S.pop()]
    picks, having yielded, each once, only a strict subset of the
    registered calls: no call on a cycle is yielded.
    [generate_dependency_graph] makes no check of this: it returns, the only
    exception it can return with is a link that the repository refuses, and
    when it returns normally the links persisted are those of the truncated
    order. *)
Theorem cyclic_graph_is_truncated_silently {set_pop : SetPop} (fuel : nat)
    (contract_specification_id : call_id) (stubs : list StubbedCall)
    (σ σ1 : graph_store) (leaf_call_ids : list call_id) (x : call_id) :
  dependents_sound (call_dependents σ) (call_dependencies σ) →
  assemble contract_specification_id stubs σ = (Ok leaf_call_ids, σ1) →
  tc (depends_on (call_dependencies σ1)) x x →
  size (dom (call_dependencies σ1)) < fuel →
  ∃ order,
    generate_execution_order (call_dependents σ1) (call_dependencies σ1) fuel
      leaf_call_ids = Finished order ∧
    NoDup order ∧
    (∀ c, c ∈ order → is_Some (call_dependencies σ1 !! c)) ∧
    is_Some (call_dependencies σ1 !! x) ∧ x ∉ order ∧
    ∃ out σ',
      generate_dependency_graph fuel contract_specification_id stubs σ = Some (out, σ') ∧
      (out = Ok tt ∨ ∃ k, out = Raise (DuplicateId k)) ∧
      (out = Ok tt →
       follow_links (call_links σ') contract_specification_id (length order) = order).
Proof.
  intros Hsound Hasm Hcycle Hfuel.
  destruct (assemble_sound _ _ _ _ _ Hsound Hasm) as [Hregistered Hsound1].
  destruct (registered_leaves_have_no_dependencies _ _ Hregistered) as [Hleaves Huniverse].
  destruct (sound_finishes (call_dependents σ1) (call_dependencies σ1) leaf_call_ids
              Hleaves Hsound1 fuel) as (st & Hst & Honce & _ & Hgen).
  { by rewrite Huniverse. }
  exists (st_yielded st). split_and!.
  - done.
  - apply (once_NoDup _ _ _ Honce).
  - intros c Hc. apply elem_of_dom. rewrite <-Huniverse.
    apply (once_universe _ _ _ Honce). by right.
  - apply elem_of_dom. by apply cycle_registered.
  - by apply (cycle_not_yielded (call_dependencies σ1)).
  - destruct (register_call_links_finishes (call_dependents σ1) (call_dependencies σ1)
                (λ s, scheduled (call_dependencies σ1) s ∧
                      once (call_dependencies σ1) leaf_call_ids s)
                (yielding (call_dependencies σ1) leaf_call_ids)
                (size (dom (call_dependencies σ1)))) with
      (fuel := fuel) (st := initial_state leaf_call_ids)
      (link_id := contract_specification_id) (σ := σ1) as (out & σ' & Hloop & Hout).
    + apply yielding_pop.
    + by apply yielding_propagate.
    + by apply yielding_propagate_Ok.
    + intros s [_ Hs]. rewrite <-Huniverse. by apply once_length.
    + done.
    + done.
    + split; [by apply scheduled_initial | apply once_initial].
    + simpl. lia.
    + exists out, σ'. unfold generate_dependency_graph. rewrite Hasm.
      split_and!; [done..|]. intros ->.
      apply register_call_links_Ok in Hloop as (new & Hnew & Hchain).
      unfold generate_execution_order in Hgen. rewrite Hgen in Hnew.
      injection Hnew as ->. by apply follow_links_chained.
Qed.

Definition cyclic_assembled : graph_store :=
  (assemble "root" cyclic_stubs empty_graph_store).2.

Lemma cyclic_assembled_dependencies :
  call_dependencies cyclic_assembled = cyclic_dependencies.
Proof. vm_compute. reflexivity. Qed.

Lemma cyclic_graph_is_truncated_silently_witness :
  ∃ order,
    generate_execution_order (set_pop := first_pop) (call_dependents cyclic_assembled)
      (call_dependencies cyclic_assembled) 10 ["a"] = Finished order ∧
    NoDup order ∧
    (∀ c, c ∈ order → is_Some (call_dependencies cyclic_assembled !! c)) ∧
    is_Some (call_dependencies cyclic_assembled !! "b") ∧ "b" ∉ order ∧
    ∃ out σ',
      generate_dependency_graph (set_pop := first_pop) 10 "root" cyclic_stubs
        empty_graph_store = Some (out, σ') ∧
      (out = Ok tt ∨ ∃ k, out = Raise (DuplicateId k)) ∧
      (out = Ok tt → follow_links (call_links σ') "root" (length order) = order).
Proof.
  assert (dependents_sound (call_dependents empty_graph_store)
            (call_dependencies empty_graph_store)) as H0
    by (apply (bool_decide_unpack _); vm_compute; exact I).
  assert (assemble "root" cyclic_stubs empty_graph_store = (Ok ["a"], cyclic_assembled))
    as H1 by (vm_compute; reflexivity).
  assert (tc (depends_on (call_dependencies cyclic_assembled)) "b" "b") as H2
    by (rewrite cyclic_assembled_dependencies; exact cyclic_dependencies_cycle).
  assert (size (dom (call_dependencies cyclic_assembled)) < 10) as H3
    by (vm_compute; lia).
  exact (cyclic_graph_is_truncated_silently (set_pop := first_pop) 10 "root"
           cyclic_stubs empty_graph_store cyclic_assembled ["a"] "b" H0 H1 H2 H3).
Defined.

(** ** The chain that a valuation replays *)

(** The ids read by following the links from [a] up to the first link that
    maps to [g]. *)
Inductive path (links : gmap call_id call_id) (g : call_id)
    : call_id → list call_id → Prop :=
  | path_end a : links !! a = Some g → path links g a [g]
  | path_step a b l :
      links !! a = Some b → b ≠ g → path links g b l → path links g a (b :: l).

Lemma path_unique links g a l1 l2 : path links g a l1 → path links g a l2 → l1 = l2.
Proof.
  intros H1. revert l2. induction H1 as [a Ha|a b l Ha Hb _ IH]; intros l2 H2.
  - inversion H2; subst; [done | congruence].
  - inversion H2 as [|a' b' l' Ha' Hb' Hl']; subst; [congruence|].
    assert (b' = b) as -> by congruence. f_equal. by apply IH.
Qed.

Lemma path_suffix links g a l b :
  path links g a l → b ∈ l → b ≠ g →
  ∃ l', path links g b l' ∧ length l' < length l.
Proof.
  intros Hl. induction Hl as [a Ha|a c l Ha Hc Hl IH]; intros Hb Hne.
  - by apply list_elem_of_singleton in Hb.
  - apply elem_of_cons in Hb as [->|Hb].
    + exists l. split; [done | simpl; lia].
    + destruct (IH Hb Hne) as (l' & Hl' & Hlen). exists l'. split; [done | simpl; lia].
Qed.

(** A chain that ends is read without meeting the same id twice. *)
Lemma path_NoDup links g a l : path links g a l → NoDup l.
Proof.
  intros Hl. induction Hl as [a Ha|a b l Ha Hb Hl IH].
  - apply NoDup_singleton.
  - constructor; [|done]. intros Hin.
    destruct (path_suffix _ _ _ _ _ Hl Hin Hb) as (l' & Hl' & Hlen).
    rewrite (path_unique _ _ _ _ _ Hl Hl') in Hlen. lia.
Qed.

Lemma path_last links g a l : path links g a l → last l = Some g.
Proof.
  intros Hl. induction Hl as [a Ha|a b l Ha Hb Hl IH]; [done|].
  rewrite last_cons, IH. done.
Qed.

Lemma regenerate_execution_order_from_path fuel links g link_id yielded order :
  regenerate_execution_order_from fuel links g link_id yielded = Finished order →
  ∃ new, order = yielded ++ new ∧ path links g link_id new.
Proof.
  revert link_id yielded. induction fuel as [|fuel IH]; intros link_id yielded; simpl; [done|].
  destruct (repo_get links link_id) as [id|e] eqn:Hget; [|done].
  apply repo_get_Ok in Hget. case_decide as Hid.
  - intros [= <-]. subst id. exists [g]. split; [done | by constructor].
  - intros (new & -> & Hnew)%IH. exists (id :: new).
    split; [by rewrite <-app_assoc | by constructor].
Qed.

Lemma path_regenerate_execution_order_from links g link_id new :
  path links g link_id new →
  ∀ fuel yielded, length new ≤ fuel →
    regenerate_execution_order_from fuel links g link_id yielded = Finished (yielded ++ new).
Proof.
  intros Hnew. induction Hnew as [a Ha|a b l Ha Hb Hl IH]; intros fuel yielded Hfuel;
    (destruct fuel as [|fuel]; simpl in *; [lia|]); unfold repo_get; rewrite Ha.
  - by rewrite decide_True.
  - rewrite decide_False by done. rewrite IH by lia. by rewrite <-app_assoc.
Qed.

(** ** The dependency values of a call *)

(** The loop of [get_dependency_values] over the dependencies, from a
    dictionary [acc]. *)
Definition collect {V : Type} (result_repo : gmap call_id V)
    (acc : gmap call_id V) (ds : list call_id) : result (gmap call_id V) :=
  for_each (λ dependency_values stub_id,
              match repo_get result_repo stub_id with
              | Raise e => Raise e
              | Ok stub_result => Ok (<[stub_id := stub_result]> dependency_values)
              end)
    acc ds.

Lemma get_dependency_values_collect {V : Type} (id : call_id)
    (dependencies_repo : gmap call_id (list call_id)) (result_repo : gmap call_id V) :
  get_dependency_values id dependencies_repo result_repo =
  match dependencies_repo !! id with
  | None => Raise (KeyError id)
  | Some ds => collect result_repo ∅ ds
  end.
Proof.
  unfold get_dependency_values, repo_get at 1. by destruct (dependencies_repo !! id).
Qed.

(** When the loop completes, every dependency had a result, and the
    dictionary holds, under each dependency, its result. *)
Lemma collect_Ok {V : Type} (result_repo : gmap call_id V) ds acc m :
  collect result_repo acc ds = Ok m →
  (∀ d, d ∈ ds → is_Some (result_repo !! d)) ∧
  ∀ k, m !! k = if decide (k ∈ ds) then result_repo !! k else acc !! k.
Proof.
  unfold collect. revert acc. induction ds as [|d ds IH]; intros acc; cbn [for_each].
  - intros [= <-]. split; [by intros d ?%elem_of_nil|].
    intros k. rewrite decide_False; [done | apply not_elem_of_nil].
  - unfold repo_get at 1. destruct (result_repo !! d) as [v|] eqn:Hd; [|done].
    intros [Hall Hm]%IH. split.
    + intros d' [->|Hd']%elem_of_cons; [by eexists | by apply Hall].
    + intros k. rewrite Hm. destruct (decide (k ∈ ds)) as [Hk|Hk].
      * rewrite decide_True; [done | by right].
      * destruct (decide (k = d)) as [->|Hne].
        -- rewrite decide_True by left. by rewrite lookup_insert_eq.
        -- rewrite lookup_insert_ne by done. rewrite decide_False; [done|].
           by intros [?|?]%elem_of_cons.
Qed.

Lemma collect_total {V : Type} (result_repo : gmap call_id V) ds acc :
  (∀ d, d ∈ ds → is_Some (result_repo !! d)) →
  ∃ m, collect result_repo acc ds = Ok m.
Proof.
  unfold collect. revert acc. induction ds as [|d ds IH]; intros acc Hall; simpl.
  - by eexists.
  - destruct (Hall d) as [v Hv]; [left|]. unfold repo_get at 1. rewrite Hv.
    apply IH. intros d' Hd'. apply Hall. by right.
Qed.

(** The loop raises exactly for the first dependency without a result. *)
Lemma collect_Raise {V : Type} (result_repo : gmap call_id V) ds acc e :
  collect result_repo acc ds = Raise e ↔
  ∃ i d, ds !! i = Some d ∧ result_repo !! d = None ∧ e = KeyError d ∧
         ∀ j d', j < i → ds !! j = Some d' → is_Some (result_repo !! d').
Proof.
  unfold collect. revert acc. induction ds as [|d ds IH]; intros acc; simpl.
  - split; [done|]. by intros (i & d & ? & _).
  - unfold repo_get at 1. destruct (result_repo !! d) as [v|] eqn:Hd.
    + rewrite IH. split.
      * intros (i & d' & Hi & Hnone & -> & Hbefore). exists (S i), d'.
        split_and!; [done..|]. intros [|j] d'' Hj; simpl; [by intros [= <-]; eexists|].
        apply Hbefore. lia.
      * intros ([|i] & d' & Hi & Hnone & -> & Hbefore); simpl in Hi.
        { injection Hi as <-. congruence. }
        exists i, d'. split_and!; [done..|]. intros j d'' Hj Hjd.
        apply (Hbefore (S j)); [lia | done].
    + split.
      * intros [= <-]. exists 0, d. split_and!; [done..|]. intros j d' Hj. lia.
      * intros ([|i] & d' & Hi & Hnone & -> & Hbefore); simpl in Hi.
        { by injection Hi as <-. }
        destruct (Hbefore 0 d) as [v Hv]; [lia | done | congruence].
Qed.

(** X7: [get_dependency_values] returns a dictionary exactly when the call
    has registered dependencies and each of them has a result; the
    dictionary then holds the result of each dependency under its id, and
    nothing else. *)
Theorem dependency_values_are_the_results_of_the_dependencies {V : Type}
    (id : call_id) (dependencies_repo : gmap call_id (list call_id))
    (result_repo : gmap call_id V) (dependency_values : gmap call_id V) :
  get_dependency_values id dependencies_repo result_repo = Ok dependency_values ↔
  ∃ ds, dependencies_repo !! id = Some ds ∧
        (∀ d, d ∈ ds → is_Some (result_repo !! d)) ∧
        ∀ k, dependency_values !! k = if decide (k ∈ ds) then result_repo !! k else None.
Proof.
  rewrite get_dependency_values_collect.
  destruct (dependencies_repo !! id) as [ds|]; [|split; [done | by intros (? & ? & _)]].
  split.
  - intros [Hall Hm]%collect_Ok. exists ds. split_and!; [done..|].
    intros k. rewrite Hm. by rewrite lookup_empty.
  - intros (ds' & [= <-] & Hall & Hm).
    destruct (collect_total result_repo ds ∅ Hall) as [m Hrun]. rewrite Hrun. f_equal.
    apply collect_Ok in Hrun as [_ Hm']. apply map_eq. intros k.
    rewrite Hm, Hm'. by rewrite lookup_empty.
Qed.

(** X8: [get_dependency_values] raises in two cases only: the [KeyError]
    of the call id itself when no dependencies are registered for the call,
    and the [KeyError] of the first dependency, in the order of the
    registered list, that has no result. *)
Theorem missing_dependency_values_raise_key_error {V : Type}
    (id : call_id) (dependencies_repo : gmap call_id (list call_id))
    (result_repo : gmap call_id V) (e : error) :
  get_dependency_values id dependencies_repo result_repo = Raise e ↔
  (dependencies_repo !! id = None ∧ e = KeyError id) ∨
  ∃ ds i d, dependencies_repo !! id = Some ds ∧ ds !! i = Some d ∧
            result_repo !! d = None ∧ e = KeyError d ∧
            ∀ j d', j < i → ds !! j = Some d' → is_Some (result_repo !! d').
Proof.
  rewrite get_dependency_values_collect.
  destruct (dependencies_repo !! id) as [ds|].
  - rewrite collect_Raise. split.
    + intros (i & d & ?). right. by exists ds, i, d.
    + intros [[[=] _]|(ds' & i & d & [= <-] & ?)]. by exists i, d.
  - split.
    + intros [= <-]. by left.
    + intros [[_ ->]|(? & ? & ? & [=] & _)]. done.
Qed.

(** ** The evaluator *)

Section evaluator_properties.
Context {value rate dsl_module dsl_expression price_repo : Type}.
Context `{!EqDecision value}.
Variable dsl_parse : string → result dsl_module.
Variable reduce : dsl_module → gmap call_id value → result dsl_expression.
Variable evaluate :
  dsl_expression → evaluation_kwds (rate := rate) (price_repo := price_repo) → result value.
Variable simulated_price_repo : price_repo.
Variable graph : graph_store.

Local Abbreviation make_evaluation_kwds := (make_evaluation_kwds simulated_price_repo).
Local Abbreviation evaluate_call :=
  (evaluate_call dsl_parse reduce evaluate simulated_price_repo graph).
Local Abbreviation valuation_loop :=
  (valuation_loop dsl_parse reduce evaluate simulated_price_repo graph).
Local Abbreviation generate_contract_valuation :=
  (generate_contract_valuation dsl_parse reduce evaluate simulated_price_repo graph).

(** The guard on [market_names] makes the index safe: the first market
    name is the head of the list, [None] for an empty list. *)
Lemma first_market_name_of_head (market_simulation : MarketSimulation (rate := rate)) :
  first_market_name_of market_simulation = Ok (head (market_names market_simulation)).
Proof. unfold first_market_name_of. by destruct (market_names market_simulation). Qed.

(** The dictionary that a call is evaluated with. *)
Definition kwds_of (market_simulation : MarketSimulation (rate := rate))
    (call : CallRequirement) : evaluation_kwds (rate := rate) (price_repo := price_repo) :=
  make_evaluation_kwds call market_simulation (head (market_names market_simulation)).

(** The store after [dsl_expr.evaluate] has been called for [id]. *)
Definition evaluated (market_simulation : MarketSimulation (rate := rate))
    (id : call_id) (call : CallRequirement)
    (σ : valuation_store (value := value) (rate := rate) (price_repo := price_repo))
    : valuation_store :=
  {| call_results := call_results σ;
     contract_valuations := contract_valuations σ;
     evaluations := evaluations σ ++ [(id, kwds_of market_simulation call)] |}.

(** One round of the loop, step by step. *)
Lemma evaluate_call_unfold market_simulation id σ :
  evaluate_call market_simulation id σ =
  match call_requirements graph !! id with
  | None => (Raise (KeyError id), σ)
  | Some call =>
      match get_dependency_values id (call_dependencies graph) (call_results σ) with
      | Raise e => (Raise e, σ)
      | Ok dependency_values =>
          match dsl_parse (cr_dsl_source call) with
          | Raise e => (Raise e, σ)
          | Ok stubbed_module =>
              match reduce stubbed_module dependency_values with
              | Raise e => (Raise e, σ)
              | Ok dsl_expr =>
                  match evaluate dsl_expr (kwds_of market_simulation call) with
                  | Raise e => (Raise e, evaluated market_simulation id call σ)
                  | Ok result_value =>
                      register_call_result id result_value
                        (evaluated market_simulation id call σ)
                  end
              end
          end
      end
  end.
Proof.
  unfold evaluate_call, mbind, M_bind, reading, call_evaluate, repo_get at 1.
  destruct (call_requirements graph !! id) as [call|]; [|done].
  destruct (get_dependency_values _ _ _) as [dependency_values|]; [|done].
  destruct (dsl_parse _) as [stubbed_module|]; [|done].
  destruct (reduce _ _) as [dsl_expr|]; [|done].
  rewrite first_market_name_of_head. done.
Qed.

Lemma register_call_result_Ok id (result_value : value)
    (σ : valuation_store (value := value) (rate := rate) (price_repo := price_repo)) u σ' :
  register_call_result id result_value σ = (Ok u, σ') →
  call_results σ' !! id = Some result_value ∧
  call_results σ ⊆ call_results σ' ∧
  (∀ k, k ≠ id → call_results σ' !! k = call_results σ !! k) ∧
  contract_valuations σ' = contract_valuations σ ∧
  evaluations σ' = evaluations σ.
Proof.
  destruct u. unfold register_call_result. rewrite writing_Ok.
  destruct (repo_put id result_value (call_results σ)) as [r|] eqn:Hput; [|done].
  intros [= <-]. simpl. by apply repo_put_Ok in Hput as (? & ? & ?).
Qed.

Lemma register_call_result_Raise id (result_value : value)
    (σ : valuation_store (value := value) (rate := rate) (price_repo := price_repo)) e σ' :
  register_call_result id result_value σ = (Raise e, σ') →
  σ' = σ ∧ e = DuplicateId id ∧
  ∃ v, call_results σ !! id = Some v ∧ v ≠ result_value.
Proof.
  unfold register_call_result. rewrite writing_Raise.
  destruct (repo_put id result_value (call_results σ)) as [r|] eqn:Hput; [by intros [? _]|].
  intros [[= <-] ->]. by apply repo_put_Raise in Hput as [-> ?].
Qed.

(** One round of the loop either raises before [dsl_expr.evaluate] is
    called, and then nothing is written, or calls it with the dictionary
    built for the call; a result is written only when the round completes,
    and only under the id of the call. *)
Lemma evaluate_call_cases market_simulation id σ out σ' :
  evaluate_call market_simulation id σ = (out, σ') →
  (∃ e, out = Raise e ∧ σ' = σ) ∨
  (∃ call,
     call_requirements graph !! id = Some call ∧
     evaluations σ' = evaluations σ ++ [(id, kwds_of market_simulation call)] ∧
     contract_valuations σ' = contract_valuations σ ∧
     call_results σ ⊆ call_results σ' ∧
     (∀ k, k ≠ id → call_results σ' !! k = call_results σ !! k) ∧
     (out = Ok tt → is_Some (call_results σ' !! id)) ∧
     (∀ e, out = Raise e → call_results σ' = call_results σ)).
Proof.
  rewrite evaluate_call_unfold.
  destruct (call_requirements graph !! id) as [call|]; [|intros [= <- <-]; eauto].
  destruct (get_dependency_values _ _ _) as [dependency_values|];
    [|intros [= <- <-]; eauto].
  destruct (dsl_parse _) as [stubbed_module|]; [|intros [= <- <-]; eauto].
  destruct (reduce _ _) as [dsl_expr|]; [|intros [= <- <-]; eauto].
  destruct (evaluate _ _) as [result_value|e].
  - destruct out as [[]|e]; intros Hreg; right; exists call.
    + apply register_call_result_Ok in Hreg as (Hid & Hsub & Hother & Hcv & Hev).
      rewrite Hev, Hcv. split_and!; try done; by eexists.
    + apply register_call_result_Raise in Hreg as (-> & _). by split_and!.
  - intros [= <- <-]. right. exists call. by split_and!.
Qed.

(** What a call is evaluated with. *)
Definition evaluated_with (market_simulation : MarketSimulation (rate := rate))
    (entry : call_id * evaluation_kwds (rate := rate) (price_repo := price_repo)) : Prop :=
  ∃ call, call_requirements graph !! entry.1 = Some call ∧
          entry.2 = kwds_of market_simulation call.

(** However the loop ends, each call of [dsl_expr.evaluate] it has made
    was made with the dictionary built for the call. *)
Lemma valuation_loop_evaluations fuel market_simulation g link_id σ out σ' :
  valuation_loop fuel market_simulation g link_id σ = Some (out, σ') →
  contract_valuations σ' = contract_valuations σ ∧
  call_results σ ⊆ call_results σ' ∧
  ∃ entries, evaluations σ' = evaluations σ ++ entries ∧
             Forall (evaluated_with market_simulation) entries.
Proof.
  revert link_id σ. induction fuel as [|fuel IH]; intros link_id σ; simpl; [done|].
  destruct (repo_get (call_links graph) link_id) as [id|e] eqn:Hlink.
  - destruct (evaluate_call market_simulation id σ) as [[u|e] σ1] eqn:Hbody.
    + destruct (evaluate_call_cases _ _ _ _ _ Hbody)
        as [(e & [=] & _)|(call & Hcall & Hev & Hcv & Hres & _)].
      assert (evaluated_with market_simulation (id, kwds_of market_simulation call))
        as Hentry by (by exists call).
      case_decide.
      * intros [= <- <-]. split_and!; [done..|]. eexists. split; [exact Hev|].
        by apply Forall_singleton.
      * intros (Hcv' & Hres' & entries & Hev' & Hall)%IH.
        split_and!; [congruence | by etrans |].
        exists ((id, kwds_of market_simulation call) :: entries).
        split; [|by constructor]. rewrite Hev', Hev, <-app_assoc. done.
    + intros [= <- <-].
      destruct (evaluate_call_cases _ _ _ _ _ Hbody)
        as [(e' & _ & ->)|(call & Hcall & Hev & Hcv & Hres & _)].
      * split_and!; [done..|]. exists []. by rewrite app_nil_r.
      * split_and!; [done..|]. eexists. split; [exact Hev|].
        apply Forall_singleton. by exists call.
  - intros [= <- <-]. split_and!; [done..|]. exists []. by rewrite app_nil_r.
Qed.

(** When the loop returns, it has read the chain up to the root, each id
    on it has been evaluated, in that order, and has a result. *)
Lemma valuation_loop_Ok fuel market_simulation g link_id σ u σ' :
  valuation_loop fuel market_simulation g link_id σ = Some (Ok u, σ') →
  ∃ new entries,
    path (call_links graph) g link_id new ∧ length new ≤ fuel ∧
    evaluations σ' = evaluations σ ++ entries ∧ entries.*1 = new ∧
    ∀ c, c ∈ new → is_Some (call_results σ' !! c).
Proof.
  destruct u. revert link_id σ.
  induction fuel as [|fuel IH]; intros link_id σ; simpl; [done|].
  destruct (repo_get (call_links graph) link_id) as [id|e] eqn:Hlink; [|done].
  apply repo_get_Ok in Hlink.
  destruct (evaluate_call market_simulation id σ) as [[[]|e] σ1] eqn:Hbody; [|done].
  destruct (evaluate_call_cases _ _ _ _ _ Hbody)
    as [(e & [=] & _)|(call & Hcall & Hev & Hcv & Hres & _ & Hid & _)].
  specialize (Hid eq_refl). case_decide as Hg.
  - intros [= ->]. subst id. eexists [g], [_].
    split_and!; [by constructor | simpl; lia | exact Hev | done |].
    by intros c ->%list_elem_of_singleton.
  - intros Hrun.
    destruct (valuation_loop_evaluations _ _ _ _ _ _ _ Hrun) as (_ & Hsub & _).
    apply IH in Hrun as (new & entries & Hpath & Hlen & Hev' & Hids & Hres').
    eexists (id :: new), (_ :: entries). split_and!.
    + by constructor.
    + simpl. lia.
    + rewrite Hev', Hev, <-app_assoc. done.
    + by rewrite fmap_cons, Hids.
    + intros c [->|Hc]%elem_of_cons; [|by apply Hres'].
      destruct Hid as [v Hv]. exists v. by eapply lookup_weaken.
Qed.

(** When the loop ends with an exception: the store [σ1] in which the
    failing step began holds the results of the calls evaluated before it,
    those of [evaluated_ids] on the chain of links, and the failing step,
    the read of the next link or the round for the call it leads to, has
    added no result. *)
Lemma valuation_loop_Raise fuel market_simulation g link_id σ e σ' :
  valuation_loop fuel market_simulation g link_id σ = Some (Raise e, σ') →
  ∃ evaluated_ids σ1,
    chained (call_links graph) link_id evaluated_ids ∧
    (evaluations σ1).*1 = (evaluations σ).*1 ++ evaluated_ids ∧
    (∀ c, c ∈ evaluated_ids → is_Some (call_results σ1 !! c)) ∧
    (∀ k, k ∉ evaluated_ids → call_results σ1 !! k = call_results σ !! k) ∧
    call_results σ' = call_results σ1 ∧
    ((call_links graph !! default link_id (last evaluated_ids) = None ∧
      e = KeyError (default link_id (last evaluated_ids)) ∧ σ' = σ1) ∨
     (∃ failing,
        call_links graph !! default link_id (last evaluated_ids) = Some failing ∧
        evaluate_call market_simulation failing σ1 = (Raise e, σ'))).
Proof.
  revert link_id σ. induction fuel as [|fuel IH]; intros link_id σ; simpl; [done|].
  destruct (repo_get (call_links graph) link_id) as [id|e0] eqn:Hlink.
  - apply repo_get_Ok in Hlink.
    destruct (evaluate_call market_simulation id σ) as [[[]|e0] σa] eqn:Hbody.
    + destruct (evaluate_call_cases _ _ _ _ _ Hbody)
        as [(e1 & [=] & _)|(call & _ & Hev & _ & Hsub & Hother & Hid & _)].
      specialize (Hid eq_refl). case_decide as Hg; [done|]. intros Hrun.
      apply IH in Hrun as (ids & σ1 & Hchain & Hev1 & Hdone & Hrest & Hres & Hfail).
      exists (id :: ids), σ1.
      assert (default link_id (last (id :: ids)) = default id (last ids)) as ->
        by (rewrite last_cons; by destruct (last ids)).
      split_and!; [done | | | | done | done].
      * rewrite Hev1, Hev, fmap_app. simpl. by rewrite <-app_assoc.
      * intros c [->|Hc]%elem_of_cons; [|by apply Hdone].
        destruct (decide (id ∈ ids)) as [Hc|Hc]; [by apply Hdone|]. by rewrite Hrest.
      * intros k Hk. rewrite Hrest, Hother; [done| |].
        -- intros ->. apply Hk. left.
        -- intros ?. apply Hk. by right.
    + intros [= <- <-]. exists [], σ. simpl.
      split_and!; [done | by rewrite app_nil_r | by intros c ?%elem_of_nil | done | |].
      * destruct (evaluate_call_cases _ _ _ _ _ Hbody)
          as [(e1 & _ & ->)|(call & _ & _ & _ & _ & _ & _ & Hres)]; [done|].
        by rewrite (Hres e0).
      * right. by exists id.
  - apply repo_get_Raise in Hlink as [Hnone ->]. intros [= <- <-]. exists [], σ. simpl.
    split_and!; [done | by rewrite app_nil_r | by intros c ?%elem_of_nil | done | done |].
    by left.
Qed.

(** The valuation is registered before the loop, whatever becomes of it. *)
Lemma generate_contract_valuation_loop fuel g market_simulation σ :
  generate_contract_valuation fuel g market_simulation σ =
  valuation_loop fuel market_simulation g g
    {| call_results := call_results σ;
       contract_valuations := contract_valuations σ ++ [g];
       evaluations := evaluations σ |}.
Proof. done. Qed.

(** *** What [dsl_expr.evaluate] is called with *)

(** X1: when [generate_contract_valuation] returns or ends with an
    exception, every call of [dsl_expr.evaluate] it has made was for a
    registered call requirement and had, as [present_time], the
    [effective_present_time] of
    that requirement when it is not [None], and the [observation_date] of
    the market simulation when it is. *)
Theorem present_time_defaults_to_the_observation_date
    fuel g market_simulation σ out σ' :
  generate_contract_valuation fuel g market_simulation σ = Some (out, σ') →
  ∃ entries, evaluations σ' = evaluations σ ++ entries ∧
    ∀ id kwds, (id, kwds) ∈ entries →
      ∃ call, call_requirements graph !! id = Some call ∧
        kw_present_time kwds =
          match cr_effective_present_time call with
          | Some t => t
          | None => observation_date market_simulation
          end.
Proof.
  rewrite generate_contract_valuation_loop.
  intros (_ & _ & entries & Hev & Hall)%valuation_loop_evaluations.
  exists entries. split; [done|]. intros id kwds Hin.
  destruct (proj1 (Forall_forall _ _) Hall _ Hin) as (call & Hcall & Hkw).
  simpl in Hcall, Hkw. exists call. split; [done|]. rewrite Hkw. simpl.
  unfold py_or, truthy_datetime. by destruct (cr_effective_present_time call).
Qed.

(** X2: whatever the outcome of [generate_contract_valuation], every call
    of [dsl_expr.evaluate] it has made had, as [first_market_name], the
    first of the market names of the simulation, [None] when the simulation
    has no market names (no [IndexError] comes of the empty list), and the
    simulation's id and interest rate and the application's simulated-price
    repository as the other arguments. *)
Theorem every_call_is_evaluated_with_the_simulation
    fuel g market_simulation σ out σ' :
  generate_contract_valuation fuel g market_simulation σ = Some (out, σ') →
  ∃ entries, evaluations σ' = evaluations σ ++ entries ∧
    ∀ id kwds, (id, kwds) ∈ entries →
      kw_first_market_name kwds = head (market_names market_simulation) ∧
      kw_simulation_id kwds = simulation_id market_simulation ∧
      kw_interest_rate kwds = interest_rate market_simulation ∧
      kw_simulated_price_repo kwds = simulated_price_repo.
Proof.
  rewrite generate_contract_valuation_loop.
  intros (_ & _ & entries & Hev & Hall)%valuation_loop_evaluations.
  exists entries. split; [done|]. intros id kwds Hin.
  destruct (proj1 (Forall_forall _ _) Hall _ Hin) as (call & _ & Hkw).
  simpl in Hkw. by rewrite Hkw.
Qed.

(** *** Failures *)

(** X3: when the link read by the loop of [generate_contract_valuation]
    leads to a registered call one of whose dependencies has no result,
    the [KeyError] of such a dependency leaves [get_dependency_values], the
    loop body and the loop; [dsl_expr.evaluate] is not called and nothing
    is written. *)
Theorem missing_dependency_result_stops_the_valuation
    fuel g market_simulation link_id id call ds σ :
  call_links graph !! link_id = Some id →
  call_requirements graph !! id = Some call →
  call_dependencies graph !! id = Some ds →
  (∃ d, d ∈ ds ∧ call_results σ !! d = None) →
  ∃ d, d ∈ ds ∧ call_results σ !! d = None ∧
    get_dependency_values id (call_dependencies graph) (call_results σ)
      = Raise (KeyError d) ∧
    evaluate_call market_simulation id σ = (Raise (KeyError d), σ) ∧
    valuation_loop (S fuel) market_simulation g link_id σ
      = Some (Raise (KeyError d), σ).
Proof.
  intros Hlink Hcall Hds (d0 & Hd0 & Hnone0).
  assert (∃ d, d ∈ ds ∧ call_results σ !! d = None ∧
               get_dependency_values id (call_dependencies graph) (call_results σ)
                 = Raise (KeyError d)) as (d & Hd & Hnone & Hget).
  { rewrite get_dependency_values_collect, Hds.
    destruct (collect (call_results σ) ∅ ds) as [m|e] eqn:Hrun.
    - apply collect_Ok in Hrun as [Hall _]. destruct (Hall d0 Hd0) as [v Hv]. congruence.
    - apply collect_Raise in Hrun as (i & d & Hi & Hnone & -> & _).
      exists d. split_and!; [by eapply list_elem_of_lookup_2 | done..]. }
  assert (evaluate_call market_simulation id σ = (Raise (KeyError d), σ)) as Hbody.
  { by rewrite evaluate_call_unfold, Hcall, Hget. }
  exists d. split_and!; [done..|].
  simpl. unfold repo_get at 1. by rewrite Hlink, Hbody.
Qed.

(** X4: when [generate_contract_valuation] ends with an exception, the
    contract valuation has been registered all the same. The calls for which
    [dsl_expr.evaluate] had been called before the failing step are those of
    [evaluated_ids], on the chain of links, and they have their results; no
    other result has been added or changed. The failing step is the read of
    the next link, which is missing, or the round for the call that this link
    leads to; it began in the store [σ1], and the results it leaves are those
    of [σ1]: the failing round has written no result. *)
Theorem failed_valuation_keeps_the_results_before_the_failure
    fuel g market_simulation σ e σ' :
  generate_contract_valuation fuel g market_simulation σ = Some (Raise e, σ') →
  contract_valuations σ' = contract_valuations σ ++ [g] ∧
  ∃ evaluated_ids σ1,
    chained (call_links graph) g evaluated_ids ∧
    (evaluations σ1).*1 = (evaluations σ).*1 ++ evaluated_ids ∧
    (∀ c, c ∈ evaluated_ids → is_Some (call_results σ' !! c)) ∧
    (∀ k, k ∉ evaluated_ids → call_results σ' !! k = call_results σ !! k) ∧
    call_results σ' = call_results σ1 ∧
    ((call_links graph !! default g (last evaluated_ids) = None ∧
      e = KeyError (default g (last evaluated_ids)) ∧ σ' = σ1) ∨
     (∃ failing,
        call_links graph !! default g (last evaluated_ids) = Some failing ∧
        evaluate_call market_simulation failing σ1 = (Raise e, σ'))).
Proof.
  rewrite generate_contract_valuation_loop. intros Hrun. split.
  - by destruct (valuation_loop_evaluations _ _ _ _ _ _ _ Hrun) as (-> & _).
  - apply valuation_loop_Raise in Hrun
      as (ids & σ1 & Hchain & Hev & Hdone & Hrest & Hres & Hfail).
    exists ids, σ1. rewrite Hres. by split_and!.
Qed.

(** *** Results *)

(** A round of the loop that completes for a call has found a result for
    each dependency of the call and has registered, for the call, the value
    of its source reduced with these results. *)
Lemma evaluate_call_Ok market_simulation id σ σ' :
  evaluate_call market_simulation id σ = (Ok tt, σ') →
  ∃ call ds dependency_values stubbed_module dsl_expr result_value,
    call_requirements graph !! id = Some call ∧
    call_dependencies graph !! id = Some ds ∧
    (∀ d, d ∈ ds → is_Some (call_results σ !! d)) ∧
    (∀ k, dependency_values !! k =
            if decide (k ∈ ds) then call_results σ !! k else None) ∧
    dsl_parse (cr_dsl_source call) = Ok stubbed_module ∧
    reduce stubbed_module dependency_values = Ok dsl_expr ∧
    evaluate dsl_expr
      (make_evaluation_kwds call market_simulation
         (head (market_names market_simulation))) = Ok result_value ∧
    call_results σ' !! id = Some result_value ∧
    ∀ k, k ≠ id → call_results σ' !! k = call_results σ !! k.
Proof.
  rewrite evaluate_call_unfold.
  destruct (call_requirements graph !! id) as [call|]; [|done].
  rewrite get_dependency_values_collect.
  destruct (call_dependencies graph !! id) as [ds|]; [|done].
  destruct (collect _ _ ds) as [dependency_values|] eqn:Hget; [|done].
  destruct (dsl_parse _) as [stubbed_module|] eqn:Hparse; [|done].
  destruct (reduce _ _) as [dsl_expr|] eqn:Hreduce; [|done].
  destruct (evaluate _ _) as [result_value|] eqn:Heval; [|done].
  intros (Hid & _ & Hother & _)%register_call_result_Ok.
  apply collect_Ok in Hget as [Hall Hm].
  exists call, ds, dependency_values, stubbed_module, dsl_expr, result_value.
  split_and!; try done; intros k; rewrite Hm; by rewrite lookup_empty.
Qed.

(** The result of [id] in [σ] is the value of the source of [id], reduced
    with the results, in [σ], of exactly its dependencies. *)
Definition valued (market_simulation : MarketSimulation (rate := rate))
    (σ : valuation_store (value := value) (rate := rate) (price_repo := price_repo))
    (id : call_id) : Prop :=
  ∃ call ds dependency_values stubbed_module dsl_expr result_value,
    call_requirements graph !! id = Some call ∧
    call_dependencies graph !! id = Some ds ∧
    (∀ d, d ∈ ds → is_Some (call_results σ !! d)) ∧
    (∀ k, dependency_values !! k =
            if decide (k ∈ ds) then call_results σ !! k else None) ∧
    dsl_parse (cr_dsl_source call) = Ok stubbed_module ∧
    reduce stubbed_module dependency_values = Ok dsl_expr ∧
    evaluate dsl_expr
      (make_evaluation_kwds call market_simulation
         (head (market_names market_simulation))) = Ok result_value ∧
    call_results σ !! id = Some result_value.

(** Results are only added: what a round has read and written is still
    there in every later store. *)
Lemma evaluate_call_valued market_simulation id σ σa σ' :
  evaluate_call market_simulation id σ = (Ok tt, σa) →
  call_results σa ⊆ call_results σ' →
  valued market_simulation σ' id.
Proof.
  intros Hbody Hlater.
  destruct (evaluate_call_cases _ _ _ _ _ Hbody)
    as [(e & [=] & _)|(_ & _ & _ & _ & Hsub & _)].
  apply evaluate_call_Ok in Hbody
    as (call & ds & dv & m & expr & v & Hcall & Hds & Hall & Hdv & Hparse & Hreduce &
        Heval & Hid & _).
  assert (∀ d, d ∈ ds → call_results σ' !! d = call_results σ !! d) as Hsame.
  { intros d Hd. destruct (Hall d Hd) as [r Hr]. rewrite Hr.
    eapply lookup_weaken; [|exact Hlater]. by eapply lookup_weaken. }
  exists call, ds, dv, m, expr, v. split_and!; try done.
  - intros d Hd. rewrite (Hsame d Hd). by apply Hall.
  - intros k. rewrite Hdv. case_decide; [by rewrite Hsame | done].
  - by eapply lookup_weaken.
Qed.

Lemma valuation_loop_valued fuel market_simulation g link_id σ u σ' :
  valuation_loop fuel market_simulation g link_id σ = Some (Ok u, σ') →
  ∃ new,
    (evaluations σ').*1 = (evaluations σ).*1 ++ new ∧
    (∀ id, id ∈ new → valued market_simulation σ' id) ∧
    ∀ k, k ∉ new → call_results σ' !! k = call_results σ !! k.
Proof.
  destruct u. revert link_id σ.
  induction fuel as [|fuel IH]; intros link_id σ; simpl; [done|].
  destruct (repo_get (call_links graph) link_id) as [id|e] eqn:Hlink; [|done].
  destruct (evaluate_call market_simulation id σ) as [[[]|e] σa] eqn:Hbody; [|done].
  destruct (evaluate_call_cases _ _ _ _ _ Hbody)
    as [(e & [=] & _)|(call & _ & Hev & _ & _ & Hother & _)].
  case_decide as Hg.
  - intros [= <-]. exists [id]. split_and!.
    + by rewrite Hev, fmap_app.
    + intros c ->%list_elem_of_singleton. by eapply evaluate_call_valued.
    + intros k Hk. apply Hother. intros ->. apply Hk. left.
  - intros Hrun.
    destruct (valuation_loop_evaluations _ _ _ _ _ _ _ Hrun) as (_ & Hsub & _).
    apply IH in Hrun as (new & Hev' & Hnew & Hrest).
    exists (id :: new). split_and!.
    + rewrite Hev', Hev, fmap_app. simpl. by rewrite <-app_assoc.
    + intros c [->|Hc]%elem_of_cons; [by eapply evaluate_call_valued | by apply Hnew].
    + intros k Hk. rewrite Hrest, Hother; [done| |].
      * intros ->. apply Hk. left.
      * intros ?. apply Hk. by right.
Qed.

(** X5: when [generate_contract_valuation] returns, the results it leaves
    satisfy the equations of the valuation: for each call it has evaluated,
    every dependency of the call has a result, and the result of the call is
    the value of its own source, parsed, reduced with the results of exactly
    its registered dependencies as locals, and evaluated with the dictionary
    built for the call. The results of the ids it has not evaluated are what
    they were. *)
Theorem result_of_a_call_is_computed_from_its_dependencies
    fuel g market_simulation σ σ' :
  generate_contract_valuation fuel g market_simulation σ = Some (Ok tt, σ') →
  ∃ order,
    (evaluations σ').*1 = (evaluations σ).*1 ++ order ∧
    (∀ id, id ∈ order →
       ∃ call ds dependency_values stubbed_module dsl_expr result_value,
         call_requirements graph !! id = Some call ∧
         call_dependencies graph !! id = Some ds ∧
         (∀ d, d ∈ ds → is_Some (call_results σ' !! d)) ∧
         (∀ k, dependency_values !! k =
                 if decide (k ∈ ds) then call_results σ' !! k else None) ∧
         dsl_parse (cr_dsl_source call) = Ok stubbed_module ∧
         reduce stubbed_module dependency_values = Ok dsl_expr ∧
         evaluate dsl_expr
           (make_evaluation_kwds call market_simulation
              (head (market_names market_simulation))) = Ok result_value ∧
         call_results σ' !! id = Some result_value) ∧
    ∀ k, k ∉ order → call_results σ' !! k = call_results σ !! k.
Proof.
  rewrite generate_contract_valuation_loop.
  intros (order & Hev & Hvalued & Hrest)%valuation_loop_valued.
  exists order. split_and!; [done | | done].
  intros id Hid. apply (Hvalued id Hid).
Qed.

(** X6: when [generate_contract_valuation] returns, it has registered the
    contract valuation and evaluated, once each and in this order, the call
    ids that replaying the chain of links from the dependency graph id
    gives, the last being the root (the graph id itself); each of them has a
    result. *)
Theorem returned_valuation_has_evaluated_the_chain
    fuel g market_simulation σ σ' :
  generate_contract_valuation fuel g market_simulation σ = Some (Ok tt, σ') →
  ∃ order,
    regenerate_execution_order fuel g (call_links graph) = Finished order ∧
    NoDup order ∧ last order = Some g ∧
    (evaluations σ').*1 = (evaluations σ).*1 ++ order ∧
    (∀ c, c ∈ order → is_Some (call_results σ' !! c)) ∧
    contract_valuations σ' = contract_valuations σ ++ [g].
Proof.
  rewrite generate_contract_valuation_loop. intros Hrun.
  destruct (valuation_loop_evaluations _ _ _ _ _ _ _ Hrun) as (Hcv & _).
  apply valuation_loop_Ok in Hrun as (order & entries & Hpath & Hlen & Hev & Hids & Hres).
  simpl in Hev, Hcv. exists order. split_and!.
  - unfold regenerate_execution_order.
    by rewrite (path_regenerate_execution_order_from _ _ _ _ Hpath fuel []).
  - by eapply path_NoDup.
  - by eapply path_last.
  - by rewrite Hev, fmap_app, Hids.
  - done.
  - done.
Qed.
End evaluator_properties.

(** ** Running the evaluator *)

(** A toy DSL: the source is its own module, an expression is one more than
    the sum of the values of the locals, and its value is the expression
    plus the present time. *)
Definition toy_parse (source : string) : result string := Ok source.

Definition toy_reduce (stubbed_module : string) (dsl_locals : gmap call_id Z)
    : result Z :=
  Ok (map_fold (λ _ v acc, v + acc)%Z 1%Z dsl_locals).

Definition toy_evaluate (dsl_expr : Z)
    (kwds : evaluation_kwds (rate := Z) (price_repo := unit)) : result Z :=
  Ok (dsl_expr + timestamp (kw_present_time kwds))%Z.

Definition toy_simulation : MarketSimulation (rate := Z) :=
  {| simulation_id := "simulation"; market_calibration_id := "calibration";
     market_names := []; fixing_dates := []; observation_date := Datetime 100;
     path_count := 10; interest_rate := 5%Z |}.

(** The repositories that [generate_dependency_graph] leaves for the
    diamond. *)
Definition diamond_store : graph_store :=
  match generate_dependency_graph (set_pop := first_pop) 10 "root" diamond_stubs
          empty_graph_store with
  | Some (_, σ) => σ
  | None => empty_graph_store
  end.

Definition no_results : valuation_store (value := Z) (rate := Z) (price_repo := unit) :=
  {| call_results := ∅; contract_valuations := []; evaluations := [] |}.

Example diamond_valuation :
  (λ run, (run.1, call_results run.2, (evaluations run.2).*1)) <$>
    generate_contract_valuation toy_parse toy_reduce toy_evaluate tt diamond_store
      10 "root" toy_simulation no_results
  = Some (Ok tt,
          {[ "a" := 101%Z; "b" := 86502%Z; "c" := 86704%Z; "root" := 173307%Z ]},
          ["a"; "b"; "c"; "root"]).
Proof. vm_compute. reflexivity. Qed.

(** The repositories that [generate_dependency_graph] leaves for the calls
    with a cycle: the chain of links stops after [a]. *)
Definition cyclic_store : graph_store :=
  match generate_dependency_graph (set_pop := first_pop) 10 "root" cyclic_stubs
          empty_graph_store with
  | Some (_, σ) => σ
  | None => empty_graph_store
  end.

Example cyclic_valuation :
  (λ run, (run.1, call_results run.2, contract_valuations run.2)) <$>
    generate_contract_valuation toy_parse toy_reduce toy_evaluate tt cyclic_store
      10 "root" toy_simulation no_results
  = Some (Raise (KeyError "a"), {[ "a" := 101%Z ]}, ["root"]).
Proof. vm_compute. reflexivity. Qed.

Lemma present_time_defaults_to_the_observation_date_witness :
  ∃ out σ',
    generate_contract_valuation toy_parse toy_reduce toy_evaluate tt diamond_store
      10 "root" toy_simulation no_results = Some (out, σ') ∧
    ∃ entries, evaluations σ' = evaluations no_results ++ entries ∧
      ∀ id kwds, (id, kwds) ∈ entries →
        ∃ call, call_requirements diamond_store !! id = Some call ∧
          kw_present_time kwds =
            match cr_effective_present_time call with
            | Some t => t
            | None => observation_date toy_simulation
            end.
Proof.
  eexists _, _.
  assert (generate_contract_valuation toy_parse toy_reduce toy_evaluate tt diamond_store
      10 "root" toy_simulation no_results = _) as H1
    by (vm_compute; reflexivity).
  split; [exact H1|].
  exact (present_time_defaults_to_the_observation_date toy_parse toy_reduce
           toy_evaluate tt diamond_store 10 "root" toy_simulation no_results _ _ H1).
Defined.

Lemma every_call_is_evaluated_with_the_simulation_witness :
  ∃ out σ',
    generate_contract_valuation toy_parse toy_reduce toy_evaluate tt diamond_store
      10 "root" toy_simulation no_results = Some (out, σ') ∧
    ∃ entries, evaluations σ' = evaluations no_results ++ entries ∧
      ∀ id kwds, (id, kwds) ∈ entries →
        kw_first_market_name kwds = head (market_names toy_simulation) ∧
        kw_simulation_id kwds = simulation_id toy_simulation ∧
        kw_interest_rate kwds = interest_rate toy_simulation ∧
        kw_simulated_price_repo kwds = tt.
Proof.
  eexists _, _.
  assert (generate_contract_valuation toy_parse toy_reduce toy_evaluate tt diamond_store
      10 "root" toy_simulation no_results = _) as H1
    by (vm_compute; reflexivity).
  split; [exact H1|].
  exact (every_call_is_evaluated_with_the_simulation toy_parse toy_reduce
           toy_evaluate tt diamond_store 10 "root" toy_simulation no_results _ _ H1).
Defined.

Lemma missing_dependency_result_stops_the_valuation_witness :
  call_links diamond_store !! "a" = Some "b" ∧
  call_requirements diamond_store !! "b"
    = Some (mkCallRequirement "a + 1" (Some (Datetime 86400))) ∧
  call_dependencies diamond_store !! "b" = Some ["a"] ∧
  (∃ d, d ∈ ["a"] ∧ call_results no_results !! d = None) ∧
  ∃ d, d ∈ ["a"] ∧ call_results no_results !! d = None ∧
    get_dependency_values "b" (call_dependencies diamond_store)
      (call_results no_results) = Raise (KeyError d) ∧
    evaluate_call toy_parse toy_reduce toy_evaluate tt diamond_store toy_simulation
      "b" no_results = (Raise (KeyError d), no_results) ∧
    valuation_loop toy_parse toy_reduce toy_evaluate tt diamond_store 1 toy_simulation
      "root" "a" no_results = Some (Raise (KeyError d), no_results).
Proof.
  assert (call_links diamond_store !! "a" = Some "b") as H1
    by (vm_compute; reflexivity).
  assert (call_requirements diamond_store !! "b"
            = Some (mkCallRequirement "a + 1" (Some (Datetime 86400)))) as H2
    by (vm_compute; reflexivity).
  assert (call_dependencies diamond_store !! "b" = Some ["a"]) as H3
    by (vm_compute; reflexivity).
  assert (∃ d, d ∈ ["a"] ∧ call_results no_results !! d = None) as H4
    by (exists "a"; split; [left | vm_compute; reflexivity]).
  split_and!; [exact H1 | exact H2 | exact H3 | exact H4 |].
  exact (missing_dependency_result_stops_the_valuation toy_parse toy_reduce
           toy_evaluate tt diamond_store 0 "root" toy_simulation "a" "b" _ _
           no_results H1 H2 H3 H4).
Defined.

(** The repositories of the diamond with a chain of links that skips [b]:
    [c], which needs [b], is evaluated after [a] only. *)
Definition skipping_store : graph_store :=
  {| call_requirements := call_requirements diamond_store;
     call_dependencies := call_dependencies diamond_store;
     call_dependents := call_dependents diamond_store;
     call_links := {[ "root" := "a"; "a" := "c"; "c" := "root" ]} |}.

Example skipping_valuation :
  (λ run, (run.1, call_results run.2, (evaluations run.2).*1)) <$>
    generate_contract_valuation toy_parse toy_reduce toy_evaluate tt skipping_store
      10 "root" toy_simulation no_results
  = Some (Raise (KeyError "b"), {[ "a" := 101%Z ]}, ["a"]).
Proof. vm_compute. reflexivity. Qed.

Lemma failed_valuation_keeps_the_results_before_the_failure_witness :
  ∃ e σ',
    generate_contract_valuation toy_parse toy_reduce toy_evaluate tt skipping_store
      10 "root" toy_simulation no_results = Some (Raise e, σ') ∧
    contract_valuations σ' = contract_valuations no_results ++ ["root"] ∧
    ∃ evaluated_ids σ1,
      chained (call_links skipping_store) "root" evaluated_ids ∧
      (evaluations σ1).*1 = (evaluations no_results).*1 ++ evaluated_ids ∧
      (∀ c, c ∈ evaluated_ids → is_Some (call_results σ' !! c)) ∧
      (∀ k, k ∉ evaluated_ids → call_results σ' !! k = call_results no_results !! k) ∧
      call_results σ' = call_results σ1 ∧
      ((call_links skipping_store !! default "root" (last evaluated_ids) = None ∧
        e = KeyError (default "root" (last evaluated_ids)) ∧ σ' = σ1) ∨
       (∃ failing,
          call_links skipping_store !! default "root" (last evaluated_ids)
            = Some failing ∧
          evaluate_call toy_parse toy_reduce toy_evaluate tt skipping_store
            toy_simulation failing σ1 = (Raise e, σ'))).
Proof.
  eexists _, _.
  assert (generate_contract_valuation toy_parse toy_reduce toy_evaluate tt skipping_store
            10 "root" toy_simulation no_results = Some (Raise _, _)) as H1
    by (vm_compute; reflexivity).
  split; [exact H1|].
  exact (failed_valuation_keeps_the_results_before_the_failure toy_parse toy_reduce
           toy_evaluate tt skipping_store 10 "root" toy_simulation no_results _ _ H1).
Defined.

(** A result store that holds a result of another contract. *)
Definition other_results
    : valuation_store (value := Z) (rate := Z) (price_repo := unit) :=
  {| call_results := {[ "z" := 7%Z ]}; contract_valuations := ["z"]; evaluations := [] |}.

Example diamond_valuation_beside_other_results :
  (λ run, (run.1, call_results run.2, (evaluations run.2).*1)) <$>
    generate_contract_valuation toy_parse toy_reduce toy_evaluate tt diamond_store
      10 "root" toy_simulation other_results
  = Some (Ok tt,
          {[ "a" := 101%Z; "b" := 86502%Z; "c" := 86704%Z; "root" := 173307%Z;
             "z" := 7%Z ]},
          ["a"; "b"; "c"; "root"]).
Proof. vm_compute. reflexivity. Qed.

Lemma result_of_a_call_is_computed_from_its_dependencies_witness :
  ∃ σ',
    generate_contract_valuation toy_parse toy_reduce toy_evaluate tt diamond_store
      10 "root" toy_simulation other_results = Some (Ok tt, σ') ∧
    ∃ order,
      (evaluations σ').*1 = (evaluations other_results).*1 ++ order ∧
      (∀ id, id ∈ order →
         ∃ call ds dependency_values stubbed_module dsl_expr result_value,
           call_requirements diamond_store !! id = Some call ∧
           call_dependencies diamond_store !! id = Some ds ∧
           (∀ d, d ∈ ds → is_Some (call_results σ' !! d)) ∧
           (∀ k, dependency_values !! k =
                   if decide (k ∈ ds) then call_results σ' !! k else None) ∧
           toy_parse (cr_dsl_source call) = Ok stubbed_module ∧
           toy_reduce stubbed_module dependency_values = Ok dsl_expr ∧
           toy_evaluate dsl_expr
             (make_evaluation_kwds tt call toy_simulation
                (head (market_names toy_simulation))) = Ok result_value ∧
           call_results σ' !! id = Some result_value) ∧
      ∀ k, k ∉ order → call_results σ' !! k = call_results other_results !! k.
Proof.
  eexists _.
  assert (generate_contract_valuation toy_parse toy_reduce toy_evaluate tt diamond_store
            10 "root" toy_simulation other_results = Some (Ok tt, _)) as H1
    by (vm_compute; reflexivity).
  split; [exact H1|].
  exact (result_of_a_call_is_computed_from_its_dependencies toy_parse toy_reduce
           toy_evaluate tt diamond_store 10 "root" toy_simulation other_results _ H1).
Defined.

Lemma returned_valuation_has_evaluated_the_chain_witness :
  ∃ σ',
    generate_contract_valuation toy_parse toy_reduce toy_evaluate tt diamond_store
      10 "root" toy_simulation no_results = Some (Ok tt, σ') ∧
    ∃ order,
      regenerate_execution_order 10 "root" (call_links diamond_store) = Finished order ∧
      NoDup order ∧ last order = Some "root" ∧
      (evaluations σ').*1 = (evaluations no_results).*1 ++ order ∧
      (∀ c, c ∈ order → is_Some (call_results σ' !! c)) ∧
      contract_valuations σ' = contract_valuations no_results ++ ["root"].
Proof.
  eexists _.
  assert (generate_contract_valuation toy_parse toy_reduce toy_evaluate tt diamond_store
      10 "root" toy_simulation no_results = Some (Ok tt, _)) as H1
    by (vm_compute; reflexivity).
  split; [exact H1|].
  exact (returned_valuation_has_evaluated_the_chain toy_parse toy_reduce
           toy_evaluate tt diamond_store 10 "root" toy_simulation no_results _ H1).
Defined.

(** ** The scheduler: exceptions, provenance, termination *)

Section scheduler_provenance.
Context {set_pop : SetPop}.
Variable call_dependents_repo : gmap call_id (list call_id).
Variable call_dependencies_repo : gmap call_id (list call_id).
Variable leaf_call_ids : list call_id.

Local Abbreviation visit := (visit call_dependencies_repo).
Local Abbreviation propagate := (propagate call_dependents_repo call_dependencies_repo).
Local Abbreviation execution_order_from :=
  (execution_order_from call_dependents_repo call_dependencies_repo).

(** A visit raises exactly when the dependent has no registered
    dependencies. *)
Lemma visit_Raise n st m e :
  visit n st m = Raise e ↔ call_dependencies_repo !! m = None ∧ e = KeyError m.
Proof.
  unfold visit. destruct (call_dependencies_repo !! m) as [ds|].
  - split; [by destruct (forallb _ ds) | by intros [? _]].
  - split; [by intros [= <-] | by intros [_ ->]].
Qed.

Lemma visit_is_Some n st m st' :
  visit n st m = Ok st' → is_Some (call_dependencies_repo !! m).
Proof. unfold visit. destruct (call_dependencies_repo !! m); [by eexists | done]. Qed.

(** The loop over the dependents stops at the first one that has no
    registered dependencies. *)
Lemma for_each_visit_Raise n st ms e :
  for_each (visit n) st ms = Raise e →
  ∃ i m, ms !! i = Some m ∧ call_dependencies_repo !! m = None ∧ e = KeyError m ∧
         ∀ j m', j < i → ms !! j = Some m' → is_Some (call_dependencies_repo !! m').
Proof.
  revert st. induction ms as [|m0 ms IH]; intros st; simpl; [done|].
  destruct (visit n st m0) as [st'|e0] eqn:Hv.
  - intros (i & m & Hi & Hnone & -> & Hbefore)%IH. exists (S i), m.
    split_and!; [done..|]. intros [|j] m' Hj; simpl.
    + intros [= <-]. by eapply visit_is_Some.
    + apply Hbefore. lia.
  - intros [= <-]. apply visit_Raise in Hv as [Hnone ->]. exists 0, m0.
    split_and!; [done..|]. intros j m' Hj. lia.
Qed.

Lemma execution_order_from_Raised fuel st order e :
  execution_order_from fuel st = Raised order e →
  ∃ n dependents i m,
    last order = Some n ∧ call_dependents_repo !! n = Some dependents ∧
    dependents !! i = Some m ∧ call_dependencies_repo !! m = None ∧ e = KeyError m ∧
    ∀ j m', j < i → dependents !! j = Some m' →
            is_Some (call_dependencies_repo !! m').
Proof.
  revert st. induction fuel as [|fuel IH]; intros st; simpl; [done|].
  destruct (pop_next st) as [[n st1]|] eqn:Hnext; [|done].
  destruct (propagate n st1) as [st2|e0] eqn:Hp; [by apply IH|].
  intros [= <- <-]. apply pop_next_Some in Hnext as (_ & _ & _ & Hy).
  unfold propagate in Hp. destruct (call_dependents_repo !! n) as [ms|] eqn:Hms; [|done].
  apply for_each_visit_Raise in Hp as (i & m & ?).
  exists n, ms, i, m. split; [by rewrite Hy, last_snoc | done].
Qed.

(** Where an id in the frontier or among the yields comes from. *)
Definition origin (st : kahn_state) (c : call_id) : Prop :=
  c ∈ leaf_call_ids ∨
  ∃ n dependents, n ∈ st_yielded st ∧ call_dependents_repo !! n = Some dependents ∧
                  c ∈ dependents ∧ is_Some (call_dependencies_repo !! c).

Definition reached (st : kahn_state) : Prop :=
  ∀ c, c ∈ st_S st ∨ c ∈ st_yielded st → origin st c.

Lemma origin_mono st st' c :
  (∀ y, y ∈ st_yielded st → y ∈ st_yielded st') → origin st c → origin st' c.
Proof.
  intros Hsub [?|(n & ms & Hn & ?)]; [by left|]. right. exists n, ms. split; auto.
Qed.

Lemma reached_initial : reached (initial_state leaf_call_ids).
Proof.
  intros c [Hc%elem_of_list_to_set|Hc]; [by left | by apply elem_of_nil in Hc].
Qed.

Lemma reached_pop st n st1 :
  reached st → pop_next st = Some (n, st1) → reached st1 ∧ n ∈ st_yielded st1.
Proof.
  intros Hst (Hn & HS1 & _ & HY1)%pop_next_Some. split.
  - intros c Hc. apply (origin_mono st); [rewrite HY1; set_solver|].
    apply Hst. rewrite HS1, HY1 in Hc. set_solver.
  - rewrite HY1. set_solver.
Qed.

Lemma reached_visit n ms st m st' :
  call_dependents_repo !! n = Some ms → m ∈ ms →
  reached st ∧ n ∈ st_yielded st → visit n st m = Ok st' →
  reached st' ∧ n ∈ st_yielded st'.
Proof.
  intros Hms Hm [Hst Hn] Hv.
  pose proof (visit_is_Some _ _ _ _ Hv) as Hdeps.
  pose proof (visit_yielded _ _ _ _ _ Hv) as Hy.
  split; [|by rewrite Hy]. intros c Hc.
  assert (c = m ∨ c ∈ st_S st ∨ c ∈ st_yielded st) as [->|Hc'].
  { rewrite Hy in Hc. destruct Hc as [Hc|Hc]; [|auto]. revert Hv Hc. unfold visit.
    destruct (call_dependencies_repo !! m); [|done].
    destruct (forallb _ _); intros [= <-]; simpl; set_solver. }
  - right. exists n, ms. by rewrite Hy.
  - apply (origin_mono st); [by rewrite Hy | by apply Hst].
Qed.

Lemma reached_propagate n st1 st2 :
  reached st1 ∧ n ∈ st_yielded st1 → propagate n st1 = Ok st2 → reached st2.
Proof.
  intros HQ. unfold propagate.
  destruct (call_dependents_repo !! n) as [ms|] eqn:Hms; [|by intros [= <-]; destruct HQ].
  intros Hrun.
  apply (for_each_invariant (visit n) (λ s, reached s ∧ n ∈ st_yielded s) ms)
    in Hrun as [? _]; [done| |done].
  intros a m a' Hm. by apply reached_visit with ms.
Qed.

Lemma reached_yields fuel :
  ∃ st, reached st ∧
    yields (execution_order_from fuel (initial_state leaf_call_ids)) = st_yielded st.
Proof.
  destruct (execution_order_from_invariant call_dependents_repo call_dependencies_repo
              reached (λ n st, reached st ∧ n ∈ st_yielded st)) with
    (fuel := fuel) (st := initial_state leaf_call_ids) as (st & Hst & Hy).
  - apply reached_pop.
  - apply reached_propagate.
  - apply reached_initial.
  - exists st. split; [|done]. by destruct Hst as [?|(n & ? & _)].
Qed.

(** The leaf ids stay in the frontier until they are yielded. *)
Definition leaves_kept (st : kahn_state) : Prop :=
  ∀ l, l ∈ leaf_call_ids → l ∈ st_S st ∨ l ∈ st_yielded st.

Lemma leaves_kept_initial : leaves_kept (initial_state leaf_call_ids).
Proof. intros l Hl. left. by apply elem_of_list_to_set. Qed.

Lemma leaves_kept_pop st n st1 :
  leaves_kept st → pop_next st = Some (n, st1) → leaves_kept st1.
Proof.
  intros Hst (_ & HS1 & _ & HY1)%pop_next_Some l Hl. rewrite HS1, HY1.
  destruct (decide (l = n)) as [->|Hne]; [set_solver|].
  destruct (Hst l Hl); set_solver.
Qed.

Lemma leaves_kept_propagate n st1 st2 :
  leaves_kept st1 → propagate n st1 = Ok st2 → leaves_kept st2.
Proof.
  intros Hst. unfold propagate.
  destruct (call_dependents_repo !! n) as [ms|]; [|by intros [= <-]].
  apply (for_each_invariant (visit n) leaves_kept ms); [|done].
  intros a m a' _ Ha Hv l Hl. rewrite (visit_yielded _ _ _ _ _ Hv).
  destruct (Ha l Hl) as [HS|?]; [left|by right]. revert Hv HS. unfold visit.
  destruct (call_dependencies_repo !! m); [|done].
  destruct (forallb _ _); intros [= <-]; simpl; set_solver.
Qed.
End scheduler_provenance.

(** X9: the only exception that leaves [generate_execution_order] is the
    [KeyError] of [call_dependencies_repo[m]] for a dependent [m], listed for
    the id yielded last, that has no registered dependencies; it is raised
    for the first such dependent in the list. An id without registered
    dependents raises nothing (the [KeyError] of the dependents is caught). *)
Theorem only_an_unregistered_dependent_raises {set_pop : SetPop}
    (call_dependents_repo call_dependencies_repo : gmap call_id (list call_id))
    (leaf_call_ids : list call_id) (fuel : nat) (order : list call_id) (e : error) :
  generate_execution_order call_dependents_repo call_dependencies_repo fuel
    leaf_call_ids = Raised order e →
  ∃ n dependents i m,
    last order = Some n ∧ call_dependents_repo !! n = Some dependents ∧
    dependents !! i = Some m ∧ call_dependencies_repo !! m = None ∧ e = KeyError m ∧
    ∀ j m', j < i → dependents !! j = Some m' →
            is_Some (call_dependencies_repo !! m').
Proof. apply execution_order_from_Raised. Qed.

Lemma only_an_unregistered_dependent_raises_witness :
  ∃ order e,
    generate_execution_order (set_pop := first_pop)
      {[ "a" := ["b"; "ghost"; "c"] ]} {[ "a" := []; "b" := ["a"] ]} 10 ["a"]
      = Raised order e ∧
    ∃ n dependents i m,
      last order = Some n ∧
      ({[ "a" := ["b"; "ghost"; "c"] ]} : gmap call_id (list call_id)) !! n
        = Some dependents ∧
      dependents !! i = Some m ∧
      ({[ "a" := []; "b" := ["a"] ]} : gmap call_id (list call_id)) !! m = None ∧
      e = KeyError m ∧
      ∀ j m', j < i → dependents !! j = Some m' →
        is_Some (({[ "a" := []; "b" := ["a"] ]} : gmap call_id (list call_id)) !! m').
Proof.
  eexists _, _.
  assert (generate_execution_order (set_pop := first_pop)
            {[ "a" := ["b"; "ghost"; "c"] ]} {[ "a" := []; "b" := ["a"] ]} 10 ["a"]
          = Raised _ _) as H1 by (vm_compute; reflexivity).
  split; [exact H1|].
  exact (only_an_unregistered_dependent_raises _ _ _ _ _ _ H1).
Defined.

(** X10: [generate_execution_order] yields nothing out of nowhere: whatever
    the registries hold and whatever [S.pop()] picks, each id yielded is one
    of the leaf ids it was given or is listed as a dependent of an id it has
    yielded and has registered dependencies. *)
Theorem yielded_ids_are_leaves_or_dependents {set_pop : SetPop}
    (call_dependents_repo call_dependencies_repo : gmap call_id (list call_id))
    (leaf_call_ids : list call_id) (fuel : nat) (c : call_id) :
  c ∈ yields (generate_execution_order call_dependents_repo call_dependencies_repo
                fuel leaf_call_ids) →
  c ∈ leaf_call_ids ∨
  ∃ n dependents,
    n ∈ yields (generate_execution_order call_dependents_repo call_dependencies_repo
                  fuel leaf_call_ids) ∧
    call_dependents_repo !! n = Some dependents ∧ c ∈ dependents ∧
    is_Some (call_dependencies_repo !! c).
Proof.
  unfold generate_execution_order.
  destruct (reached_yields call_dependents_repo call_dependencies_repo leaf_call_ids fuel)
    as (st & Hst & ->).
  intros Hc. apply Hst. by right.
Qed.

Lemma yielded_ids_are_leaves_or_dependents_witness :
  "c" ∈ yields (generate_execution_order (set_pop := first_pop) diamond_dependents
                  diamond_dependencies 10 ["a"; "a"]) ∧
  ("c" ∈ ["a"; "a"] ∨
   ∃ n dependents,
     n ∈ yields (generate_execution_order (set_pop := first_pop) diamond_dependents
                   diamond_dependencies 10 ["a"; "a"]) ∧
     diamond_dependents !! n = Some dependents ∧ "c" ∈ dependents ∧
     is_Some (diamond_dependencies !! "c")).
Proof.
  assert ("c" ∈ yields (generate_execution_order (set_pop := first_pop)
                          diamond_dependents diamond_dependencies 10 ["a"; "a"])) as H1
    by (apply (bool_decide_unpack _); vm_compute; exact I).
  split; [exact H1|].
  exact (yielded_ids_are_leaves_or_dependents diamond_dependents diamond_dependencies
           ["a"; "a"] 10 "c" H1).
Defined.

(** X11: when the leaf ids have no dependencies and every listed dependent
    of an id has that id among its dependencies, [generate_execution_order]
    is exhausted without an exception, whether or not the dependencies have
    a cycle, after at most as many iterations as there are ids (leaf ids and
    ids with registered dependencies); every leaf id is among the ids
    yielded. *)
Theorem sound_registries_are_exhausted_without_exception {set_pop : SetPop}
    (call_dependents_repo call_dependencies_repo : gmap call_id (list call_id))
    (leaf_call_ids : list call_id) (fuel : nat) :
  leaves_have_no_dependencies call_dependencies_repo leaf_call_ids →
  dependents_sound call_dependents_repo call_dependencies_repo →
  size (list_to_set leaf_call_ids ∪ dom call_dependencies_repo : gset call_id) < fuel →
  ∃ order,
    generate_execution_order call_dependents_repo call_dependencies_repo fuel
      leaf_call_ids = Finished order ∧
    length order ≤
      size (list_to_set leaf_call_ids ∪ dom call_dependencies_repo : gset call_id) ∧
    ∀ l, l ∈ leaf_call_ids → l ∈ order.
Proof.
  intros Hleaves Hsound Hfuel.
  destruct (execution_order_from_finishes call_dependents_repo call_dependencies_repo
              (λ st, (scheduled call_dependencies_repo st ∧
                      once call_dependencies_repo leaf_call_ids st) ∧
                     leaves_kept leaf_call_ids st)
              (λ n st, yielding call_dependencies_repo leaf_call_ids n st ∧
                       leaves_kept leaf_call_ids st)
              (size (universe call_dependencies_repo leaf_call_ids))) with
    (fuel := fuel) (st := initial_state leaf_call_ids)
    as (st & [[_ Honce] Hkept] & HS & Hrun).
  - intros st n st1 [Hst Hkept] Hnext.
    split; [by eapply yielding_pop | by eapply leaves_kept_pop].
  - intros n st1 st2 [HQ Hkept] Hp.
    split; [by eapply yielding_propagate | by eapply leaves_kept_propagate].
  - intros n st1 [HQ _]. by eapply yielding_propagate_Ok.
  - intros st [[_ Honce] _]. by apply once_length.
  - split; [split; [by apply scheduled_initial | apply once_initial]
           | apply leaves_kept_initial].
  - simpl. unfold universe. lia.
  - exists (st_yielded st). split_and!; [done | by apply once_length in Honce |].
    intros l Hl. destruct (Hkept l Hl) as [Hl'|?]; [|done]. rewrite HS in Hl'. set_solver.
Qed.

Lemma sound_registries_are_exhausted_without_exception_witness :
  leaves_have_no_dependencies cyclic_dependencies ["a"] ∧
  dependents_sound (call_dependents cyclic_assembled) cyclic_dependencies ∧
  size (list_to_set ["a"] ∪ dom cyclic_dependencies : gset call_id) < 10 ∧
  ∃ order,
    generate_execution_order (set_pop := first_pop) (call_dependents cyclic_assembled)
      cyclic_dependencies 10 ["a"] = Finished order ∧
    length order ≤ size (list_to_set ["a"] ∪ dom cyclic_dependencies : gset call_id) ∧
    ∀ l, l ∈ ["a"] → l ∈ order.
Proof.
  assert (leaves_have_no_dependencies cyclic_dependencies ["a"]) as H1
    by (repeat constructor).
  assert (dependents_sound (call_dependents cyclic_assembled) cyclic_dependencies) as H2
    by (apply (bool_decide_unpack _); vm_compute; exact I).
  assert (size (list_to_set ["a"] ∪ dom cyclic_dependencies : gset call_id) < 10) as H3
    by (vm_compute; lia).
  split_and!; [exact H1 | exact H2 | exact H3 |].
  exact (sound_registries_are_exhausted_without_exception (set_pop := first_pop)
           (call_dependents cyclic_assembled) cyclic_dependencies ["a"] 10 H1 H2 H3).
Defined.

(** ** The assembler: what is registered for the stubbed calls *)

(** The leaf ids are collected in the order of the stubbed calls. *)
Lemma foldl_track_leaves stubs acc :
  (foldl (λ a stub, track stub a) acc stubs).1 =
  acc.1 ++ (call_id_of <$> filter (λ stub, length (dependencies stub) = 0) stubs).
Proof.
  revert acc. induction stubs as [|stub stubs IH]; intros acc; simpl.
  - by rewrite app_nil_r.
  - rewrite IH. unfold track. case_decide as Hlen; simpl.
    + rewrite filter_cons_True by done. by rewrite fmap_cons, <-app_assoc.
    + by rewrite filter_cons_False by done.
Qed.

Lemma register_stubs_requirements stubs acc σ acc' σ' :
  register_stubs stubs acc σ = (Ok acc', σ') →
  call_requirements σ ⊆ call_requirements σ' ∧
  (∀ stub, stub ∈ stubs →
     call_requirements σ' !! call_id_of stub
       = Some (mkCallRequirement (dsl_source stub) (effective_present_time stub))) ∧
  (∀ k, (∀ stub, stub ∈ stubs → call_id_of stub ≠ k) →
     call_requirements σ' !! k = call_requirements σ !! k).
Proof.
  revert acc σ. induction stubs as [|stub stubs IH]; intros acc σ; simpl.
  - intros [= <- <-]. split_and!; try done. by intros stub ?%elem_of_nil.
  - intros (u1 & σ1 & Hreq & (u2 & σ2 & Hdeps & Hrest)%bind_Ok)%bind_Ok.
    pose proof Hreq as Hput. unfold register_call_requirement in Hput.
    destruct u1. rewrite writing_Ok in Hput.
    destruct (repo_put _ _ (call_requirements σ)) as [r|] eqn:Hr; [|done].
    injection Hput as <-. apply repo_put_Ok in Hr as (Hid & Hsub & Hother).
    apply register_call_dependencies_Ok in Hdeps as (_ & _ & _ & Hr2 & _).
    apply IH in Hrest as (Hsub3 & Hin & Hout). rewrite Hr2 in Hsub3, Hout. simpl in *.
    split_and!.
    + by etrans.
    + intros s [->|Hs]%elem_of_cons; [|by apply Hin].
      eapply lookup_weaken; [exact Hid | exact Hsub3].
    + intros k Hk. rewrite Hout, Hother; [done| |].
      * intros ->. by apply (Hk stub); [left|].
      * intros s Hs. apply Hk. by right.
Qed.

Lemma register_dependents_requirements (l : list (call_id * list call_id)) σ u σ' :
  for_eachM (λ kv, register_call_dependents kv.1 kv.2) l σ = (Ok u, σ') →
  call_requirements σ' = call_requirements σ.
Proof.
  revert σ. induction l as [|[k0 v0] l IH]; intros σ; simpl.
  - by intros [= _ <-].
  - intros (u1 & σ1 & Hreg & Hrest)%bind_Ok. simpl in Hreg.
    apply register_call_dependents_Ok in Hreg as (_ & _ & _ & Hr & _).
    apply IH in Hrest. congruence.
Qed.

(** What [assemble] has registered for the stubbed calls, and handed on. *)
Lemma assemble_stubs contract_specification_id stubs σ leaf_call_ids σ' :
  assemble contract_specification_id stubs σ = (Ok leaf_call_ids, σ') →
  leaf_call_ids = call_id_of <$> filter (λ stub, length (dependencies stub) = 0) stubs ∧
  (∀ stub, stub ∈ stubs →
     call_requirements σ' !! call_id_of stub
       = Some (mkCallRequirement (dsl_source stub) (effective_present_time stub))) ∧
  (∀ k, (∀ stub, stub ∈ stubs → call_id_of stub ≠ k) →
     call_requirements σ' !! k = call_requirements σ !! k).
Proof.
  unfold assemble.
  intros (acc & σ1 & Hstubs & (u2 & σ2 & Hall & (u3 & σ3 & Hroot & Hret)%bind_Ok)%bind_Ok)%bind_Ok.
  injection Hret as <- <-.
  destruct (register_stubs_requirements _ _ _ _ _ Hstubs) as (_ & Hin & Hout).
  apply register_stubs_Ok in Hstubs as (-> & _).
  apply register_dependents_requirements in Hall.
  apply register_call_dependents_Ok in Hroot as (_ & _ & _ & Hr & _).
  rewrite Hr, Hall. split_and!; [|done..]. by rewrite foldl_track_leaves.
Qed.

Section assembled_registries.
Context {set_pop : SetPop}.

(** X12: the leaf call ids that [generate_dependency_graph] hands to
    [generate_execution_order] are the ids of the stubbed calls without
    dependencies, in the order of the stubbed calls (an id as often as such a
    stubbed call has it). *)
Theorem leaf_call_ids_are_the_stubs_without_dependencies
    (contract_specification_id : call_id) (stubs : list StubbedCall)
    (σ σ1 : graph_store) (leaf_call_ids : list call_id) :
  assemble contract_specification_id stubs σ = (Ok leaf_call_ids, σ1) →
  leaf_call_ids = call_id_of <$> filter (λ stub, length (dependencies stub) = 0) stubs.
Proof. by intros (? & _)%assemble_stubs. Qed.

(** X13: once [generate_dependency_graph] has registered the stubbed calls
    and the dependents, and whatever becomes of the link loop: under the id
    of each stubbed call are registered a call requirement with the source
    and the effective present time of the stubbed call, and its
    dependencies; the requirements and dependencies under other ids are
    what they were. *)
Theorem stubbed_calls_are_registered (fuel : nat)
    (contract_specification_id : call_id) (stubs : list StubbedCall)
    (σ σ1 σ' : graph_store) (leaf_call_ids : list call_id) (out : result unit) :
  assemble contract_specification_id stubs σ = (Ok leaf_call_ids, σ1) →
  generate_dependency_graph fuel contract_specification_id stubs σ = Some (out, σ') →
  (∀ stub, stub ∈ stubs →
     call_requirements σ' !! call_id_of stub
       = Some (mkCallRequirement (dsl_source stub) (effective_present_time stub)) ∧
     call_dependencies σ' !! call_id_of stub = Some (dependencies stub)) ∧
  (∀ k, (∀ stub, stub ∈ stubs → call_id_of stub ≠ k) →
     call_requirements σ' !! k = call_requirements σ !! k ∧
     call_dependencies σ' !! k = call_dependencies σ !! k).
Proof.
  intros Hasm Hrun.
  destruct (generate_dependency_graph_assembled _ _ _ _ _ _ _ _ Hasm Hrun)
    as (Hloop & _ & Hd).
  apply register_call_links_frame in Hloop as (_ & Hr & _).
  destruct (assemble_stubs _ _ _ _ _ Hasm) as (_ & Hin & Hout).
  apply assemble_Ok in Hasm as (_ & _ & _ & _ & _ & _ & _ & _ & Hdin & Hdout).
  rewrite Hr, Hd. split.
  - intros stub Hstub. split; [by apply Hin | by apply Hdin].
  - intros k Hk. split; [by apply Hout | by apply Hdout].
Qed.

(** X14: [generate_dependency_graph] hands to the scheduler what the
    scheduler needs. If, before, every registered dependent [m] of an id [n]
    had [n] among its registered dependencies (as in empty repositories),
    then so it is after the stubbed calls and the dependents have been
    registered, whatever becomes of the link loop; and each leaf call id has
    the empty list registered as its dependencies. *)
Theorem assembled_registries_are_sound (fuel : nat)
    (contract_specification_id : call_id) (stubs : list StubbedCall)
    (σ σ1 σ' : graph_store) (leaf_call_ids : list call_id) (out : result unit) :
  dependents_sound (call_dependents σ) (call_dependencies σ) →
  assemble contract_specification_id stubs σ = (Ok leaf_call_ids, σ1) →
  generate_dependency_graph fuel contract_specification_id stubs σ = Some (out, σ') →
  dependents_sound (call_dependents σ') (call_dependencies σ') ∧
  Forall (λ l, call_dependencies σ' !! l = Some []) leaf_call_ids.
Proof.
  intros Hsound Hasm Hrun.
  destruct (generate_dependency_graph_assembled _ _ _ _ _ _ _ _ Hasm Hrun)
    as (_ & -> & ->).
  by destruct (assemble_sound _ _ _ _ _ Hsound Hasm).
Qed.

(** X15: once the stubbed calls and the dependents are registered (the
    registries having been sound before), [generate_dependency_graph]
    terminates, within as many iterations of the link loop as there are
    registered calls, whether or not the dependencies have a cycle; the
    scheduler raises nothing, and the only exception there can be is a link
    that the repository refuses. *)
Theorem graph_generation_terminates (fuel : nat)
    (contract_specification_id : call_id) (stubs : list StubbedCall)
    (σ σ1 : graph_store) (leaf_call_ids : list call_id) :
  dependents_sound (call_dependents σ) (call_dependencies σ) →
  assemble contract_specification_id stubs σ = (Ok leaf_call_ids, σ1) →
  size (dom (call_dependencies σ1)) < fuel →
  ∃ out σ',
    generate_dependency_graph fuel contract_specification_id stubs σ = Some (out, σ') ∧
    (out = Ok tt ∨ ∃ k, out = Raise (DuplicateId k)).
Proof.
  intros Hsound Hasm Hfuel.
  destruct (assemble_sound _ _ _ _ _ Hsound Hasm) as [Hregistered Hsound1].
  destruct (registered_leaves_have_no_dependencies _ _ Hregistered) as [Hleaves Huniverse].
  destruct (register_call_links_finishes (call_dependents σ1) (call_dependencies σ1)
              (λ s, scheduled (call_dependencies σ1) s ∧
                    once (call_dependencies σ1) leaf_call_ids s)
              (yielding (call_dependencies σ1) leaf_call_ids)
              (size (dom (call_dependencies σ1)))) with
    (fuel := fuel) (st := initial_state leaf_call_ids)
    (link_id := contract_specification_id) (σ := σ1) as (out & σ' & Hloop & Hout).
  - apply yielding_pop.
  - by apply yielding_propagate.
  - by apply yielding_propagate_Ok.
  - intros s [_ Hs]. rewrite <-Huniverse. by apply once_length.
  - done.
  - done.
  - split; [by apply scheduled_initial | apply once_initial].
  - simpl. lia.
  - exists out, σ'. unfold generate_dependency_graph. by rewrite Hasm.
Qed.
End assembled_registries.

Lemma empty_graph_store_sound :
  dependents_sound (call_dependents empty_graph_store) (call_dependencies empty_graph_store).
Proof. apply map_Forall_empty. Qed.

Lemma leaf_call_ids_are_the_stubs_without_dependencies_witness :
  ∃ σ1 leaf_call_ids,
    assemble "root" diamond_stubs empty_graph_store = (Ok leaf_call_ids, σ1) ∧
    leaf_call_ids
      = call_id_of <$> filter (λ stub, length (dependencies stub) = 0) diamond_stubs.
Proof.
  eexists _, _.
  assert (assemble "root" diamond_stubs empty_graph_store = _) as H1
    by (vm_compute; reflexivity).
  split; [exact H1|].
  exact (leaf_call_ids_are_the_stubs_without_dependencies "root" diamond_stubs
           empty_graph_store _ _ H1).
Defined.

Lemma stubbed_calls_are_registered_witness :
  ∃ σ1 σ' leaf_call_ids out,
    assemble "root" diamond_stubs empty_graph_store = (Ok leaf_call_ids, σ1) ∧
    generate_dependency_graph (set_pop := first_pop) 10 "root" diamond_stubs
      empty_graph_store = Some (out, σ') ∧
    (∀ stub, stub ∈ diamond_stubs →
       call_requirements σ' !! call_id_of stub
         = Some (mkCallRequirement (dsl_source stub) (effective_present_time stub)) ∧
       call_dependencies σ' !! call_id_of stub = Some (dependencies stub)) ∧
    (∀ k, (∀ stub, stub ∈ diamond_stubs → call_id_of stub ≠ k) →
       call_requirements σ' !! k = call_requirements empty_graph_store !! k ∧
       call_dependencies σ' !! k = call_dependencies empty_graph_store !! k).
Proof.
  eexists _, _, _, _.
  assert (assemble "root" diamond_stubs empty_graph_store = _) as H1
    by (vm_compute; reflexivity).
  assert (generate_dependency_graph (set_pop := first_pop) 10 "root" diamond_stubs
            empty_graph_store = _) as H2 by (vm_compute; reflexivity).
  split; [exact H1|]. split; [exact H2|].
  exact (stubbed_calls_are_registered 10 "root" diamond_stubs empty_graph_store
           _ _ _ _ H1 H2).
Defined.

Lemma assembled_registries_are_sound_witness :
  ∃ σ1 σ' leaf_call_ids out,
    dependents_sound (call_dependents empty_graph_store)
      (call_dependencies empty_graph_store) ∧
    assemble "root" cyclic_stubs empty_graph_store = (Ok leaf_call_ids, σ1) ∧
    generate_dependency_graph (set_pop := first_pop) 10 "root" cyclic_stubs
      empty_graph_store = Some (out, σ') ∧
    dependents_sound (call_dependents σ') (call_dependencies σ') ∧
    Forall (λ l, call_dependencies σ' !! l = Some []) leaf_call_ids.
Proof.
  eexists _, _, _, _.
  assert (dependents_sound (call_dependents empty_graph_store)
            (call_dependencies empty_graph_store)) as H0
    by (apply (bool_decide_unpack _); vm_compute; exact I).
  assert (assemble "root" cyclic_stubs empty_graph_store = _) as H1
    by (vm_compute; reflexivity).
  assert (generate_dependency_graph (set_pop := first_pop) 10 "root" cyclic_stubs
            empty_graph_store = _) as H2 by (vm_compute; reflexivity).
  split; [exact H0|]. split; [exact H1|]. split; [exact H2|].
  exact (assembled_registries_are_sound 10 "root" cyclic_stubs empty_graph_store
           _ _ _ _ H0 H1 H2).
Defined.

Lemma graph_generation_terminates_witness :
  dependents_sound (call_dependents empty_graph_store)
    (call_dependencies empty_graph_store) ∧
  assemble "root" cyclic_stubs empty_graph_store = (Ok ["a"], cyclic_assembled) ∧
  size (dom (call_dependencies cyclic_assembled)) < 10 ∧
  ∃ out σ',
    generate_dependency_graph (set_pop := first_pop) 10 "root" cyclic_stubs
      empty_graph_store = Some (out, σ') ∧
    (out = Ok tt ∨ ∃ k, out = Raise (DuplicateId k)).
Proof.
  assert (dependents_sound (call_dependents empty_graph_store)
            (call_dependencies empty_graph_store)) as H0
    by (apply (bool_decide_unpack _); vm_compute; exact I).
  assert (assemble "root" cyclic_stubs empty_graph_store = (Ok ["a"], cyclic_assembled))
    as H1 by (vm_compute; reflexivity).
  assert (size (dom (call_dependencies cyclic_assembled)) < 10) as H2
    by (vm_compute; lia).
  split_and!; [exact H0 | exact H1 | exact H2 |].
  exact (graph_generation_terminates (set_pop := first_pop) 10 "root" cyclic_stubs
           empty_graph_store cyclic_assembled ["a"] H0 H1 H2).
Defined.

(** ** From the stubbed calls of a contract to its valuation *)

(** [c] depends on [d] according to the stubbed calls. *)
Definition stub_depends_on (stubs : list StubbedCall) (c d : call_id) : Prop :=
  ∃ stub, stub ∈ stubs ∧ call_id_of stub = c ∧ d ∈ dependencies stub.

(** The stubbed calls of one contract: each call has one stub, the
    dependencies are calls of the contract and have no cycle, and every call
    but the root is needed, directly or through other calls, by the root,
    whose id is the id of the contract specification. *)
Record rooted (root : call_id) (stubs : list StubbedCall) : Prop := {
  rooted_ids : NoDup (call_id_of <$> stubs);
  rooted_root : root ∈ call_id_of <$> stubs;
  rooted_closed : ∀ c d, stub_depends_on stubs c d → d ∈ call_id_of <$> stubs;
  rooted_acyclic : ∀ x, ¬ tc (stub_depends_on stubs) x x;
  rooted_reach :
    ∀ c, c ∈ call_id_of <$> stubs → c ≠ root → tc (stub_depends_on stubs) root c
}.

Lemma rooted_root_is_no_dependency root stubs stub :
  rooted root stubs → stub ∈ stubs → root ∉ dependencies stub.
Proof.
  intros Hrooted Hstub Hroot. apply (rooted_acyclic _ _ Hrooted root).
  assert (stub_depends_on stubs (call_id_of stub) root) as Hedge by (by exists stub).
  destruct (decide (call_id_of stub = root)) as [Heq|Hne].
  - rewrite Heq in Hedge. by apply tc_once.
  - eapply tc_r; [|exact Hedge]. apply (rooted_reach _ _ Hrooted); [|done].
    apply list_elem_of_fmap. by exists stub.
Qed.

Lemma register_stubs_total stubs acc σ :
  NoDup (call_id_of <$> stubs) →
  (∀ stub, stub ∈ stubs →
     call_requirements σ !! call_id_of stub = None ∧
     call_dependencies σ !! call_id_of stub = None) →
  ∃ acc' σ', register_stubs stubs acc σ = (Ok acc', σ').
Proof.
  revert acc σ. induction stubs as [|stub stubs IH]; intros acc σ Hnd Hfresh; simpl.
  - by eexists _, _.
  - rewrite fmap_cons in Hnd. apply NoDup_cons in Hnd as [Hstub Hnd].
    destruct (Hfresh stub) as [Hr Hd]; [left|].
    unfold mbind, M_bind, register_call_requirement, register_call_dependencies,
      writing, repo_put. rewrite Hr. simpl. rewrite Hd. simpl.
    apply IH; [done|]. intros s Hs. simpl.
    assert (call_id_of s ≠ call_id_of stub) as Hne.
    { intros Heq. apply Hstub. rewrite <-Heq. apply list_elem_of_fmap. by exists s. }
    rewrite !lookup_insert_ne by done. apply Hfresh. by right.
Qed.

Lemma register_dependents_total (l : list (call_id * list call_id)) σ :
  NoDup l.*1 → (∀ k, k ∈ l.*1 → call_dependents σ !! k = None) →
  ∃ σ', for_eachM (λ kv, register_call_dependents kv.1 kv.2) l σ = (Ok tt, σ').
Proof.
  revert σ. induction l as [|[k0 v0] l IH]; intros σ Hnd Hfresh; simpl.
  - by eexists.
  - rewrite fmap_cons in Hnd. apply NoDup_cons in Hnd as [Hk0 Hnd]. simpl in Hk0.
    unfold mbind, M_bind, register_call_dependents, writing, repo_put. simpl.
    rewrite (Hfresh k0) by left. simpl.
    apply IH; [done|]. intros k Hk. simpl.
    rewrite lookup_insert_ne by (by intros ->). apply Hfresh. by right.
Qed.

(** The stubbed calls of a contract are registered in empty repositories
    without an exception. *)
Lemma assemble_total root stubs :
  rooted root stubs →
  ∃ leaf_call_ids σ1, assemble root stubs empty_graph_store = (Ok leaf_call_ids, σ1).
Proof.
  intros Hrooted. unfold assemble.
  destruct (register_stubs_total stubs ([], ∅) empty_graph_store) as (acc & σ1 & Hstubs).
  { apply (rooted_ids _ _ Hrooted). }
  { intros stub _. simpl. by rewrite !lookup_empty. }
  pose proof (register_stubs_Ok _ _ _ _ _ Hstubs) as (Hacc & Hds & _).
  destruct (register_dependents_total (map_to_list acc.2) σ1) as [σ2 Hall].
  { apply NoDup_fst_map_to_list. }
  { intros k _. rewrite Hds. apply lookup_empty. }
  pose proof (register_dependents_Ok _ _ _ _ Hall) as (_ & _ & Hout & _).
  assert (call_dependents σ2 !! root = None) as Hroot.
  { rewrite Hout, Hds; [apply lookup_empty|].
    intros v Hv%elem_of_map_to_list.
    assert (tracked stubs acc) as [_ HK _].
    { rewrite Hacc. apply (tracked_foldl [] stubs), tracked_nil. }
    destruct (proj1 (HK root)) as (stub & Hstub & Hdep); [by eexists|].
    by apply (rooted_root_is_no_dependency root stubs stub). }
  unfold mbind, M_bind at 1. rewrite Hstubs.
  unfold mbind, M_bind at 1. rewrite Hall.
  unfold mbind, M_bind, register_call_dependents, writing, repo_put. rewrite Hroot.
  by eexists _, _.
Qed.

Lemma tc_weaken {A : Type} (R R' : relation A) x y :
  (∀ a b, R a b → R' a b) → tc R x y → tc R' x y.
Proof.
  intros Hsub Hxy. induction Hxy as [x y Hxy|x y z Hxy _ IH].
  - apply tc_once. by apply Hsub.
  - eapply tc_l; [by apply Hsub | done].
Qed.

Section rooted_registries.
Variable root : call_id.
Variable stubs : list StubbedCall.
Variable leaf_call_ids : list call_id.
Variable σ1 : graph_store.
Hypothesis rooted_stubs : rooted root stubs.
Hypothesis assembled : assemble root stubs empty_graph_store = (Ok leaf_call_ids, σ1).

Lemma assembled_dependencies stub :
  stub ∈ stubs → call_dependencies σ1 !! call_id_of stub = Some (dependencies stub).
Proof using assembled.
  intros Hstub.
  apply assemble_Ok in assembled as (_ & _ & _ & _ & _ & _ & _ & _ & Hin & _).
  by apply Hin.
Qed.

Lemma assembled_unregistered k :
  k ∉ call_id_of <$> stubs → call_dependencies σ1 !! k = None.
Proof using assembled.
  intros Hk.
  apply assemble_Ok in assembled as (_ & _ & _ & _ & _ & _ & _ & _ & _ & Hout).
  rewrite Hout; [apply lookup_empty|]. intros stub Hstub <-. apply Hk.
  apply list_elem_of_fmap. by exists stub.
Qed.

Lemma assembled_registered c ds :
  call_dependencies σ1 !! c = Some ds →
  ∃ stub, stub ∈ stubs ∧ call_id_of stub = c ∧ dependencies stub = ds.
Proof using assembled.
  intros Hc. destruct (decide (c ∈ call_id_of <$> stubs)) as [Hin|Hout].
  - apply list_elem_of_fmap in Hin as (stub & -> & Hstub). exists stub.
    split_and!; [done..|]. rewrite (assembled_dependencies stub Hstub) in Hc. congruence.
  - rewrite (assembled_unregistered c Hout) in Hc. done.
Qed.

Lemma assembled_dom :
  dom (call_dependencies σ1) = list_to_set (call_id_of <$> stubs).
Proof using assembled.
  apply set_eq. intros k. rewrite elem_of_dom, elem_of_list_to_set. split.
  - intros [ds (stub & Hstub & <- & _)%assembled_registered].
    apply list_elem_of_fmap. by exists stub.
  - intros (stub & -> & Hstub)%list_elem_of_fmap. eexists. by apply assembled_dependencies.
Qed.

Lemma assembled_size : size (dom (call_dependencies σ1)) = length stubs.
Proof using rooted_stubs assembled.
  rewrite assembled_dom, size_list_to_set, length_fmap; [done|].
  apply (rooted_ids _ _ rooted_stubs).
Qed.

Lemma assembled_depends_on c d :
  depends_on (call_dependencies σ1) c d ↔ stub_depends_on stubs c d.
Proof using assembled.
  unfold depends_on, dependencies_of. split.
  - destruct (call_dependencies σ1 !! c) as [ds|] eqn:Hc; simpl;
      [|by intros ?%elem_of_nil].
    apply assembled_registered in Hc as (stub & Hstub & <- & <-). intros Hd. by exists stub.
  - intros (stub & Hstub & <- & Hd). by rewrite (assembled_dependencies stub Hstub).
Qed.

Lemma assembled_acyclic : acyclic (call_dependencies σ1).
Proof using rooted_stubs assembled.
  intros x Hx. apply (rooted_acyclic _ _ rooted_stubs x).
  eapply tc_weaken; [|exact Hx]. intros a b. by apply assembled_depends_on.
Qed.

Lemma assembled_graph :
  dependency_graph leaf_call_ids (call_dependents σ1) (call_dependencies σ1).
Proof using rooted_stubs assembled.
  pose proof assembled as
    (acc & [HD HK HL] & Hleaf & Hin & _)%assemble_Ok.
  split.
  - apply set_eq. intros l. unfold leaves_of.
    rewrite elem_of_list_to_set, elem_of_dom, Hleaf, HL. split.
    + intros (stub & Hstub & <- & Hnil). exists [].
      apply map_lookup_filter_Some. split; [|done].
      rewrite <-Hnil. by apply assembled_dependencies.
    + intros [ds [Hl Hnil]%map_lookup_filter_Some]. simpl in Hnil. subst ds.
      apply assembled_registered in Hl as (stub & ? & ? & ?). by exists stub.
  - destruct (assemble_sound _ _ _ _ _ (map_Forall_empty _) assembled) as [_ ?]. done.
  - intros c ds Hc. apply Forall_forall. intros d Hd.
    apply assembled_registered in Hc as (stub & Hstub & <- & <-).
    assert (call_id_of stub ∈ dependents_of acc.2 d) as Hdep by (apply HD; eauto).
    unfold dependents_of in *. destruct (acc.2 !! d) as [v|] eqn:Hacc; simpl in Hdep;
      [|by apply elem_of_nil in Hdep].
    by rewrite (Hin d v Hacc).
  - intros c ds Hc. apply Forall_forall. intros d Hd.
    rewrite assembled_dom, elem_of_list_to_set.
    apply (rooted_closed _ _ rooted_stubs c d), assembled_depends_on.
    unfold depends_on, dependencies_of. by rewrite Hc.
Qed.
End rooted_registries.

(** *** The link loop on fresh links *)

Section link_loop_totality.
Context {set_pop : SetPop}.

Lemma execution_order_from_extends
    (call_dependents_repo call_dependencies_repo : gmap call_id (list call_id))
    fuel st order :
  execution_order_from call_dependents_repo call_dependencies_repo fuel st
    = Finished order →
  ∃ new, order = st_yielded st ++ new.
Proof.
  revert st. induction fuel as [|fuel IH]; intros st; simpl; [done|].
  destruct (pop_next st) as [[n st1]|] eqn:Hnext.
  - destruct (propagate _ _ n st1) as [st2|e] eqn:Hp; [|done].
    intros (new & ->)%IH. rewrite (propagate_yielded _ _ _ _ _ Hp).
    apply pop_next_Some in Hnext as (_ & _ & _ & ->).
    exists (n :: new). by rewrite <-app_assoc.
  - intros [= <-]. exists []. by rewrite app_nil_r.
Qed.

(** The loop returns when the generator is exhausted and the link ids, the
    id the loop begins with and each yielded id but the last, are distinct
    and have no link yet. *)
Lemma register_call_links_total fuel st link_id σ new :
  execution_order_from (call_dependents σ) (call_dependencies σ) fuel st
    = Finished (st_yielded st ++ new) →
  NoDup (removelast (link_id :: new)) →
  (∀ k, k ∈ removelast (link_id :: new) → call_links σ !! k = None) →
  ∃ σ', register_call_links fuel st link_id σ = Some (Ok tt, σ').
Proof.
  revert st link_id σ new.
  induction fuel as [|fuel IH]; intros st link_id σ new; simpl; [done|].
  destruct (pop_next st) as [[n st1]|] eqn:Hnext; [|by eexists].
  destruct (propagate _ _ n st1) as [st2|e] eqn:Hp; [|done].
  intros Hrun Hnd Hfresh.
  destruct (execution_order_from_extends _ _ _ _ _ Hrun) as [new' Hnew].
  rewrite Hnew in Hrun. rewrite (propagate_yielded _ _ _ _ _ Hp) in Hnew, Hrun.
  apply pop_next_Some in Hnext as (_ & _ & _ & Hy). rewrite Hy in Hnew, Hrun.
  rewrite <-app_assoc in Hnew. apply app_inv_head in Hnew. simpl in Hnew. subst new.
  change (removelast (link_id :: n :: new')) with (link_id :: removelast (n :: new'))
    in Hnd, Hfresh.
  apply NoDup_cons in Hnd as [Hlink Hnd].
  unfold register_call_link, writing, repo_put. rewrite (Hfresh link_id) by left.
  simpl. rewrite Hp.
  apply (IH st2 n _ new'); simpl.
  - by rewrite (propagate_yielded _ _ _ _ _ Hp), Hy.
  - done.
  - intros k Hk. rewrite lookup_insert_ne by (by intros ->). apply Hfresh. by right.
Qed.
End link_loop_totality.

(** An id that comes after all the others wherever it stands, in a list
    without duplicates, stands last. *)
Lemma last_of_all (order : list call_id) (root : call_id) :
  NoDup order → root ∈ order →
  (∀ y, y ∈ order → y ≠ root → strictly_before order y root) →
  last order = Some root.
Proof.
  intros Hnd [j Hj]%list_elem_of_lookup Hbefore. rewrite last_lookup.
  assert (j = pred (length order)) as <-; [|done].
  pose proof (lookup_lt_Some _ _ _ Hj) as Hlt.
  destruct (decide (S j < length order)) as [Hnext|]; [exfalso|lia].
  apply lookup_lt_is_Some in Hnext as [y Hy].
  assert (y ≠ root) as Hne.
  { intros ->. pose proof (NoDup_lookup _ _ _ _ Hnd Hj Hy). lia. }
  destruct (Hbefore y) with (j := j) as (i & Hi & Hiy);
    [by eapply list_elem_of_lookup_2 | done | done |].
  pose proof (NoDup_lookup _ _ _ _ Hnd Hy Hiy). lia.
Qed.

Lemma chained_path links g a init :
  chained links a (init ++ [g]) → g ∉ init → path links g a (init ++ [g]).
Proof.
  revert a. induction init as [|b init IH]; intros a; simpl.
  - intros [Ha _] _. by constructor.
  - intros [Ha Hc] Hg. apply not_elem_of_cons in Hg as [Hgb Hg].
    constructor; [done | done | by apply IH].
Qed.

Section rooted_graph.
Context {set_pop : SetPop}.

(** What [generate_dependency_graph] makes of the stubbed calls of a
    contract, in empty repositories. *)
Lemma rooted_graph fuel root stubs :
  rooted root stubs → length stubs < fuel →
  ∃ leaf_call_ids σ' order,
    generate_dependency_graph fuel root stubs empty_graph_store = Some (Ok tt, σ') ∧
    (assemble root stubs empty_graph_store).1 = Ok leaf_call_ids ∧
    generate_execution_order (call_dependents σ') (call_dependencies σ') fuel
      leaf_call_ids = Finished order ∧
    NoDup order ∧
    (∀ c, c ∈ order ↔ c ∈ call_id_of <$> stubs) ∧
    (∀ c d, stub_depends_on stubs c d → strictly_before order d c) ∧
    last order = Some root ∧
    chained (call_links σ') root order ∧
    path (call_links σ') root root order ∧
    (∀ stub, stub ∈ stubs →
       call_requirements σ' !! call_id_of stub
         = Some (mkCallRequirement (dsl_source stub) (effective_present_time stub)) ∧
       call_dependencies σ' !! call_id_of stub = Some (dependencies stub)).
Proof.
  intros Hrooted Hfuel.
  destruct (assemble_total root stubs Hrooted) as (leaf_call_ids & σ1 & Hasm).
  pose proof (assembled_graph root stubs leaf_call_ids σ1 Hrooted Hasm) as Hgraph.
  pose proof (assembled_acyclic root stubs leaf_call_ids σ1 Hrooted Hasm) as Hacyclic.
  pose proof (assembled_size root stubs leaf_call_ids σ1 Hrooted Hasm) as Hsize.
  destruct (graph_finishes (call_dependents σ1) (call_dependencies σ1) leaf_call_ids
              Hgraph Hacyclic fuel) as (order & Hgen & Hnd & Hall); [lia|].
  destruct (scheduled_yields (call_dependents σ1) (call_dependencies σ1) fuel
              leaf_call_ids) as (st & Hst & Hy).
  { by apply graph_leaves_have_no_dependencies with (call_dependents σ1). }
  unfold generate_execution_order in Hgen. rewrite Hgen in Hy. simpl in Hy.
  assert (∀ c, c ∈ order ↔ c ∈ call_id_of <$> stubs) as Hids.
  { intros c. rewrite Hall, (assembled_dom root stubs leaf_call_ids σ1 Hasm).
    apply elem_of_list_to_set. }
  assert (∀ c d, tc (stub_depends_on stubs) c d → strictly_before order d c) as Hbefore.
  { intros c d Hcd. rewrite Hy. apply (scheduled_before_tc (call_dependencies σ1)); [done|].
    eapply tc_weaken; [|exact Hcd]. intros a b.
    by apply (assembled_depends_on root stubs leaf_call_ids σ1 Hasm). }
  assert (last order = Some root) as Hlast.
  { apply last_of_all; [done | apply Hids, (rooted_root _ _ Hrooted) |].
    intros y Hy' Hne. apply Hbefore, (rooted_reach _ _ Hrooted); [by apply Hids | done]. }
  apply last_Some in Hlast as [init ->].
  apply NoDup_app in Hnd as Hnd'. destruct Hnd' as (Hinit & Hroot & _).
  assert (root ∉ init) as Hni.
  { intros Hin. apply (Hroot root Hin). left. }
  pose proof (assemble_Ok _ _ _ _ _ Hasm) as (_ & _ & _ & _ & _ & _ & Hlinks & _).
  destruct (register_call_links_total fuel (initial_state leaf_call_ids) root σ1
              (init ++ [root])) as [σ' Hloop].
  { done. }
  { change (root :: init ++ [root]) with ((root :: init) ++ [root]).
    rewrite removelast_last. by constructor. }
  { intros k _. rewrite Hlinks. apply lookup_empty. }
  pose proof (register_call_links_frame _ _ _ _ _ _ Hloop) as (_ & Hr & Hd & Hds).
  pose proof (register_call_links_Ok _ _ _ _ _ _ Hloop) as (new & Hnew & Hchain).
  rewrite Hgen in Hnew. simpl in Hnew. injection Hnew as <-.
  exists leaf_call_ids, σ', (init ++ [root]). rewrite Hd, Hds.
  split_and!.
  - unfold generate_dependency_graph. by rewrite Hasm.
  - by rewrite Hasm.
  - done.
  - done.
  - done.
  - intros c d Hcd. by apply Hbefore, tc_once.
  - apply last_snoc.
  - done.
  - by apply chained_path.
  - intros stub Hstub. rewrite Hr. split.
    + by apply (assemble_stubs _ _ _ _ _ Hasm).
    + by apply (assembled_dependencies root stubs leaf_call_ids σ1 Hasm).
Qed.
End rooted_graph.

(** X16: for the stubbed calls of a contract (one stub per call,
    dependencies among the calls and without cycle, every call needed by the
    root) and empty repositories, [generate_dependency_graph] returns; the
    chain of links it has persisted, read from the id of the contract
    specification, holds every call exactly once, each call after its
    dependencies, and ends with the root, so that replaying it stops there. *)
Theorem rooted_stubs_generate_a_complete_chain {set_pop : SetPop}
    (fuel : nat) (root : call_id) (stubs : list StubbedCall) :
  rooted root stubs → length stubs < fuel →
  ∃ σ' order,
    generate_dependency_graph fuel root stubs empty_graph_store = Some (Ok tt, σ') ∧
    order ≡ₚ call_id_of <$> stubs ∧
    (∀ c d, stub_depends_on stubs c d → strictly_before order d c) ∧
    last order = Some root ∧
    follow_links (call_links σ') root (length order) = order ∧
    regenerate_execution_order fuel root (call_links σ') = Finished order.
Proof.
  intros Hrooted Hfuel.
  destruct (rooted_graph fuel root stubs Hrooted Hfuel)
    as (leaf_call_ids & σ' & order & Hrun & _ & _ & Hnd & Hids & Hbefore & Hlast &
        Hchain & Hpath & _).
  assert (order ≡ₚ call_id_of <$> stubs) as Hperm.
  { apply NoDup_Permutation; [done | apply (rooted_ids _ _ Hrooted) | done]. }
  exists σ', order. split_and!; [done..| |].
  - by apply follow_links_chained.
  - unfold regenerate_execution_order.
    rewrite (path_regenerate_execution_order_from _ _ _ _ Hpath fuel []); [done|].
    rewrite Hperm, length_fmap. lia.
Qed.

Section valuation_totality.
Context {value rate dsl_module dsl_expression price_repo : Type}.
Context `{!EqDecision value}.
Variable dsl_parse : string → result dsl_module.
Variable reduce : dsl_module → gmap call_id value → result dsl_expression.
Variable evaluate :
  dsl_expression → evaluation_kwds (rate := rate) (price_repo := price_repo) → result value.
Variable simulated_price_repo : price_repo.

(** A call can be evaluated: its source parses, and the parsed module,
    given a value for each dependency of the call and for nothing else,
    reduces to an expression that evaluates with the dictionary built for
    the call. Nothing is asked of the DSL on other inputs. *)
Definition evaluable (market_simulation : MarketSimulation (rate := rate))
    (call : CallRequirement) (ds : list call_id) : Prop :=
  ∃ stubbed_module,
    dsl_parse (cr_dsl_source call) = Ok stubbed_module ∧
    ∀ dsl_locals : gmap call_id value,
      (∀ k, is_Some (dsl_locals !! k) ↔ k ∈ ds) →
      ∃ dsl_expr result_value,
        reduce stubbed_module dsl_locals = Ok dsl_expr ∧
        evaluate dsl_expr
          (make_evaluation_kwds simulated_price_repo call market_simulation
             (head (market_names market_simulation))) = Ok result_value.

Lemma evaluate_call_total graph market_simulation id call ds
    (σ : valuation_store (value := value) (rate := rate) (price_repo := price_repo)) :
  call_requirements graph !! id = Some call →
  call_dependencies graph !! id = Some ds →
  evaluable market_simulation call ds →
  (∀ d, d ∈ ds → is_Some (call_results σ !! d)) →
  call_results σ !! id = None →
  ∃ result_value σ',
    evaluate_call dsl_parse reduce evaluate simulated_price_repo graph
      market_simulation id σ = (Ok tt, σ') ∧
    call_results σ' = <[id := result_value]> (call_results σ).
Proof.
  intros Hcall Hds (stubbed_module & Hparse & Hrest) Hall Hnone.
  rewrite evaluate_call_unfold, Hcall, get_dependency_values_collect, Hds.
  destruct (collect_total (call_results σ) ds ∅ Hall) as [dependency_values Hget].
  rewrite Hget, Hparse.
  destruct (Hrest dependency_values) as (dsl_expr & result_value & Hreduce & Heval).
  { apply collect_Ok in Hget as [_ Hm]. intros k. rewrite Hm. case_decide.
    - split; [done|]. intros _. by apply Hall.
    - rewrite lookup_empty. split; [by intros [? ?] | done]. }
  rewrite Hreduce. unfold kwds_of. rewrite Heval.
  unfold register_call_result, writing, repo_put. simpl. rewrite Hnone.
  by eexists _, _.
Qed.

(** The loop returns when the chain leads to the root through calls that
    are registered, can be evaluated and have no result yet, each after its
    dependencies. *)
Lemma valuation_loop_total graph market_simulation g link_id new :
  path (call_links graph) g link_id new →
  ∀ fuel (σ : valuation_store (value := value) (rate := rate) (price_repo := price_repo)),
    length new ≤ fuel → NoDup new →
    (∀ i c, new !! i = Some c →
       ∃ call ds,
         call_requirements graph !! c = Some call ∧
         call_dependencies graph !! c = Some ds ∧
         evaluable market_simulation call ds ∧
         ∀ d, d ∈ ds → is_Some (call_results σ !! d) ∨ d ∈ take i new) →
    (∀ c, c ∈ new → call_results σ !! c = None) →
    ∃ σ',
      valuation_loop dsl_parse reduce evaluate simulated_price_repo graph fuel
        market_simulation g link_id σ = Some (Ok tt, σ') ∧
      ∀ c, is_Some (call_results σ' !! c) ↔ is_Some (call_results σ !! c) ∨ c ∈ new.
Proof.
  intros Hpath. induction Hpath as [a Ha|a b l Ha Hb Hl IH];
    intros fuel σ Hfuel Hnd Hdeps Hfresh;
    (destruct fuel as [|fuel]; simpl in Hfuel; [lia|]); simpl;
    unfold repo_get at 1; rewrite Ha.
  - destruct (Hdeps 0 g eq_refl) as (call & ds & Hcall & Hds & Hcan & Hall).
    destruct (evaluate_call_total graph market_simulation g call ds σ)
      as (v & σ' & -> & Hres); [done | done | done | | apply Hfresh; left |].
    { intros d Hd. destruct (Hall d Hd) as [?|?%elem_of_nil]; done. }
    rewrite decide_True by done. exists σ'. split; [done|].
    intros c. rewrite Hres, lookup_insert_is_Some, list_elem_of_singleton.
    destruct (decide (g = c)); naive_solver.
  - destruct (Hdeps 0 b eq_refl) as (call & ds & Hcall & Hds & Hcan & Hall).
    destruct (evaluate_call_total graph market_simulation b call ds σ)
      as (v & σ1 & -> & Hres); [done | done | done | | apply Hfresh; left |].
    { intros d Hd. destruct (Hall d Hd) as [?|?%elem_of_nil]; done. }
    rewrite decide_False by done. apply NoDup_cons in Hnd as [Hbl Hnd].
    destruct (IH fuel σ1) as (σ' & Hrun & Hdom).
    + lia.
    + done.
    + intros i c Hi.
      destruct (Hdeps (S i) c Hi) as (call' & ds' & Hcall' & Hds' & Hcan' & Hall').
      exists call', ds'. split_and!; [done..|].
      intros d Hd. rewrite Hres, lookup_insert_is_Some.
      destruct (Hall' d Hd) as [?|[->|?]%elem_of_cons]; [|left; by left|by right].
      left. destruct (decide (b = d)); auto.
    + intros c Hc. rewrite Hres, lookup_insert_ne; [apply Hfresh; by right|].
      by intros ->.
    + exists σ'. split; [done|]. intros c.
      rewrite Hdom, Hres, lookup_insert_is_Some, elem_of_cons.
      destruct (decide (b = c)); naive_solver.
Qed.

(** X17: the stubbed calls of a contract, registered in empty repositories
    by [generate_dependency_graph], are valued by
    [generate_contract_valuation] without an exception, provided each call
    of the contract can be evaluated (its source parses, and the parsed
    module, given values for exactly the dependencies of the call, reduces to
    an expression that evaluates with the dictionary built for the call) and
    no results are registered yet: every call of the contract, and no other
    id, gets a result, and the calls are evaluated once each, every call
    after the calls it depends on, the root last. *)
Theorem rooted_contract_is_valued {set_pop : SetPop} (fuel : nat) (root : call_id)
    (stubs : list StubbedCall) (market_simulation : MarketSimulation (rate := rate))
    (σ : valuation_store (value := value) (rate := rate) (price_repo := price_repo)) :
  rooted root stubs → length stubs < fuel → call_results σ = ∅ →
  (∀ stub, stub ∈ stubs →
     evaluable market_simulation
       (mkCallRequirement (dsl_source stub) (effective_present_time stub))
       (dependencies stub)) →
  ∃ graph σ' order,
    generate_dependency_graph fuel root stubs empty_graph_store = Some (Ok tt, graph) ∧
    generate_contract_valuation dsl_parse reduce evaluate simulated_price_repo graph
      fuel root market_simulation σ = Some (Ok tt, σ') ∧
    (∀ c, is_Some (call_results σ' !! c) ↔ c ∈ call_id_of <$> stubs) ∧
    (evaluations σ').*1 = (evaluations σ).*1 ++ order ∧
    order ≡ₚ call_id_of <$> stubs ∧
    (∀ c d, stub_depends_on stubs c d → strictly_before order d c) ∧
    last order = Some root.
Proof.
  intros Hrooted Hfuel Hempty Hcan.
  destruct (rooted_graph fuel root stubs Hrooted Hfuel)
    as (leaf_call_ids & graph & order & Hrun & _ & _ & Hnd & Hids & Hbefore & Hlast &
        _ & Hpath & Hstubs).
  assert (order ≡ₚ call_id_of <$> stubs) as Hperm.
  { apply NoDup_Permutation; [done | apply (rooted_ids _ _ Hrooted) | done]. }
  destruct (valuation_loop_total graph market_simulation root root order Hpath fuel
              {| call_results := call_results σ;
                 contract_valuations := contract_valuations σ ++ [root];
                 evaluations := evaluations σ |})
    as (σ' & Hloop & Hdom); simpl.
  - rewrite Hperm, length_fmap. lia.
  - done.
  - intros i c Hi.
    assert (c ∈ order) as (stub & -> & Hstub)%Hids%list_elem_of_fmap
      by (by eapply list_elem_of_lookup_2).
    destruct (Hstubs stub Hstub) as [Hreq Hds].
    eexists _, (dependencies stub). split_and!; [exact Hreq | done | by apply Hcan |].
    intros d Hd. right.
    destruct (Hbefore (call_id_of stub) d) with (j := i) as (i' & Hlt & Hi');
      [by exists stub | done |].
    apply list_elem_of_lookup. exists i'. by rewrite lookup_take_lt.
  - intros c _. rewrite Hempty. apply lookup_empty.
  - exists graph, σ', order. rewrite generate_contract_valuation_loop.
    split_and!; [done | done | | | done | done | done].
    + intros c. rewrite Hdom, Hids. simpl. rewrite Hempty, lookup_empty.
      split; [by intros [[? [=]]|?] | by right].
    + apply valuation_loop_Ok in Hloop as (new & entries & Hnew & _ & Hev & Hentries & _).
      simpl in Hev. rewrite Hev, fmap_app, Hentries.
      by rewrite (path_unique _ _ _ _ _ Hnew Hpath).
Qed.
End valuation_totality.

(** *** Checking that stubbed calls are those of one contract *)

(** The ids that [c] needs, through at most [n] stubbed calls. *)
Fixpoint needs (stubs : list StubbedCall) (n : nat) (c : call_id) : list call_id :=
  match n with
  | 0 => []
  | S n' =>
      let ds := filter (λ stub, call_id_of stub = c) stubs ≫= dependencies in
      ds ++ (ds ≫= needs stubs n')
  end.

Lemma needs_tc stubs n c d : d ∈ needs stubs n c → tc (stub_depends_on stubs) c d.
Proof.
  revert c. induction n as [|n IH]; intros c; simpl; [by intros ?%elem_of_nil|].
  assert (∀ e, e ∈ filter (λ stub, call_id_of stub = c) stubs ≫= dependencies →
               stub_depends_on stubs c e) as Hedge.
  { intros e (stub & He & [Hc Hstub]%list_elem_of_filter)%list_elem_of_bind.
    by exists stub. }
  intros [Hd|(e & Hd & He)%list_elem_of_bind]%elem_of_app.
  - by apply tc_once, Hedge.
  - eapply tc_l; [by apply Hedge | by apply IH].
Qed.

Lemma checked_rooted root stubs (rank : call_id → nat) :
  NoDup (call_id_of <$> stubs) →
  root ∈ call_id_of <$> stubs →
  Forall (λ stub, Forall (λ d, d ∈ call_id_of <$> stubs ∧ rank d < rank (call_id_of stub))
                    (dependencies stub)) stubs →
  Forall (λ c, c = root ∨ c ∈ needs stubs (length stubs) root) (call_id_of <$> stubs) →
  rooted root stubs.
Proof.
  intros Hnd Hroot Hdeps Hreach.
  assert (∀ c d, stub_depends_on stubs c d →
                 d ∈ call_id_of <$> stubs ∧ rank d < rank c) as Hedge.
  { intros c d (stub & Hstub & <- & Hd).
    apply (proj1 (Forall_forall _ _) (proj1 (Forall_forall _ _) Hdeps stub Hstub) d Hd). }
  split; [done | done | | |].
  - intros c d Hcd. by destruct (Hedge c d Hcd).
  - assert (∀ c d, tc (stub_depends_on stubs) c d → rank d < rank c) as Htc.
    { intros c d Hcd. induction Hcd as [c d Hcd|c e d Hce _ IH].
      - by destruct (Hedge c d Hcd).
      - apply Hedge in Hce as [_ ?]. lia. }
    intros x Hx%Htc. lia.
  - intros c Hc Hne.
    destruct (proj1 (Forall_forall _ _) Hreach c Hc) as [?|?]; [done|].
    by eapply needs_tc.
Qed.

Lemma diamond_rooted : rooted "root" diamond_stubs.
Proof.
  apply (checked_rooted _ _ diamond_rank); apply (bool_decide_unpack _);
    vm_compute; exact I.
Qed.

Lemma rooted_stubs_generate_a_complete_chain_witness :
  rooted "root" diamond_stubs ∧ length diamond_stubs < 10 ∧
  ∃ σ' order,
    generate_dependency_graph (set_pop := first_pop) 10 "root" diamond_stubs
      empty_graph_store = Some (Ok tt, σ') ∧
    order ≡ₚ call_id_of <$> diamond_stubs ∧
    (∀ c d, stub_depends_on diamond_stubs c d → strictly_before order d c) ∧
    last order = Some "root" ∧
    follow_links (call_links σ') "root" (length order) = order ∧
    regenerate_execution_order 10 "root" (call_links σ') = Finished order.
Proof.
  assert (length diamond_stubs < 10) as H2 by (vm_compute; lia).
  split_and!; [exact diamond_rooted | exact H2 |].
  exact (rooted_stubs_generate_a_complete_chain (set_pop := first_pop) 10 "root"
           diamond_stubs diamond_rooted H2).
Defined.

(** A DSL whose parser refuses the empty source, whose reduction refuses
    an empty namespace for a module that names a dependency, and whose
    evaluation refuses a negative present time: the calls of the diamond can
    be evaluated with it all the same. *)
Definition strict_parse (source : string) : result string :=
  if decide (source = "") then Raise (DslError "empty source") else Ok source.

Definition strict_reduce (stubbed_module : string) (dsl_locals : gmap call_id Z)
    : result Z :=
  if decide (stubbed_module ≠ "1" ∧ dsl_locals = ∅)
  then Raise (DslError "name is not defined")
  else Ok (map_fold (λ _ v acc, v + acc)%Z 1%Z dsl_locals).

Definition strict_evaluate (dsl_expr : Z)
    (kwds : evaluation_kwds (rate := Z) (price_repo := unit)) : result Z :=
  if decide (timestamp (kw_present_time kwds) < 0)%Z
  then Raise (DslError "no price before the epoch")
  else Ok (dsl_expr + timestamp (kw_present_time kwds))%Z.

Example strict_dsl_is_partial :
  strict_parse "" = Raise (DslError "empty source") ∧
  strict_reduce "a + 1" ∅ = Raise (DslError "name is not defined").
Proof. split; vm_compute; reflexivity. Qed.

Lemma strict_evaluable stub :
  stub ∈ diamond_stubs →
  evaluable strict_parse strict_reduce strict_evaluate tt toy_simulation
    (mkCallRequirement (dsl_source stub) (effective_present_time stub))
    (dependencies stub).
Proof.
  intros Hstub.
  repeat (apply elem_of_cons in Hstub as [->|Hstub]); [..|by apply elem_of_nil in Hstub];
    (eexists; split; [reflexivity|]); intros dsl_locals Hkeys;
    unfold strict_reduce, strict_evaluate; simpl.
  - by eexists _, _.
  - rewrite decide_False; [by eexists _, _|]. intros [_ ->].
    destruct (proj2 (Hkeys "a")) as [? Ha]; [left|]. by rewrite lookup_empty in Ha.
  - rewrite decide_False; [by eexists _, _|]. intros [_ ->].
    destruct (proj2 (Hkeys "a")) as [? Ha]; [left|]. by rewrite lookup_empty in Ha.
  - rewrite decide_False; [by eexists _, _|]. intros [_ ->].
    destruct (proj2 (Hkeys "c")) as [? Hc]; [left|]. by rewrite lookup_empty in Hc.
Qed.

Lemma rooted_contract_is_valued_witness :
  rooted "root" diamond_stubs ∧ length diamond_stubs < 10 ∧
  call_results no_results = ∅ ∧
  (∀ stub, stub ∈ diamond_stubs →
     evaluable strict_parse strict_reduce strict_evaluate tt toy_simulation
       (mkCallRequirement (dsl_source stub) (effective_present_time stub))
       (dependencies stub)) ∧
  ∃ graph σ' order,
    generate_dependency_graph (set_pop := first_pop) 10 "root" diamond_stubs
      empty_graph_store = Some (Ok tt, graph) ∧
    generate_contract_valuation strict_parse strict_reduce strict_evaluate tt graph
      10 "root" toy_simulation no_results = Some (Ok tt, σ') ∧
    (∀ c, is_Some (call_results σ' !! c) ↔ c ∈ call_id_of <$> diamond_stubs) ∧
    (evaluations σ').*1 = (evaluations no_results).*1 ++ order ∧
    order ≡ₚ call_id_of <$> diamond_stubs ∧
    (∀ c d, stub_depends_on diamond_stubs c d → strictly_before order d c) ∧
    last order = Some "root".
Proof.
  assert (length diamond_stubs < 10) as H2 by (vm_compute; lia).
  assert (call_results no_results = ∅) as H3 by reflexivity.
  split_and!; [exact diamond_rooted | exact H2 | exact H3 | exact strict_evaluable |].
  exact (rooted_contract_is_valued strict_parse strict_reduce strict_evaluate tt
           (set_pop := first_pop) 10 "root" diamond_stubs toy_simulation no_results
           diamond_rooted H2 H3 strict_evaluable).
Defined.

(** ** Which calls a graph with cycles loses *)

(** A relation with finitely many targets is well founded below a point
    from which no cycle can be reached. *)
Lemma no_reachable_cycle_sn {A : Type} (R : relation A) (targets : list A) (x : A) :
  (∀ a b, R a b → b ∈ targets) →
  (∀ y, rtc R x y → ¬ tc R y y) →
  sn R x.
Proof.
  intros Hfin Hcycle.
  set (R' := λ a b, R a b ∧ rtc R x a).
  assert (∀ a b, tc R' a b → tc R a b ∧ rtc R x a) as Htc.
  { intros a b Hab. induction Hab as [a b [Hab Ha]|a b c [Hab Ha] _ [IH _]].
    - split; [by apply tc_once | done].
    - split; [by eapply tc_l | done]. }
  assert (sn R' x) as Hsn.
  { apply tc_finite_sn.
    - intros y [Hyy Hy]%Htc. by apply (Hcycle y).
    - exists targets. intros y [Hxy _]%Htc.
      clear -Hfin Hxy. induction Hxy; eauto. }
  assert (∀ a, sn R' a → rtc R x a → sn R a) as Hgo; [|by apply Hgo].
  intros a Ha. induction Ha as [a _ IH]. intros Hxa. constructor. intros b Hab.
  simpl in Hab. apply IH; [by split | by eapply rtc_r].
Qed.

Section truncation.
Context {set_pop : SetPop}.
Variable call_dependents_repo : gmap call_id (list call_id).
Variable call_dependencies_repo : gmap call_id (list call_id).
Variable leaf_call_ids : list call_id.
Hypothesis graph :
  dependency_graph leaf_call_ids call_dependents_repo call_dependencies_repo.

Local Abbreviation deps := (dependencies_of call_dependencies_repo).
Local Abbreviation scheduled := (scheduled call_dependencies_repo).
Local Abbreviation once := (once call_dependencies_repo leaf_call_ids).
Local Abbreviation waiting := (waiting call_dependencies_repo leaf_call_ids).

(** When the loop is over, every registered call below which the
    dependencies are well founded has been yielded. *)
Lemma well_founded_yielded st x :
  waiting None st → st_S st = ∅ →
  sn (depends_on call_dependencies_repo) x →
  x ∈ dom call_dependencies_repo → x ∈ st_yielded st.
Proof using graph.
  intros [HK HL HF] HS Hsn. induction Hsn as [x _ IH]. intros Hx.
  destruct (decide (x ∈ st_yielded st)) as [|Hny]; [done|]. exfalso.
  assert (x ∉ st_S st) as HxS by (rewrite HS; apply not_elem_of_empty).
  apply elem_of_dom in Hx as [ds Hds].
  destruct ds as [|d0 ds].
  - destruct (HF x (graph_leaf _ _ _ graph x Hds)) as [?|?]; done.
  - destruct (HL x HxS Hny) as (d & Hd & Hd').
    { unfold dependencies_of. by rewrite Hds. }
    apply Hd', HK; [done..| |done].
    apply (IH d); [exact Hd | by apply (graph_dependency _ _ _ graph x)].
Qed.

(** The generator is exhausted on a well-formed graph, with or without
    cycles. *)
Lemma graph_exhausted fuel :
  size (dom call_dependencies_repo) < fuel →
  ∃ st, scheduled st ∧ once st ∧ waiting None st ∧ st_S st = ∅ ∧
    generate_execution_order call_dependents_repo call_dependencies_repo fuel
      leaf_call_ids = Finished (st_yielded st).
Proof using graph.
  intros Hfuel.
  pose proof (graph_leaves_have_no_dependencies _ _ _ graph) as Hleaves.
  pose proof (graph_sound _ _ _ graph) as Hsound.
  pose proof (graph_universe _ _ _ graph) as Huniverse.
  destruct (execution_order_from_finishes call_dependents_repo call_dependencies_repo
              (λ st, (scheduled st ∧ once st) ∧ waiting None st)
              (λ n st, yielding call_dependencies_repo leaf_call_ids n st ∧
                       waiting (Some n) st)
              (size (dom call_dependencies_repo))) with
    (fuel := fuel) (st := initial_state leaf_call_ids)
    as (st & [[Hst Honce] Hw] & HS & Hrun).
  - intros st n st1 [? ?] Hnext. split; [by eapply yielding_pop | by eapply waiting_pop].
  - intros n st1 st2 [? ?] Hp.
    split; [by eapply yielding_propagate | by eapply waiting_propagate].
  - intros n st1 [? _]. by eapply yielding_propagate_Ok.
  - intros st [[_ Honce] _]. rewrite <-Huniverse. by apply once_length.
  - split; [split|]; [by apply scheduled_initial | apply once_initial | apply waiting_initial].
  - simpl. lia.
  - by exists st.
Qed.

Lemma yielded_dependencies st x y :
  scheduled st → rtc (depends_on call_dependencies_repo) x y →
  x ∈ st_yielded st → y ∈ st_yielded st.
Proof.
  intros Hst Hxy. induction Hxy as [x|x z y Hxz _ IH]; [done|].
  intros [j Hj]%list_elem_of_lookup. apply IH.
  destruct (scheduled_before _ _ Hst x z Hxz j Hj) as (i & _ & Hi).
  by eapply list_elem_of_lookup_2.
Qed.
End truncation.

(** X18: on a well-formed dependency graph (the leaf ids are the registered
    calls without dependencies, the dependents are the inverse of the
    dependencies, every dependency is registered), with or without cycles,
    [generate_execution_order] is exhausted, and the ids it has yielded,
    each once, are exactly the registered calls from which no cycle can be
    reached through dependencies: the calls on a cycle and the calls that
    need one are lost, and nothing else is, whatever [S.pop()] picks. *)
Theorem exactly_the_calls_that_need_no_cycle_are_yielded {set_pop : SetPop}
    (call_dependents_repo call_dependencies_repo : gmap call_id (list call_id))
    (leaf_call_ids : list call_id) (fuel : nat) :
  dependency_graph leaf_call_ids call_dependents_repo call_dependencies_repo →
  size (dom call_dependencies_repo) < fuel →
  ∃ order,
    generate_execution_order call_dependents_repo call_dependencies_repo fuel
      leaf_call_ids = Finished order ∧
    NoDup order ∧
    ∀ x, x ∈ order ↔
         is_Some (call_dependencies_repo !! x) ∧
         ∀ y, rtc (depends_on call_dependencies_repo) x y →
              ¬ tc (depends_on call_dependencies_repo) y y.
Proof.
  intros Hgraph Hfuel.
  destruct (graph_exhausted _ _ _ Hgraph fuel Hfuel)
    as (st & Hst & Honce & Hw & HS & Hrun).
  exists (st_yielded st). split_and!; [done | apply (once_NoDup _ _ _ Honce) |].
  intros x. split.
  - intros Hx. split.
    + apply elem_of_dom. rewrite <-(graph_universe _ _ _ Hgraph).
      apply (once_universe _ _ _ Honce). by right.
    + intros y Hxy Hyy. apply (cycle_not_yielded _ st y Hst Hyy).
      by apply (yielded_dependencies call_dependencies_repo st x y).
  - intros [Hx Hcycle]. apply (well_founded_yielded _ _ _ Hgraph); [done..| |].
    + apply (no_reachable_cycle_sn _ (elements (dom call_dependencies_repo))); [|done].
      intros a b Hab. apply elem_of_elements. by apply (graph_dependency _ _ _ Hgraph a).
    + by apply elem_of_dom.
Qed.

Lemma cyclic_graph :
  dependency_graph ["a"] (call_dependents cyclic_assembled) cyclic_dependencies.
Proof. split; apply (bool_decide_unpack _); vm_compute; exact I. Qed.

Lemma exactly_the_calls_that_need_no_cycle_are_yielded_witness :
  dependency_graph ["a"] (call_dependents cyclic_assembled) cyclic_dependencies ∧
  size (dom cyclic_dependencies) < 10 ∧
  ∃ order,
    generate_execution_order (set_pop := first_pop) (call_dependents cyclic_assembled)
      cyclic_dependencies 10 ["a"] = Finished order ∧
    NoDup order ∧
    ∀ x, x ∈ order ↔
         is_Some (cyclic_dependencies !! x) ∧
         ∀ y, rtc (depends_on cyclic_dependencies) x y →
              ¬ tc (depends_on cyclic_dependencies) y y.
Proof.
  assert (size (dom cyclic_dependencies) < 10) as H2 by (vm_compute; lia).
  split_and!; [exact cyclic_graph | exact H2 |].
  exact (exactly_the_calls_that_need_no_cycle_are_yielded (set_pop := first_pop)
           (call_dependents cyclic_assembled) cyclic_dependencies ["a"] 10
           cyclic_graph H2).
Defined.
